(** * App lifecycle manager (yunohost_app/app.py): model and properties

    A shallow embedding of the app lifecycle code of
    [src/library/yunohost_app/app.py]: instance identifiers, web-path
    conflicts, upgrade classification, manifest prompts, the settings
    store, the application map and the install / upgrade / remove
    drivers. *)

From Stdlib Require Import String Ascii ZArith List Lia Bool.
From Stdlib Require Import Decimal DecimalFacts DecimalPos DecimalN DecimalZ DecimalString.
From stdpp Require Import gmap strings list.

Set Warnings "-register-all".

Local Open Scope string_scope.
Local Open Scope Z_scope.

(** ** Python exceptions and results *)

Inductive exn : Type :=
| AssertionError (msg : string)
| KeyError (key : string)
| ValueError
| AttributeError
| UnboundLocalError (name : string)
| KeyboardInterrupt
| IOError
| TypeError
| YunohostValidationError (key : string)
| YunohostError (msg : string)
| OtherError (msg : string).

Inductive result (A : Type) : Type :=
| Ok (a : A)
| Raise (e : exn).
Arguments Ok {A} a.
Arguments Raise {A} e.

(** Python objects as they occur in settings, manifests and arguments. *)
Inductive pyobj : Type :=
| VNone
| VBool (b : bool)
| VInt (z : Z)
| VStr (s : string)
| VList (l : list pyobj)
| VDict (d : list (string * pyobj)).

(** [v == s] for a string literal [s]. *)
Definition value_is_str (v : pyobj) (s : string) : bool :=
  match v with
  | VStr s' => String.eqb s' s
  | _ => false
  end.

Definition is_None (v : pyobj) : bool :=
  match v with
  | VNone => true
  | _ => false
  end.

(** ** Python string primitives *)

(** A text is the sequence of its bytes.  The primitives that look at the
    class of a character ([lower], [upper], the blanks of [strip], the
    class [\w]) are those of Python on ASCII text; on the characters
    beyond ASCII, which they leave as they are, Python follows the Unicode
    tables.  [ascii_text] singles out the texts on which they agree. *)

Module PyStr.

(** [s.startswith(p)] *)
Definition startswith (s p : string) : bool := String.prefix p s.

(** [sub in s] *)
Fixpoint contains (sub s : string) : bool :=
  String.prefix sub s ||
  match s with
  | EmptyString => false
  | String _ s' => contains sub s'
  end.

Definition is_digit (c : ascii) : bool :=
  let n := nat_of_ascii c in (48 <=? n)%nat && (n <=? 57)%nat.

Definition is_nonzero_digit (c : ascii) : bool :=
  let n := nat_of_ascii c in (49 <=? n)%nat && (n <=? 57)%nat.

Definition is_alpha (c : ascii) : bool :=
  let n := nat_of_ascii c in
  ((65 <=? n)%nat && (n <=? 90)%nat) || ((97 <=? n)%nat && (n <=? 122)%nat).

(** The class [\w] of the [re] module, on ASCII text: no byte beyond
    ASCII is in it. *)
Definition is_word (c : ascii) : bool :=
  is_alpha c || is_digit c || Ascii.eqb c "_".

Fixpoint forallb_string (p : ascii -> bool) (s : string) : bool :=
  match s with
  | EmptyString => true
  | String c s' => p c && forallb_string p s'
  end.

Definition digit_string (s : string) : bool := forallb_string is_digit s.

(** A text of ASCII characters only. *)
Definition ascii_text (s : string) : bool :=
  forallb_string (fun c => (nat_of_ascii c <? 128)%nat) s.

(** A canonical decimal numeral: not empty, no leading zero. *)
Definition canonical (d : uint) : Prop :=
  match d with
  | Nil | D0 _ => False
  | _ => True
  end.

(** Longest run of decimal digits at the head of [s], and what follows. *)
Fixpoint span_digits (s : string) : string * string :=
  match s with
  | String c s' =>
      if is_digit c then let (d, r) := span_digits s' in (String c d, r)
      else (EmptyString, s)
  | EmptyString => (EmptyString, EmptyString)
  end.

(** [s.endswith(p)] *)
Fixpoint endswith (s p : string) : bool :=
  String.eqb s p ||
  match s with
  | EmptyString => false
  | String _ s' => endswith s' p
  end.

Fixpoint lstrip_char (c : ascii) (s : string) : string :=
  match s with
  | String a s' => if Ascii.eqb a c then lstrip_char c s' else s
  | EmptyString => EmptyString
  end.

Fixpoint rstrip_char (c : ascii) (s : string) : string :=
  match s with
  | String a s' =>
      match rstrip_char c s' with
      | EmptyString => if Ascii.eqb a c then EmptyString else String a EmptyString
      | r => String a r
      end
  | EmptyString => EmptyString
  end.

(** [s.strip(c)] for a single character [c]. *)
Definition strip_char (c : ascii) (s : string) : string :=
  rstrip_char c (lstrip_char c s).

(** [s.split(sep)] for a non-empty separator: [skip] counts the characters
    of a separator still to be dropped, [cur] is the piece being read. *)
Fixpoint split_from (sep : string) (skip : nat) (cur : string) (s : string) : list string :=
  match s with
  | EmptyString => cur :: nil
  | String c s' =>
      match skip with
      | S k => split_from sep k cur s'
      | O =>
          if String.prefix sep s
          then cur :: split_from sep (String.length sep - 1) EmptyString s'
          else split_from sep O (cur ++ String c EmptyString) s'
      end
  end.

Definition split (sep s : string) : list string := split_from sep O EmptyString s.

(** [sep.join(l)] *)
Fixpoint join (sep : string) (l : list string) : string :=
  match l with
  | nil => EmptyString
  | a :: nil => a
  | a :: l' => a ++ sep ++ join sep l'
  end.

Definition lower_char (c : ascii) : ascii :=
  let n := nat_of_ascii c in
  if (65 <=? n)%nat && (n <=? 90)%nat then ascii_of_nat (n + 32) else c.

(** [s.lower()], on ASCII text: a byte beyond ASCII is left as it is. *)
Fixpoint lower (s : string) : string :=
  match s with
  | EmptyString => EmptyString
  | String c s' => String (lower_char c) (lower s')
  end.

Definition upper_char (c : ascii) : ascii :=
  let n := nat_of_ascii c in
  if (97 <=? n)%nat && (n <=? 122)%nat then ascii_of_nat (n - 32) else c.

(** [s.upper()], on ASCII text: a byte beyond ASCII is left as it is. *)
Fixpoint upper (s : string) : string :=
  match s with
  | EmptyString => EmptyString
  | String c s' => String (upper_char c) (upper s')
  end.

(** [s.zfill(width)] for a string of digits. *)
Definition zfill (width : nat) (s : string) : string :=
  string_of_list_ascii (List.repeat "0"%char (width - String.length s)) ++ s.

(** [str(n)] for an integer. *)
Definition str (n : Z) : string := NilZero.string_of_int (Z.to_int n).

(** [int(s)] for a string of decimal digits. *)
Definition int (s : string) : result Z :=
  match s with
  | EmptyString => Raise ValueError
  | _ =>
      match NilEmpty.uint_of_string s with
      | Some d => Ok (Z.of_uint d)
      | None => Raise ValueError
      end
  end.

End PyStr.


(** ** More string primitives *)

Module PyText.
Import PyStr.

(** The ASCII characters for which [str.isspace] holds. *)
Definition is_space (c : ascii) : bool :=
  let n := nat_of_ascii c in
  ((9 <=? n)%nat && (n <=? 13)%nat) || ((28 <=? n)%nat && (n <=? 32)%nat).

Fixpoint lstrip (s : string) : string :=
  match s with
  | String a s' => if is_space a then lstrip s' else s
  | EmptyString => EmptyString
  end.

Fixpoint rstrip (s : string) : string :=
  match s with
  | String a s' =>
      match rstrip s' with
      | EmptyString => if is_space a then EmptyString else String a EmptyString
      | r => String a r
      end
  | EmptyString => EmptyString
  end.

(** [s.strip()], on ASCII text: the blanks beyond ASCII stay. *)
Definition strip (s : string) : string := rstrip (lstrip s).

(** [s.replace(old, new)] for a non-empty [old]: [skip] counts the
    characters of an occurrence still to be dropped. *)
Fixpoint replace_from (old new : string) (skip : nat) (s : string) : string :=
  match s with
  | EmptyString => EmptyString
  | String c s' =>
      match skip with
      | S k => replace_from old new k s'
      | O =>
          if String.prefix old s
          then new ++ replace_from old new (String.length old - 1) s'
          else String c (replace_from old new O s')
      end
  end.

Definition replace (old new s : string) : string := replace_from old new O s.

(** [s.split(sep, 1)] for a separator of one character: the text before
    the first separator and the text after it, or [s] alone. *)
Fixpoint split_once (sep : ascii) (s : string) : string * option string :=
  match s with
  | EmptyString => (EmptyString, None)
  | String c s' =>
      if Ascii.eqb c sep then (EmptyString, Some s')
      else let (a, b) := split_once sep s' in (String c a, b)
  end.

(** [sorted(l)] on texts, by insertion. *)
Fixpoint insert_sorted (x : string) (l : list string) : list string :=
  match l with
  | nil => x :: nil
  | y :: l' => if String.leb x y then x :: l else y :: insert_sorted x l'
  end.

Definition sorted (l : list string) : list string := fold_right insert_sorted nil l.

End PyText.

(** ** Instance identity *)

Module InstanceId.
Import PyStr.

Definition newline : ascii := ascii_of_nat 10.

(** The characters of the [appid] group: word characters and the hyphen. *)
Definition appid_char (c : ascii) : bool := is_word c || Ascii.eqb c "-".

(** [$] of the [re] module: the end of the text, or just before a final
    line feed. *)
Definition at_end (s : string) : bool :=
  match s with
  | EmptyString => true
  | String c EmptyString => Ascii.eqb c newline
  | _ => false
  end.

(** The suffix group of the pattern (two underscores, a digit from 1 to 9,
    then any run of digits) followed by [$].  The digit run is greedy;
    giving digits back cannot help, since [$] never matches in front of a
    digit. *)
Definition match_instance_suffix (rest : string) : option string :=
  match rest with
  | String a (String b (String d ds)) =>
      if Ascii.eqb a "_" && Ascii.eqb b "_" && is_nonzero_digit d then
        let (num, tl) := span_digits ds in
        if at_end tl then Some (String d num) else None
      else None
  | _ => None
  end.

(** What may follow the [appid] group: the optional suffix group (tried
    first, [?] being greedy), then [$]. *)
Definition match_tail (rest : string) : option (option string) :=
  match match_instance_suffix rest with
  | Some nb => Some (Some nb)
  | None => if at_end rest then Some None else None
  end.

(** The lazy [appid] group (word characters and hyphens, at least one): it
    grows one character at a time and stops at the first length for which
    the rest of the pattern matches. *)
Fixpoint match_appid (acc : string) (s : string) : option (string * option string) :=
  match s with
  | EmptyString => None
  | String c s' =>
      if appid_char c then
        let acc' := acc ++ String c EmptyString in
        match match_tail s' with
        | Some nb => Some (acc', nb)
        | None => match_appid acc' s'
        end
      else None
  end.

(** [re_app_instance_name.match(s)], giving the groups [appid] and
    [appinstancenb]. *)
Definition re_app_instance_name (s : string) : option (string * option string) :=
  match_appid EmptyString s.

Definition _parse_app_instance_name (app_instance_name : string) : result (string * Z) :=
  match re_app_instance_name app_instance_name with
  | None =>
      Raise (AssertionError ("Could not parse app instance name : " ++ app_instance_name))
  | Some (appid, appinstancenb) =>
      let app_instance_nb_ := default "1" appinstancenb in
      if String.eqb appid EmptyString then
        Raise (OtherError ("Could not parse app instance name : " ++ app_instance_name))
      else if negb (negb (String.eqb app_instance_nb_ EmptyString)
                    && forallb_string is_digit app_instance_nb_) then
        Raise (OtherError ("Could not parse app instance name : " ++ app_instance_name))
      else
        match int app_instance_nb_ with
        | Ok app_instance_nb => Ok (appid, app_instance_nb)
        | Raise e => Raise e
        end
  end.

(** The name [app_install] gives to instance number [instance_number] of
    [app_id]. *)
Definition instance_name (app_id : string) (instance_number : Z) : string :=
  if 1 <? instance_number then app_id ++ "__" ++ str instance_number else app_id.

(** No occurrence of the separator [__]. *)
Fixpoint no_separator (s : string) : bool :=
  match s with
  | String a s' =>
      match s' with
      | String b _ => negb (Ascii.eqb a "_" && Ascii.eqb b "_") && no_separator s'
      | EmptyString => true
      end
  | EmptyString => true
  end.

(** An application id as [app_install] and the name pattern accept it: a
    non-empty run of word characters and hyphens without [__]. *)
Definition valid_app_id (s : string) : bool :=
  negb (String.eqb s EmptyString)
  && forallb_string appid_char s
  && no_separator s.

(** The list comprehension [[f(a) for a in l]]: the first exception ends it. *)
Fixpoint map_result {A B : Type} (f : A -> result B) (l : list A) : result (list B) :=
  match l with
  | nil => Ok nil
  | a :: l' =>
      match f a with
      | Raise e => Raise e
      | Ok b =>
          match map_result f l' with
          | Raise e => Raise e
          | Ok bs => Ok (b :: bs)
          end
      end
  end.

(** [[a for a in apps if a == app or a.startswith(f"{app}__")]] *)
Definition sibling_app_ids (apps : list string) (app : string) : list string :=
  List.filter (fun a => String.eqb a app || startswith a (app ++ "__")) apps.

(** How many of [ids] are not below [i]: what bounds the search loop. *)
Definition count_from (i : Z) (ids : list Z) : nat :=
  length (List.filter (fun x => i <=? x) ids).

(** The search loop [while True] of [_next_instance_number_for_app], from
    [i]; [None] when [fuel] iterations were not enough. *)
Fixpoint first_free_from (fuel : nat) (sibling_ids : list Z) (i : Z) : option Z :=
  match fuel with
  | O => None
  | S fuel' =>
      if negb (existsb (Z.eqb i) sibling_ids) then Some i
      else first_free_from fuel' sibling_ids (i + 1)
  end.

(** [apps] is the listing [_installed_apps()] of the settings root. *)
Definition _next_instance_number_for_app (fuel : nat) (apps : list string) (app : string)
  : option (result Z) :=
  match map_result (fun a => match _parse_app_instance_name a with
                             | Ok (_, nb) => Ok nb
                             | Raise e => Raise e
                             end) (sibling_app_ids apps app) with
  | Raise e => Some (Raise e)
  | Ok sibling_ids =>
      match first_free_from fuel sibling_ids 1 with
      | Some i => Some (Ok i)
      | None => None
      end
  end.

End InstanceId.

(** ** Conflict resolver *)

Module Conflicts.
Import PyStr.

(** One registration of the raw application map: [{"label": .., "id": ..}]. *)
Record app_location : Type := { loc_id : string; loc_label : string }.

Section conflicts.
(** Collaborators outside the repository: the normalisers of
    [yunohost.utils.config] and the domain check of [yunohost.domain]. *)
Variable DomainQuestion_normalize : string -> string.
Variable PathQuestion_normalize : string -> string.
Variable domain_exists : string -> bool.

(** One turn of the loop over [apps_map[domain].items()]. *)
Definition conflict_of (path : string) (ignore_app : option string)
    (entry : string * app_location) : list (string * string * string) :=
  let (p, a) := entry in
  if bool_decide (Some (loc_id a) = ignore_app) then nil
  else if String.eqb path p then (p, loc_id a, loc_label a) :: nil
  else if startswith path p || startswith p path then (p, loc_id a, loc_label a) :: nil
  else nil.

(** [apps_map] is the result of [app_map(raw=True)]: domain, then path. *)
Definition _get_conflicting_apps (apps_map : gmap string (gmap string app_location))
    (domain path : string) (ignore_app : option string)
  : result (list (string * string * string)) :=
  let domain := DomainQuestion_normalize domain in
  let path := PathQuestion_normalize path in
  if negb (domain_exists domain) then Raise (YunohostValidationError "domain_name_unknown")
  else
    match apps_map !! domain with
    | Some locations => Ok (flat_map (conflict_of path ignore_app) (map_to_list locations))
    | None => Ok nil
    end.

Definition _assert_no_conflicting_apps (apps_map : gmap string (gmap string app_location))
    (domain path : string) (ignore_app : option string) (full_domain : bool)
  : result unit :=
  match _get_conflicting_apps apps_map domain path ignore_app with
  | Raise e => Raise e
  | Ok nil => Ok tt
  | Ok (_ :: _) =>
      if full_domain then Raise (YunohostValidationError "app_full_domain_unavailable")
      else Raise (YunohostValidationError "app_location_unavailable")
  end.
End conflicts.

End Conflicts.

(** ** Version classifier *)

Module Versions.
Import PyStr.

(** Modelled from the spec: version strings are compared as dotted/alnum
    version tuples.  The comparison is the one of the [packaging] library
    (not part of the repository) for versions outside PEP 440, which every
    version carrying the marker [~ynh] is: the text is cut into runs of
    digits, runs of letters and other runs, dots are dropped, digit runs
    are padded to eight characters, other parts get a star in front, and
    the resulting tuples are compared part by part. *)

Inductive char_class : Type := CDigit | CLower | CDot | CHyphen | COther.

Definition class_of (c : ascii) : char_class :=
  let n := nat_of_ascii c in
  if is_digit c then CDigit
  else if (97 <=? n)%nat && (n <=? 122)%nat then CLower
  else if Ascii.eqb c "." then CDot
  else if Ascii.eqb c "-" then CHyphen
  else COther.

Definition same_run (c d : ascii) : bool :=
  match class_of c, class_of d with
  | CDigit, CDigit | CLower, CLower | COther, COther => true
  | _, _ => false
  end.

Fixpoint runs (s : string) : list string :=
  match s with
  | EmptyString => nil
  | String c s' =>
      match runs s' with
      | String d t :: rest =>
          if same_run c d then String c (String d t) :: rest
          else String c EmptyString :: String d t :: rest
      | _ => String c EmptyString :: nil
      end
  end.

Definition replacement (part : string) : string :=
  if String.eqb part "pre" then "c"
  else if String.eqb part "preview" then "c"
  else if String.eqb part "-" then "final-"
  else if String.eqb part "rc" then "c"
  else if String.eqb part "dev" then "@"
  else part.

Definition version_part (part : string) : list string :=
  let part := replacement part in
  if String.eqb part EmptyString || String.eqb part "." then nil
  else
    match part with
    | String c _ => if is_digit c then zfill 8 part :: nil else ("*" ++ part) :: nil
    | EmptyString => nil
    end.

Definition _parse_version_parts (s : string) : list string :=
  (flat_map version_part (runs s) ++ "*final" :: nil)%list.

Fixpoint drop_while_eq (x : string) (stack : list string) : list string :=
  match stack with
  | y :: stack' => if String.eqb y x then drop_while_eq x stack' else stack
  | nil => nil
  end.

(** The list [parts] is kept as a stack, last part first. *)
Definition cmpkey_step (stack : list string) (part : string) : list string :=
  let stack :=
    if startswith part "*" then
      let stack := if String.ltb part "*final" then drop_while_eq "*final-" stack else stack in
      drop_while_eq "00000000" stack
    else stack in
  part :: stack.

Definition _legacy_cmpkey (version : string) : list string :=
  rev (fold_left cmpkey_step (_parse_version_parts (lower version)) nil).

Fixpoint compare_parts (a b : list string) : comparison :=
  match a, b with
  | nil, nil => Eq
  | nil, _ :: _ => Lt
  | _ :: _, nil => Gt
  | x :: a', y :: b' =>
      match String.compare x y with
      | Eq => compare_parts a' b'
      | c => c
      end
  end.

Definition legacy_version_compare (a b : string) : comparison :=
  compare_parts (_legacy_cmpkey a) (_legacy_cmpkey b).

Inductive upgrade_type : Type :=
| UNKNOWN | DOWNGRADE_FORCED | UPGRADE_FORCED | UPGRADE_PACKAGE | UPGRADE_APP | UPGRADE_FULL.

Definition upgrade_type_name (t : upgrade_type) : string :=
  match t with
  | UNKNOWN => "UNKNOWN"
  | DOWNGRADE_FORCED => "DOWNGRADE_FORCED"
  | UPGRADE_FORCED => "UPGRADE_FORCED"
  | UPGRADE_PACKAGE => "UPGRADE_PACKAGE"
  | UPGRADE_APP => "UPGRADE_APP"
  | UPGRADE_FULL => "UPGRADE_FULL"
  end.

(** Outcome of the classification block of [app_upgrade]: the [continue]
    of the already-up-to-date branch, or the type handed to the script. *)
Inductive classification : Type :=
| AlreadyUpToDate
| RunUpgrade (t : upgrade_type).

Section classify.
(** The order of [packaging.version] on the two parsed versions. *)
Variable version_compare : string -> string -> comparison.

Definition version_ge (a b : string) : bool :=
  match version_compare a b with Lt => false | _ => true end.
Definition version_gt (a b : string) : bool :=
  match version_compare a b with Gt => true | _ => false end.
Definition version_eq (a b : string) : bool :=
  match version_compare a b with Eq => true | _ => false end.

(** Lines 520 to 555 of [app_upgrade], on the texts of the current and of
    the new version. *)
Definition classify_upgrade (app_current_version app_new_version : string) (force : bool)
  : result classification :=
  if contains "~ynh" app_current_version && contains "~ynh" app_new_version then
    if version_ge app_current_version app_new_version && negb force then Ok AlreadyUpToDate
    else if version_gt app_current_version app_new_version then Ok (RunUpgrade DOWNGRADE_FORCED)
    else if version_eq app_current_version app_new_version then Ok (RunUpgrade UPGRADE_FORCED)
    else
      match split "~ynh" app_current_version with
      | app_current_version_upstream :: app_current_version_pkg :: nil =>
          match split "~ynh" app_new_version with
          | app_new_version_upstream :: app_new_version_pkg :: nil =>
              if String.eqb app_current_version_upstream app_new_version_upstream
              then Ok (RunUpgrade UPGRADE_PACKAGE)
              else if String.eqb app_current_version_pkg app_new_version_pkg
              then Ok (RunUpgrade UPGRADE_APP)
              else Ok (RunUpgrade UPGRADE_FULL)
          | _ => Raise ValueError
          end
      | _ => Raise ValueError
      end
  else Ok (RunUpgrade UNKNOWN).
End classify.

End Versions.

(** ** Manifest resolver: default prompts *)

Module Manifests.
Import PyStr.

(** A question descriptor: the dict of one argument of a script. *)
Abbreviation question := (gmap string pyobj).

Definition questions_with_default : list (string * string) :=
  ("domain", "domain") :: ("path", "path") :: ("password", "password")
  :: ("user", "admin") :: ("boolean", "is_public") :: nil.

Section prompts.
(** [m18n.n]: the localised message of a key. *)
Variable m18n_n : string -> string.

(** The body of the loop [for arg in arg_list]. *)
Definition set_default_ask (script_name : string) (arg : question) : result question :=
  match arg !! "name" with
  | None => Raise (KeyError "name")
  | Some name =>
      let has_default_ask :=
        existsb (fun q : string * string =>
                   match arg !! "type" with
                   | Some t => value_is_str t (fst q) && value_is_str name (snd q)
                   | None => false
                   end) questions_with_default in
      let arg :=
        if has_default_ask then
          match name with
          | VStr n =>
              <["ask" := VStr (m18n_n ("app_manifest_" ++ script_name ++ "_ask_" ++ n))]> arg
          | _ => arg
          end
        else arg in
      let strips :=
        match arg !! "type" with
        | Some t => existsb (value_is_str t) ("domain" :: "user" :: "password" :: nil)
        | None => false
        end in
      if strips then
        let arg := if bool_decide (is_Some (arg !! "example")) then delete "example" arg else arg in
        if bool_decide (is_Some (arg !! "default")) then
          (* [del arg["domain"]] *)
          if bool_decide (is_Some (arg !! "domain")) then Ok (delete "domain" arg)
          else Raise (KeyError "domain")
        else Ok arg
      else Ok arg
  end.

(** [arguments] is the dict from script name to its list of questions,
    in the order of its items. *)
Fixpoint _set_default_ask_questions (arguments : list (string * list question))
  : result (list (string * list question)) :=
  match arguments with
  | nil => Ok nil
  | (script_name, arg_list) :: rest =>
      let done :=
        if negb (String.eqb script_name "install") then Ok arg_list
        else InstanceId.map_result (set_default_ask script_name) arg_list in
      match done with
      | Raise e => Raise e
      | Ok arg_list' =>
          match _set_default_ask_questions rest with
          | Raise e => Raise e
          | Ok rest' => Ok ((script_name, arg_list') :: rest')
          end
      end
  end.
End prompts.

End Manifests.


(** ** The machine: records, permissions, scratch directories *)

Module Sys.
Import PyStr Manifests.

(** Modelled from the spec: the Permission Directory keeps named
    permissions with their allowed principals, label, url, additional urls
    and flags; its code ([yunohost.permission]) is not part of the
    repository. *)
Record permission : Type := {
  perm_allowed : list string;
  perm_label : string;
  perm_url : option string;
  perm_additional_urls : list string;
  perm_show_tile : bool;
  perm_protected : bool;
  perm_auth_header : bool;
}.

(** The keys of a manifest that the lifecycle code reads; [None] is a
    missing key. *)
Record manifest : Type := {
  m_id : option string;
  m_name : option string;
  m_version : option string;
  m_multi_instance : option pyobj;
  m_packaging_format : option Z;
  m_services : list string;
  m_requirements : list (string * string);
  m_arguments : option (list (string * list question));
  m_revision : option string;
  m_description : option string;
}.

Definition set_m_arguments (m : manifest) (a : option (list (string * list question)))
  : manifest :=
  {| m_id := m_id m; m_name := m_name m; m_version := m_version m;
     m_multi_instance := m_multi_instance m; m_packaging_format := m_packaging_format m;
     m_services := m_services m; m_requirements := m_requirements m;
     m_arguments := a; m_revision := m_revision m; m_description := m_description m |}.

(** The manifest file of a package: [manifest.toml], whose install
    arguments are keyed by name, or else [manifest.json]. *)
Inductive manifest_file : Type :=
| ManifestToml (m : manifest) (install : list (string * question))
| ManifestJson (m : manifest).

(** The files of a package that [APP_FILES_TO_COPY] names. *)
Record package : Type := {
  pkg_manifest : option manifest_file;
  pkg_scripts : list string;
  pkg_hooks : list string;
}.

Definition empty_package : package :=
  {| pkg_manifest := None; pkg_scripts := nil; pkg_hooks := nil |}.

(** One directory of [/etc/yunohost/apps/]: [settings.yml] (a mapping, or
    no file) and the package files copied there. *)
Record app_dir : Type := {
  settings_yml : option (gmap string pyobj);
  dir_files : package;
}.

Record host_state : Type := {
  services : gmap string string;
  dpkg_broken : bool;
  free_space_root : Z;
  clock : Z;
  manually_modified : list string;
}.

Record machine : Type := {
  apps : gmap string app_dir;
  perms : gmap string permission;
  tmp_dirs : gmap string package;
  host : host_state;
}.

Definition set_apps (f : gmap string app_dir -> gmap string app_dir) (m : machine) : machine :=
  {| apps := f (apps m); perms := perms m; tmp_dirs := tmp_dirs m; host := host m |}.
Definition set_perms (f : gmap string permission -> gmap string permission) (m : machine)
  : machine :=
  {| apps := apps m; perms := f (perms m); tmp_dirs := tmp_dirs m; host := host m |}.
Definition set_tmp_dirs (f : gmap string package -> gmap string package) (m : machine)
  : machine :=
  {| apps := apps m; perms := perms m; tmp_dirs := f (tmp_dirs m); host := host m |}.
Definition set_host (f : host_state -> host_state) (m : machine) : machine :=
  {| apps := apps m; perms := perms m; tmp_dirs := tmp_dirs m; host := f (host m) |}.

(** What a run leaves behind for the operator: log lines, calls of the
    script runner, health checks. *)
Inductive event : Type :=
| EvLog (level key : string) (args : list string)
| EvScript (script app : string)
| EvSanityCheck (when : string)
| EvHook (name : string).

Record state : Type := { mach : machine; trace : list event }.

(** *** State and exceptions *)

Definition M (A : Type) : Type := state -> state * result A.

Definition ret {A : Type} (a : A) : M A := fun s => (s, Ok a).
Definition raise {A : Type} (e : exn) : M A := fun s => (s, Raise e).
Definition bind {A B : Type} (m : M A) (k : A -> M B) : M B :=
  fun s => match m s with
           | (s', Ok a) => k a s'
           | (s', Raise e) => (s', Raise e)
           end.

Declare Scope M_scope.
Delimit Scope M_scope with M.
Notation "x <- c1 ;; c2" := (bind c1 (fun x => c2))
  (at level 100, c1 at next level, right associativity) : M_scope.
Notation "c1 ;; c2" := (bind c1 (fun _ => c2))
  (at level 100, right associativity) : M_scope.
Local Open Scope M_scope.

(** Run [m] and hand back how it ended, as [try] does. *)
Definition attempt {A : Type} (m : M A) : M (result A) :=
  fun s => let (s', r) := m s in (s', Ok r).
Definition of_result {A : Type} (r : result A) : M A := fun s => (s, r).

(** [except Exception] lets [KeyboardInterrupt] through. *)
Definition is_Exception (e : exn) : bool :=
  match e with KeyboardInterrupt => false | _ => true end.

Definition get_mach : M machine := fun s => (s, Ok (mach s)).
Definition modify_mach (f : machine -> machine) : M unit :=
  fun s => ({| mach := f (mach s); trace := trace s |}, Ok tt).
Definition emit (e : event) : M unit :=
  fun s => ({| mach := mach s; trace := (trace s ++ e :: nil)%list |}, Ok tt).
(** A collaborator acting on the machine. *)
Definition call {A : Type} (f : machine -> machine * result A) : M A :=
  fun s => let (m', r) := f (mach s) in ({| mach := m'; trace := trace s |}, r).

Definition when_ (b : bool) (m : M unit) : M unit := if b then m else ret tt.

Fixpoint for_each {A : Type} (l : list A) (body : A -> M unit) : M unit :=
  match l with
  | nil => ret tt
  | a :: l' => body a ;; for_each l' body
  end.

(** *** Collaborators outside the repository *)

Record catalog_entry : Type := {
  cat_level : pyobj;
  cat_state : option string;
  cat_manifest_version : option string;
  cat_lastUpdate : option Z;
  cat_git : bool;
}.

(** [d[k] = v] on a dict kept as the list of its items. *)
Fixpoint dict_set {V : Type} (k : string) (v : V) (d : list (string * V)) : list (string * V) :=
  match d with
  | nil => (k, v) :: nil
  | (k', v') :: d' => if String.eqb k' k then (k, v) :: d' else (k', v') :: dict_set k v d'
  end.

Fixpoint dict_get {V : Type} (k : string) (d : list (string * V)) : option V :=
  match d with
  | nil => None
  | (k', v) :: d' => if String.eqb k' k then Some v else dict_get k d'
  end.

(** One entry of [user_permission_list(full=True, absolute_urls=True)]:
    the urls are absolute, and the users are those the permission is
    granted to in the end.  The listing is made by [yunohost.permission],
    outside the repository. *)
Record perm_info : Type := {
  pi_url : option string;
  pi_additional_urls : list string;
  pi_label : string;
  pi_corresponding_users : list string;
}.

Record externals : Type := {
  m18n_n : string -> string;
  yaml_safe_load : string -> pyobj;
  legacy_permission_label : string -> string -> string;
  version_compare : string -> string -> comparison;
  meets_version_specifier : string -> string -> bool;
  time_sleep : host_state -> host_state;
  apps_catalog : gmap string catalog_entry;
  (** the script runner and the hooks of [yunohost.hook] *)
  hook_exec_with_script_debug_if_failure :
    string -> gmap string string -> machine -> machine * result (bool * string);
  hook_exec : string -> list string -> gmap string string -> machine -> machine * result Z;
  hook_callback : string -> gmap string string -> machine -> machine * result unit;
  (** the package fetcher: manifest, scratch directory and its content *)
  fetch_package : string -> machine -> result (manifest * string * package);
  (** the install-time confirmation: [os.path.exists],
      [Moulinette.interface.type == "api"] and [Moulinette.prompt], by the
      key of the message shown; and the questions *)
  os_path_exists : machine -> string -> bool;
  Moulinette_interface_is_api : bool;
  Moulinette_prompt : string -> string;
  ask_questions_and_parse_answers :
    list question -> option string -> machine -> result (list (string * string * option string));
  (** the location checks: what the two searches in the text of the install
      script find, the listing
      [user_permission_list(full=True, absolute_urls=True, apps=apps)] of the
      Permission Directory, the normalisers and the domain check *)
  install_script_registers_root : package -> bool;
  full_permission_list : list string -> machine -> list (string * perm_info);
  DomainQuestion_normalize : string -> string;
  PathQuestion_normalize : string -> string;
  domain_exists : machine -> string -> bool;
}.

(** *** The record store *)

Definition APPS_SETTING_PATH : string := "/etc/yunohost/apps/".

Definition _is_installed (app : string) : M bool :=
  m <- get_mach ;; ret (bool_decide (is_Some (apps m !! app))).

Definition _installed_apps : M (list string) :=
  m <- get_mach ;; ret (map fst (map_to_list (apps m))).

Definition _assert_is_installed (app : string) : M unit :=
  installed <- _is_installed app ;;
  if negb installed then raise (YunohostValidationError "app_not_installed") else ret tt.

(** Writing [settings.yml] needs the directory of the record. *)
Definition _set_app_settings (app_id : string) (settings : gmap string pyobj) : M unit :=
  m <- get_mach ;;
  match apps m !! app_id with
  | None => raise IOError
  | Some d =>
      modify_mach (set_apps (insert app_id
        {| settings_yml := Some settings; dir_files := dir_files d |}))
  end.

(** The repair of a stored [path] in [_get_app_settings]: the new path when
    the stored one has to be rewritten. *)
Definition path_to_rewrite (settings : gmap string pyobj) : result (option string) :=
  match settings !! "path" with
  | None => Ok None
  | Some (VStr p) =>
      if negb (String.eqb p "/") && (endswith p "/" || negb (startswith p "/"))
      then Ok (Some ("/" ++ strip_char "/" p))
      else Ok None
  | Some _ => Raise AttributeError
  end.

Section store.
Variable E : externals.

Definition _get_app_settings (app_id : string) : M (gmap string pyobj) :=
  installed <- _is_installed app_id ;;
  if negb installed then raise (YunohostValidationError "app_not_installed")
  else
    m <- get_mach ;;
    match apps m !! app_id ≫= settings_yml with
    | None =>
        (* [IOError] of [open], caught *)
        emit (EvLog "error" "app_not_correctly_installed" (app_id :: nil)) ;; ret ∅
    | Some settings =>
        fixed <- of_result (path_to_rewrite settings) ;;
        settings <- match fixed with
                    | Some p =>
                        let settings := <["path" := VStr p]> settings in
                        _set_app_settings app_id settings ;; ret settings
                    | None => ret settings
                    end ;;
        match settings !! "id" with
        | None =>
            (* [KeyError], caught *)
            emit (EvLog "error" "app_not_correctly_installed" (app_id :: nil)) ;; ret ∅
        | Some v => if value_is_str v app_id then ret settings else ret ∅
        end
    end.

(** *** Permission Directory (modelled from the spec: create, update,
    delete and list named permissions) *)

Definition app_of_permission (name : string) : string :=
  match split "." name with
  | a :: _ => a
  | nil => EmptyString
  end.

(** [user_permission_list(apps=apps)["permissions"]]; no filter for an
    empty [apps]. *)
Definition user_permission_list (apps_ : list string) : M (gmap string permission) :=
  m <- get_mach ;;
  ret (match apps_ with
       | nil => perms m
       | _ => filter (fun kv => app_of_permission (fst kv) ∈ apps_) (perms m)
       end).

Definition update_permission (name : string) (f : permission -> permission) : M unit :=
  m <- get_mach ;;
  match perms m !! name with
  | None => raise (YunohostValidationError "permission_not_found")
  | Some p => modify_mach (set_perms (insert name (f p)))
  end.

Definition user_permission_update (name : string) (add remove : option string)
    (show_tile : option bool) : M unit :=
  update_permission name (fun p =>
    let allowed := perm_allowed p in
    let allowed := match add with
                   | Some u => if bool_decide (u ∈ allowed) then allowed else (allowed ++ u :: nil)%list
                   | None => allowed
                   end in
    let allowed := match remove with
                   | Some u => List.filter (fun x => negb (String.eqb x u)) allowed
                   | None => allowed
                   end in
    {| perm_allowed := allowed; perm_label := perm_label p; perm_url := perm_url p;
       perm_additional_urls := perm_additional_urls p;
       perm_show_tile := default (perm_show_tile p) show_tile;
       perm_protected := perm_protected p; perm_auth_header := perm_auth_header p |}).

Definition permission_url (name : string) (url : option string) (add_url : list string)
    (clear_urls : bool) : M unit :=
  update_permission name (fun p =>
    {| perm_allowed := perm_allowed p; perm_label := perm_label p;
       perm_url := if clear_urls then None
                   else match url with Some u => Some u | None => perm_url p end;
       perm_additional_urls :=
         ((if clear_urls then nil else perm_additional_urls p) ++ add_url)%list;
       perm_show_tile := perm_show_tile p;
       perm_protected := perm_protected p; perm_auth_header := perm_auth_header p |}).

Definition permission_create (name : string) (p : permission) : M unit :=
  m <- get_mach ;;
  if bool_decide (is_Some (perms m !! name))
  then raise (YunohostValidationError "permission_already_exist")
  else modify_mach (set_perms (insert name p)).

Definition permission_delete (name : string) (force : bool) : M unit :=
  m <- get_mach ;;
  if negb (bool_decide (is_Some (perms m !! name)))
  then raise (YunohostValidationError "permission_not_found")
  else if endswith name ".main" && negb force
  then raise (YunohostValidationError "permission_cannot_remove_main")
  else modify_mach (set_perms (delete name)).

(** Publishing the permission set to the proxy configuration reads it
    and changes nothing here. *)
Definition permission_sync_to_user : M unit := ret tt.

(** *** [app_setting] *)

Definition is_legacy_permission_setting (key : string) : bool :=
  existsb (fun word => startswith key (word ++ "_"))
          ("unprotected" :: "protected" :: "skipped" :: nil).

(** [key.split("_")[0]] *)
Definition first_word (key : string) : string :=
  match split "_" key with
  | a :: _ => a
  | nil => EmptyString
  end.

(** The branch of [app_setting] for the legacy permission settings. *)
Definition legacy_permission_setting (app key : string) (value : pyobj) (delete : bool)
    (app_settings : gmap string pyobj) : M pyobj :=
  permissions <- user_permission_list (app :: nil) ;;
  let permission_name := app ++ ".legacy_" ++ first_word key ++ "_uris" in
  let permission := permissions !! permission_name in
  if is_None value && negb delete then
    (* GET *)
    ret (match permission with
         | Some p => VStr (join "," (perm_additional_urls p))
         | None => VNone
         end)
  else if delete then
    (* DELETE *)
    (if bool_decide (is_Some (app_settings !! "is_public")) then
       match permissions !! (app ++ ".main") with
       | None => raise (KeyError (app ++ ".main"))
       | Some main =>
           when_ (bool_decide ("visitors" ∈ perm_allowed main)
                  && (startswith key "unprotected_" || startswith key "skipped_"))
                 (user_permission_update (app ++ ".main") None (Some "visitors") None)
       end
     else ret tt) ;;
    match permission with
    | Some _ => permission_delete permission_name false
    | None => ret tt
    end ;;
    ret VNone
  else
    (* SET *)
    (if value_is_str value "/" then
       if startswith key "unprotected_" || startswith key "skipped_" then
         permission_url (app ++ ".main") (Some "/") nil false ;;
         user_permission_update (app ++ ".main") (Some "visitors") None None
       else user_permission_update (app ++ ".main") None (Some "visitors") None
     else
       match value with
       | VStr urls =>
           let urls := split "," urls in
           let urls := if endswith key "_regex" then map (fun url => "re:" ++ url) urls
                       else urls in
           match permission with
           | Some p =>
               let current_urls_or_regex :=
                 if endswith key "_regex"
                 then List.filter (fun url => negb (startswith url "re:"))
                                  (perm_additional_urls p)
                 else List.filter (fun url => startswith url "re:") (perm_additional_urls p) in
               let new_urls := (urls ++ current_urls_or_regex)%list in
               permission_url permission_name None nil true ;;
               permission_url permission_name None new_urls false
           | None =>
               permission_create permission_name
                 {| perm_allowed := if startswith key "protected_" then "all_users" :: nil
                                    else "all_users" :: "visitors" :: nil;
                    perm_label := legacy_permission_label E app (first_word key);
                    perm_url := None;
                    perm_additional_urls := urls;
                    perm_show_tile := false;
                    perm_protected := true;
                    perm_auth_header := negb (startswith key "skipped_") |}
           end
       | _ => raise AttributeError
       end) ;;
    ret VNone.

(** [app_setting(app, key, value=None, delete=False)]; the result is the
    value returned, [VNone] for [None]. *)
Definition app_setting (app key : string) (value : pyobj) (delete : bool) : M pyobj :=
  app_settings <- _get_app_settings app ;;
  if is_legacy_permission_setting key then
    legacy_permission_setting app key value delete app_settings
  else if is_None value && negb delete then
    (* GET *)
    ret (default VNone (app_settings !! key))
  else
    app_settings <-
      (if delete then ret (base.delete key app_settings)
       else
         if bool_decide (key ∈ "redirected_urls" :: "redirected_regex" :: nil) then
           match value with
           | VStr text => ret (<[key := yaml_safe_load E text]> app_settings)
           | _ => raise AttributeError
           end
         else ret (<[key := value]> app_settings)) ;;
    _set_app_settings app app_settings ;;
    ret VNone.
End store.

End Sys.

(** ** Regular expressions

    The patterns of the [re] module that [APP_REPO_URL] is made of, with
    their languages; the matcher decides membership by derivatives, which
    is what a search for a match of an anchored pattern amounts to. *)

Module Regex.

Inductive re : Type :=
| Void
| Eps
| Class (p : ascii -> bool)
| Cat (r1 r2 : re)
| Alt (r1 r2 : re)
| Star (r : re).

(** The text [s] itself. *)
Fixpoint Lit (s : string) : re :=
  match s with
  | EmptyString => Eps
  | String c s' => Cat (Class (Ascii.eqb c)) (Lit s')
  end.

(** [r?] and [r+] *)
Definition Opt (r : re) : re := Alt r Eps.
Definition Plus (r : re) : re := Cat r (Star r).

(** [$]: the end of the text, or just before a final line feed. *)
Definition End : re := Opt (Class (Ascii.eqb InstanceId.newline)).

Inductive lang : re -> string -> Prop :=
| lang_eps : lang Eps EmptyString
| lang_class p c : p c = true -> lang (Class p) (String c EmptyString)
| lang_cat r1 r2 s1 s2 : lang r1 s1 -> lang r2 s2 -> lang (Cat r1 r2) (s1 ++ s2)
| lang_alt_l r1 r2 s : lang r1 s -> lang (Alt r1 r2) s
| lang_alt_r r1 r2 s : lang r2 s -> lang (Alt r1 r2) s
| lang_star_nil r : lang (Star r) EmptyString
| lang_star_cons r s1 s2 : lang r s1 -> lang (Star r) s2 -> lang (Star r) (s1 ++ s2).

Fixpoint nullable (r : re) : bool :=
  match r with
  | Void => false
  | Eps => true
  | Class _ => false
  | Cat r1 r2 => nullable r1 && nullable r2
  | Alt r1 r2 => nullable r1 || nullable r2
  | Star _ => true
  end.

(** Concatenation and alternative, with the empty language taken out. *)
Definition cat (r1 r2 : re) : re :=
  match r1, r2 with
  | Void, _ => Void
  | _, Void => Void
  | Eps, _ => r2
  | _, _ => Cat r1 r2
  end.

Definition alt (r1 r2 : re) : re :=
  match r1, r2 with
  | Void, _ => r2
  | _, Void => r1
  | _, _ => Alt r1 r2
  end.

(** What is left of [r] once the character [c] is read. *)
Fixpoint deriv (c : ascii) (r : re) : re :=
  match r with
  | Void => Void
  | Eps => Void
  | Class p => if p c then Eps else Void
  | Cat r1 r2 =>
      alt (cat (deriv c r1) r2) (if nullable r1 then deriv c r2 else Void)
  | Alt r1 r2 => alt (deriv c r1) (deriv c r2)
  | Star r1 => cat (deriv c r1) (Star r1)
  end.

Fixpoint matches (r : re) (s : string) : bool :=
  match s with
  | EmptyString => nullable r
  | String c s' => matches (deriv c r) s'
  end.

End Regex.

(** ** Sources of applications

    [_is_app_repo_url], [_app_quality] and the confirmation asked by
    [app_install]. *)

Module Sources.
Import PyStr PyText Regex Sys.
Local Open Scope M_scope.

(** The class [[a-zA-Z0-9-_.]]: after the range [0-9] the hyphen is a
    literal. *)
Definition repo_char (c : ascii) : bool :=
  is_alpha c || is_digit c || Ascii.eqb c "-" || Ascii.eqb c "_" || Ascii.eqb c ".".

(** The class [[a-zA-Z0-9-_./]] *)
Definition repo_path_char (c : ascii) : bool := repo_char c || Ascii.eqb c "/".

(** The pattern [APP_REPO_URL]. *)
Definition APP_REPO_URL : re :=
  Cat (Lit "https://")
  (Cat (Plus (Class repo_char))
  (Cat (Lit "/")
  (Cat (Plus (Class repo_path_char))
  (Cat (Lit "/")
  (Cat (Plus (Class repo_char))
  (Cat (Lit "_ynh")
  (Cat (Opt (Cat (Opt (Lit "/"))
            (Cat (Opt (Lit "-/"))
            (Cat (Lit "tree/") (Plus (Class repo_char))))))
  (Cat (Opt (Lit ".git"))
  (Cat (Opt (Lit "/")) End))))))))).

Definition _is_app_repo_url (string_ : string) : bool :=
  let string_ := strip string_ in
  if contains "@" string_ then true
  else matches APP_REPO_URL string_.

(** [isinstance(level, int)], with the integer: a boolean is an integer. *)
Definition level_as_int (level : pyobj) : option Z :=
  match level with
  | VInt l => Some l
  | VBool b => Some (if b then 1 else 0)
  | _ => None
  end.

(** The branch of [_app_quality] for a name of the catalog. *)
Definition quality_of_entry (entry : catalog_entry) : string :=
  let state := default "notworking" (cat_state entry) in
  if bool_decide (state ∈ "working" :: "validated" :: nil) then
    match level_as_int (cat_level entry) with
    | Some level =>
        if 5 <=? level then "success"
        else if 0 <? level then "warning"
        else "danger"
    | None => "danger"
    end
  else "danger".

Definition is_http_url (src : string) : bool :=
  contains "http://" src || contains "https://" src.

Definition not_a_valid_app_url (src : string) : event :=
  EvLog "error"
    (src ++ " is not a valid app url: app url are expected to look like https://domain.tld/path/to/repo_ynh")
    nil.

Section sources.
Variable E : externals.
(** [os.path.exists] *)
Variable path_exists : machine -> string -> bool.
(** [Moulinette.interface.type == "api"] and [Moulinette.prompt], by the
    key of the message shown. *)
Variable interface_is_api : bool.
Variable prompt : string -> string.

Definition _app_quality (src : string) : M string :=
  let raw_app_catalog := apps_catalog E in
  let in_catalog := bool_decide (is_Some (raw_app_catalog !! src)) in
  if in_catalog || _is_app_repo_url src then
    let app_name_to_test :=
      if in_catalog then Some src
      else if is_http_url src
      then Some (replace "_ynh" EmptyString
                   (List.last (split "/" (strip_char "/" src)) EmptyString))
      else None in
    match app_name_to_test with
    | None => ret "thirdparty"
    | Some name =>
        match raw_app_catalog !! name with
        | Some entry => ret (quality_of_entry entry)
        | None => ret "thirdparty"
        end
    end
  else
    m <- get_mach ;;
    if path_exists m src then ret "thirdparty"
    else
      when_ (is_http_url src) (emit (not_a_valid_app_url src)) ;;
      raise (YunohostValidationError "app_unknown").

(** The inner function [confirm_install] of [app_install]. *)
Definition confirm_install (force : bool) (app : string) : M unit :=
  if force || interface_is_api then ret tt
  else
    quality <- _app_quality app ;;
    if String.eqb quality "success" then ret tt
    else if bool_decide (quality ∈ "danger" :: "thirdparty" :: nil) then
      let answer := prompt ("confirm_app_install_" ++ quality) in
      if negb (String.eqb answer "Yes, I understand") then raise (YunohostError "aborting")
      else ret tt
    else
      let answer := prompt ("confirm_app_install_" ++ quality) in
      if negb (String.eqb (upper answer) "Y") then raise (YunohostError "aborting")
      else ret tt.

End sources.

End Sources.

(** ** The application map *)

Module AppMap.
Import PyStr PyText Sys.
Local Open Scope M_scope.

(** *** [app_map] *)

(** The truth value of a text that may be [None]. *)
Definition truthy (o : option string) : bool :=
  match o with
  | Some u => negb (String.eqb u EmptyString)
  | None => false
  end.

(** [[] + ([url] if url else []) + additional_urls] *)
Definition perm_all_urls (i : perm_info) : list string :=
  ((if truthy (pi_url i) then default EmptyString (pi_url i) :: nil else nil)
   ++ pi_additional_urls i)%list.

(** [result[url] = perm_label] *)
Definition register_url (url perm_label app_id : string) (result : gmap string string)
  : gmap string string :=
  <[url := perm_label]> result.

(** The branch [raw] of the innermost loop. *)
Definition register_raw (url perm_label app_id : string)
    (result : gmap string (gmap string Conflicts.app_location))
  : gmap string (gmap string Conflicts.app_location) :=
  let (perm_domain, perm_path) :=
    match split_once "/" url with
    | (perm_domain, Some perm_path) => (perm_domain, "/" ++ perm_path)
    | (_, None) => (url, "/")
    end in
  let result :=
    if bool_decide (is_Some (result !! perm_domain)) then result
    else <[perm_domain := ∅]> result in
  <[perm_domain := <[perm_path := {| Conflicts.loc_id := app_id;
                                      Conflicts.loc_label := perm_label |}]>
                     (default ∅ (result !! perm_domain))]> result.

(** A loop with an accumulator, in the monad. *)
Fixpoint fold_M {A S : Type} (body : S -> A -> M S) (l : list A) (acc : S) : M S :=
  match l with
  | nil => ret acc
  | a :: l' => acc' <- body acc a ;; fold_M body l' acc'
  end.

Section app_map.
Variable user_permission_list_full : list string -> machine -> list (string * perm_info).

Section loops.
Context {R : Type}.
(** What the innermost loop does with an url that is not a regex. *)
Variable register : string -> string -> string -> R -> R.
Variable user : option string.

(** [for url in perm_all_urls] *)
Definition map_urls (app_id : string) (perm_info_ : perm_info) (result : R) : R :=
  fold_left (fun result url =>
               if startswith url "re:" then result
               else register url (pi_label perm_info_) app_id result)
            (perm_all_urls perm_info_) result.

(** [for perm_name, perm_info in this_app_perms.items()] *)
Definition map_permissions (permissions : list (string * perm_info)) (app_id : string)
    (result : R) : R :=
  let this_app_perms :=
    List.filter (fun pi : string * perm_info =>
                   startswith (fst pi) (app_id ++ ".")
                   && (truthy (pi_url (snd pi))
                       || match pi_additional_urls (snd pi) with nil => false | _ => true end))
                permissions in
  fold_left (fun result (pi : string * perm_info) =>
               if truthy user
                  && negb (bool_decide (default EmptyString user
                                          ∈ pi_corresponding_users (snd pi)))
               then result
               else map_urls app_id (snd pi) result)
            this_app_perms result.

(** The body of [for app_id in apps]. *)
Definition map_app (permissions : list (string * perm_info)) (result : R) (app_id : string)
  : M R :=
  app_settings <- _get_app_settings app_id ;;
  if bool_decide (app_settings = ∅) then ret result
  else if negb (bool_decide (is_Some (app_settings !! "domain"))) then ret result
  else if negb (bool_decide (is_Some (app_settings !! "path"))) then ret result
  else if bool_decide (is_Some (app_settings !! "no_sso")) then ret result
  else
    let mapped := ret (map_permissions permissions app_id result) in
    if truthy user then
      match dict_get (app_id ++ ".main") permissions with
      | None =>
          emit (EvLog "warning"
                  ("Uhoh, no main permission was found for app " ++ app_id
                   ++ " ... sounds like an app was only partially removed due to another bug :/")
                  nil) ;;
          ret result
      | Some main_perm =>
          if negb (bool_decide (default EmptyString user ∈ pi_corresponding_users main_perm))
          then ret result
          else mapped
      end
    else mapped.

Definition app_map_loop (app : option string) (init : R) : M R :=
  apps_ <- match app with
           | Some app =>
               installed <- _is_installed app ;;
               if negb installed then raise (YunohostValidationError "app_not_installed")
               else ret (app :: nil)
           | None => _installed_apps
           end ;;
  m <- get_mach ;;
  let permissions := user_permission_list_full apps_ m in
  fold_M (map_app permissions) apps_ init.
End loops.

(** The two shapes of the result of [app_map]. *)
Inductive app_map_result : Type :=
| MapUrls (urls : gmap string string)
| MapRaw (domains : gmap string (gmap string Conflicts.app_location)).

Definition app_map (app : option string) (raw : bool) (user : option string)
  : M app_map_result :=
  if negb raw then
    result <- app_map_loop register_url user app ∅ ;; ret (MapUrls result)
  else
    result <- app_map_loop register_raw user app ∅ ;; ret (MapRaw result).
End app_map.

End AppMap.

(** ** Lifecycle orchestrator *)

Module Lifecycle.
Import PyStr Manifests Sys.
Local Open Scope M_scope.

(** The items of [l] not met before, in the order of their first
    occurrence; [seen] holds those met so far. *)
Fixpoint dedup_first (seen : list string) (l : list string) : list string :=
  match l with
  | nil => nil
  | x :: l' =>
      if bool_decide (x ∈ seen) then dedup_first seen l'
      else x :: dedup_first (x :: seen) l'
  end.

(** The text an exception is reported with. *)
Definition exn_text (e : exn) : string :=
  match e with
  | AssertionError msg | YunohostError msg | OtherError msg => msg
  | KeyError key | YunohostValidationError key => key
  | UnboundLocalError name => name
  | ValueError => "ValueError"
  | AttributeError => "AttributeError"
  | KeyboardInterrupt => "KeyboardInterrupt"
  | IOError => "IOError"
  | TypeError => "TypeError"
  end.

(** [is_true(arg)] *)
Definition is_true (arg : pyobj) : bool :=
  match arg with
  | VBool b => b
  | VStr s => existsb (String.eqb (lower s)) ("yes" :: "true" :: "on" :: nil)
  | VNone => false
  | VInt z => negb (z =? 0)
  | VList l => match l with nil => false | _ => true end
  | VDict d => match d with nil => false | _ => true end
  end.

Section lifecycle.
Variable E : externals.

(** [_get_manifest_of_app(path)], on the package files found at [path]
    ([None] when the directory is missing). *)
Definition _get_manifest_of_app (files : option package) : result manifest :=
  let read :=
    match files ≫= pkg_manifest with
    | Some (ManifestToml manifest_toml install) =>
        let install_arguments :=
          map (fun nv : string * question => <["name" := VStr (fst nv)]> (snd nv)) install in
        match m_arguments manifest_toml with
        | None => Raise (KeyError "arguments")
        | Some arguments =>
            Ok (set_m_arguments manifest_toml
                  (Some (dict_set "install" install_arguments arguments)))
        end
    | Some (ManifestJson manifest) => Ok manifest
    | None =>
        Raise (YunohostError "There doesn't seem to be any manifest file ... It looks like an app was not correctly installed/removed.")
    end in
  match read with
  | Raise e => Raise e
  | Ok manifest =>
      match _set_default_ask_questions (m18n_n E) (default nil (m_arguments manifest)) with
      | Raise e => Raise e
      | Ok arguments => Ok (set_m_arguments manifest (Some arguments))
      end
  end.

Definition service_status (h : host_state) (s : string) : string :=
  default "unknown" (services h !! s).

Definition replace_alias (service : string) : string :=
  if bool_decide (service ∈ "php-fpm" :: "php5-fpm" :: "php7.0-fpm" :: nil)
  then "php7.3-fpm" else service.

(** The bounded wait of the health check: at most [n] sleeps while some
    service is reloading. *)
Fixpoint wait_while_reloading (n : nat) (services_ : list string) (h : host_state)
  : host_state :=
  match n with
  | O => h
  | S n' =>
      if negb (existsb (fun s => String.eqb (service_status h s) "reloading") services_)
      then h
      else wait_while_reloading n' services_ (time_sleep E h)
  end.

(** The services that [_assert_system_is_sane_for_app] looks at. *)
Definition services_to_check (manifest : manifest) : list string :=
  let services_ := map replace_alias (m_services manifest) in
  let service_filter := "nginx" :: "php7.3-fpm" :: "mysql" :: "postfix" :: nil in
  let services_ := List.filter (fun s => bool_decide (s ∈ service_filter)) services_ in
  let services_ := if bool_decide ("nginx" ∈ services_) then services_
                   else "nginx" :: services_ in
  if bool_decide ("fail2ban" ∈ services_) then services_
  else (services_ ++ "fail2ban" :: nil)%list.

(** The check itself, on the machine: it waits, then looks at the
    services and at the package manager. *)
Definition health_check (manifest : manifest) (when : string) (m : machine)
  : machine * result unit :=
  let services_ := services_to_check manifest in
  let h := wait_while_reloading 16 services_ (host m) in
  let faulty_services :=
    List.filter (fun s => negb (String.eqb (service_status h s) "running"))
                (dedup_first nil services_) in
  (set_host (fun _ => h) m,
   match faulty_services with
   | _ :: _ =>
       if String.eqb when "pre" then
         Raise (YunohostValidationError
                  "app_action_cannot_be_ran_because_required_services_down")
       else if String.eqb when "post" then Raise (YunohostError "app_action_broke_system")
       else Ok tt
   | nil =>
       if dpkg_broken h then
         if String.eqb when "pre" then Raise (YunohostValidationError "dpkg_is_broken")
         else if String.eqb when "post" then Raise (YunohostError "this_action_broke_dpkg")
         else Ok tt
       else Ok tt
   end).

Definition _assert_system_is_sane_for_app (manifest : manifest) (when : string) : M unit :=
  emit (EvSanityCheck when) ;;
  call (health_check manifest when).

Definition _check_manifest_requirements (manifest : manifest) : result unit :=
  let packaging_format := default 0 (m_packaging_format manifest) in
  if negb (bool_decide (packaging_format ∈ 0 :: 1 :: nil))
  then Raise (YunohostValidationError "app_packaging_format_not_supported")
  else
    match List.find (fun r : string * string =>
                       negb (meets_version_specifier E (fst r) (snd r)))
                    (m_requirements manifest) with
    | Some _ => Raise (YunohostValidationError "app_requirements_unmeet")
    | None => Ok tt
    end.

(** [_make_environment_for_app_script], given the records [records] of
    the settings root; [args] holds the answers as texts. *)
Definition environment_for_app_script (records : gmap string app_dir) (app : string)
    (args : list (string * string)) (workdir : option string)
  : result (gmap string string) :=
  match _get_manifest_of_app (dir_files <$> records !! app) with
  | Raise e => Raise e
  | Ok manifest =>
      match InstanceId._parse_app_instance_name app with
      | Raise e => Raise e
      | Ok (app_id, app_instance_nb) =>
          let env_dict : gmap string string :=
            <["YNH_APP_MANIFEST_VERSION" := default "?" (m_version manifest)]>
            (<["YNH_APP_INSTANCE_NUMBER" := str app_instance_nb]>
            (<["YNH_APP_INSTANCE_NAME" := app]>
            (<["YNH_APP_ID" := app_id]> ∅))) in
          let env_dict := match workdir with
                          | Some w => if String.eqb w EmptyString then env_dict
                                      else <["YNH_APP_BASEDIR" := w]> env_dict
                          | None => env_dict
                          end in
          Ok (fold_left (fun env (kv : string * string) =>
                           <["YNH_APP_ARG_" ++ upper (fst kv) := snd kv]> env)
                        args env_dict)
      end
  end.

Definition _make_environment_for_app_script (app : string) (args : list (string * string))
    (workdir : option string) : M (gmap string string) :=
  m <- get_mach ;;
  of_result (environment_for_app_script (apps m) app args workdir).

(** [_extract_app(src)]: the fetched package lands in a scratch directory. *)
Definition _extract_app (src : string) : M (manifest * string) :=
  m <- get_mach ;;
  fetched <- of_result (fetch_package E src m) ;;
  let '(manifest, extracted_app_folder, files) := fetched in
  modify_mach (set_tmp_dirs (insert extracted_app_folder files)) ;;
  ret (manifest, extracted_app_folder).

(** [shutil.rmtree] of a scratch directory and of a record. *)
Definition rmtree_tmp (folder : string) : M unit :=
  m <- get_mach ;;
  if bool_decide (is_Some (tmp_dirs m !! folder))
  then modify_mach (set_tmp_dirs (delete folder)) else raise IOError.

Definition rmtree_app (app : string) : M unit :=
  m <- get_mach ;;
  if bool_decide (is_Some (apps m !! app))
  then modify_mach (set_apps (delete app)) else raise IOError.

Definition now : M Z := m <- get_mach ;; ret (clock (host m)).

(** The drift check around a script: the files changed since [before]
    are reported, nothing more. *)
Definition report_manually_modified_files (before : list string) : M unit :=
  m <- get_mach ;;
  let by_app := List.filter (fun f => negb (bool_decide (f ∈ before)))
                            (manually_modified (host m)) in
  match by_app with
  | nil => ret tt
  | _ => emit (EvLog "error" "manually_modified_files_by_app" by_app)
  end.

(** *** Location checks of the install *)

Definition count_questions (type_ : string) (raw_questions : list question) : nat :=
  length (List.filter (fun q : question =>
                         match q !! "type" with
                         | Some t => value_is_str t type_
                         | None => false
                         end) raw_questions).

Definition _guess_webapp_path_requirement (files : option package) : result string :=
  match _get_manifest_of_app files with
  | Raise e => Raise e
  | Ok manifest =>
      let raw_questions := default nil (m_arguments manifest ≫= dict_get "install") in
      let domain_questions := count_questions "domain" raw_questions in
      let path_questions := count_questions "path" raw_questions in
      if (domain_questions =? 0)%nat && (path_questions =? 0)%nat then Ok EmptyString
      else if (domain_questions =? 1)%nat && (path_questions =? 1)%nat
      then Ok "domain_and_path"
      else if (domain_questions =? 1)%nat && (path_questions =? 0)%nat
              && install_script_registers_root E (default empty_package files)
      then Ok "full_domain"
      else Ok "?"
  end.

Definition _assert_no_conflicting_apps (domain path : option string)
    (ignore_app : option string) (full_domain : bool) : M unit :=
  match domain, path with
  | Some domain, Some path =>
      m <- get_mach ;;
      if negb (domain_exists E m (DomainQuestion_normalize E domain))
      then raise (YunohostValidationError "domain_name_unknown")
      else
        (* [apps_map = app_map(raw=True)]: every record is read, and a
           stored path in old form is rewritten on the way *)
        mapped <- AppMap.app_map (full_permission_list E) None true None ;;
        match mapped with
        | AppMap.MapRaw apps_map =>
            of_result (Conflicts._assert_no_conflicting_apps
                         (DomainQuestion_normalize E) (PathQuestion_normalize E)
                         (domain_exists E m) apps_map domain path ignore_app full_domain)
        | AppMap.MapUrls _ => raise AttributeError
        end
  | _, _ => raise AttributeError
  end.

Definition _validate_webpath_requirement (args : list (string * string))
    (path_requirement : string) (ignore_app : option string) : M unit :=
  let domain := dict_get "domain" args in
  let path := dict_get "path" args in
  if String.eqb path_requirement "domain_and_path"
  then _assert_no_conflicting_apps domain path ignore_app false
  else if String.eqb path_requirement "full_domain"
  then _assert_no_conflicting_apps domain (Some "/") ignore_app true
  else ret tt.

(** *** Install *)

(** What [app_install] has at hand when it calls the install script. *)
Record install_context : Type := {
  ic_manifest : manifest;
  ic_extracted_app_folder : string;
  ic_app_id : string;
  ic_app_instance_name : string;
  ic_env_dict : gmap string string;
  ic_modified_before : list string;
}.

(** [app_install] up to the call of the install script. *)
Definition install_prepare (app : string) (label : option string) (args : option string)
    (force : bool) : M install_context :=
  m <- get_mach ;;
  if free_space_root (host m) <=? 512 * 1000 * 1000
  then raise (YunohostValidationError "disk_space_not_sufficient_install")
  else
  Sources.confirm_install E (os_path_exists E) (Moulinette_interface_is_api E)
    (Moulinette_prompt E) force app ;;
  extracted <- _extract_app app ;;
  let (manifest, extracted_app_folder) := extracted : manifest * string in
  match m_id manifest with
  | None => raise (YunohostValidationError "app_id_invalid")
  | Some app_id =>
  if contains "__" app_id || contains "." app_id
  then raise (YunohostValidationError "app_id_invalid")
  else
  label <- match label with
           | Some l => if String.eqb l EmptyString
                       then match m_name manifest with
                            | Some n => ret n
                            | None => raise (KeyError "name")
                            end
                       else ret l
           | None => match m_name manifest with
                     | Some n => ret n
                     | None => raise (KeyError "name")
                     end
           end ;;
  of_result (_check_manifest_requirements manifest) ;;
  _assert_system_is_sane_for_app manifest "pre" ;;
  installed <- _installed_apps ;;
  instance_number <-
    match InstanceId._next_instance_number_for_app (S (length installed)) installed app_id with
    | Some r => of_result r
    | None => raise (OtherError "instance number search did not end")
    end ;;
  app_instance_name <-
    (if 1 <? instance_number then
       if negb match m_multi_instance manifest with
               | Some v => is_true v
               | None => false
               end
       then raise (YunohostValidationError "app_already_installed")
       else ret (app_id ++ "__" ++ str instance_number)
     else ret app_id) ;;
  m <- get_mach ;;
  let raw_questions := default nil (m_arguments manifest ≫= dict_get "install") in
  questions <- of_result (ask_questions_and_parse_answers E raw_questions args m) ;;
  let args :=
    omap (fun q : string * string * option string =>
            match snd q with
            | Some v => Some (fst (fst q), v)
            | None => None
            end) questions in
  path_requirement <-
    of_result (_guess_webapp_path_requirement (tmp_dirs m !! extracted_app_folder)) ;;
  _validate_webpath_requirement args path_requirement None ;;
  m <- get_mach ;;
  let manually_modified_files_before_install := manually_modified (host m) in
  emit (EvLog "info" "app_start_install" (app_id :: nil)) ;;
  (* the directory of the record, emptied if it was there *)
  modify_mach (set_apps (insert app_instance_name
                 {| settings_yml := None; dir_files := empty_package |})) ;;
  _set_app_settings app_instance_name
    (<["current_revision" := VStr (default "?" (m_revision manifest))]>
     (<["install_time" := VInt (clock (host m))]>
     (<["id" := VStr app_instance_name]> ∅))) ;;
  (* the package files named by [APP_FILES_TO_COPY] *)
  modify_mach (fun m =>
    match tmp_dirs m !! extracted_app_folder, apps m !! app_instance_name with
    | Some files, Some d =>
        set_apps (insert app_instance_name
                    {| settings_yml := settings_yml d; dir_files := files |}) m
    | _, _ => m
    end) ;;
  permission_create (app_instance_name ++ ".main")
    {| perm_allowed := "all_users" :: nil; perm_label := label; perm_url := None;
       perm_additional_urls := nil; perm_show_tile := false; perm_protected := false;
       perm_auth_header := true |} ;;
  env_dict <- _make_environment_for_app_script app_instance_name args
                (Some extracted_app_folder) ;;
  ret {| ic_manifest := manifest; ic_extracted_app_folder := extracted_app_folder;
         ic_app_id := app_id; ic_app_instance_name := app_instance_name;
         ic_env_dict := env_dict;
         ic_modified_before := manually_modified_files_before_install |}
  end.

(** [raise YunohostError(failure_message_with_debug_instructions)]: the
    name is unbound when the script runner itself raised. *)
Definition raise_failure {A : Type} (failure_message : option string) : M A :=
  match failure_message with
  | Some msg => raise (YunohostError msg)
  | None => raise (UnboundLocalError "failure_message_with_debug_instructions")
  end.

(** The removal after a failed install (lines 918 to 976). *)
Definition remove_after_failed_install (c : install_context)
    (failure_message : option string) : M unit :=
  let app_instance_name := ic_app_instance_name c in
  let extracted_app_folder := ic_extracted_app_folder c in
  emit (EvLog "warning" "app_remove_after_failed_install" nil) ;;
  env_dict_remove <-
    _make_environment_for_app_script app_instance_name nil (Some extracted_app_folder) ;;
  emit (EvScript "remove" app_instance_name) ;;
  removed <- attempt (call (hook_exec E (extracted_app_folder ++ "/scripts/remove")
                              (app_instance_name :: nil) env_dict_remove)) ;;
  remove_retcode <- match removed with
                    | Ok retcode => ret retcode
                    | Raise e =>
                        emit (EvLog "error" "unexpected_error" (exn_text e :: nil)) ;;
                        ret (-1)
                    end ;;
  permissions <- user_permission_list nil ;;
  for_each (map fst (map_to_list permissions)) (fun permission_name =>
    when_ (startswith permission_name (app_instance_name ++ "."))
          (permission_delete permission_name true)) ;;
  (if negb (remove_retcode =? 0) then
     emit (EvLog "warning" "app_not_properly_removed" (app_instance_name :: nil))
   else
     checked <- attempt (_assert_system_is_sane_for_app (ic_manifest c) "post") ;;
     match checked with
     | Raise e => if is_Exception e then ret tt else raise e
     | Ok _ => ret tt
     end) ;;
  rmtree_app app_instance_name ;;
  rmtree_tmp extracted_app_folder ;;
  permission_sync_to_user ;;
  raise_failure failure_message.

(** [app_install] from the call of the install script on. *)
Definition install_execute (c : install_context) (no_remove_on_failure : bool) : M unit :=
  let app_instance_name := ic_app_instance_name c in
  let extracted_app_folder := ic_extracted_app_folder c in
  emit (EvScript "install" app_instance_name) ;;
  ran <- attempt (call (hook_exec_with_script_debug_if_failure E
                          (extracted_app_folder ++ "/scripts/install") (ic_env_dict c))) ;;
  let install_failed := match ran with Ok (failed, _) => failed | Raise _ => true end in
  let failure_message := match ran with Ok (_, msg) => Some msg | Raise _ => None end in
  (* finally *)
  checked <-
    (if negb install_failed then
       checked <- attempt (_assert_system_is_sane_for_app (ic_manifest c) "post") ;;
       match checked with
       | Ok _ => ret (false, failure_message)
       | Raise e =>
           if is_Exception e then
             emit (EvLog "error" "app_install_failed" (ic_app_id c :: exn_text e :: nil)) ;;
             ret (true, Some (exn_text e))
           else raise e
       end
     else ret (false, failure_message)) ;;
  let (broke_the_system, failure_message) := checked : bool * option string in
  report_manually_modified_files (ic_modified_before c) ;;
  (if install_failed || broke_the_system then
     if no_remove_on_failure then
       raise (YunohostError ("The installation of " ++ ic_app_id c
         ++ " failed, but was not cleaned up as requested by --no-remove-on-failure."))
     else remove_after_failed_install c failure_message
   else ret tt) ;;
  of_result ran ;;
  (* after the [finally] block *)
  m <- get_mach ;;
  (if bool_decide (is_Some (tmp_dirs m !! extracted_app_folder)) then ret tt
   else raise IOError) ;;
  rmtree_tmp extracted_app_folder ;;
  emit (EvLog "success" "installation_complete" nil) ;;
  emit (EvHook "post_app_install") ;;
  call (hook_callback E "post_app_install" (ic_env_dict c)).

Definition app_install (app : string) (label : option string) (args : option string)
    (no_remove_on_failure force : bool) : M unit :=
  c <- install_prepare app label args force ;;
  install_execute c no_remove_on_failure.

(** *** Upgrade *)

(** The entries of [app_info(app, full=True)] that [app_upgrade] reads. *)
Record app_infos : Type := {
  ai_version : string;
  ai_manifest : manifest;
  ai_upgradable : string;
}.

Definition version_lt (a b : string) : bool :=
  match version_compare E a b with Lt => true | _ => false end.

Definition _app_upgradable (version : string) (from_catalog : option catalog_entry)
    (settings : gmap string pyobj) : result string :=
  match from_catalog with
  | None => Ok "url_required"
  | Some app_in_catalog =>
      let level_ok := match cat_level app_in_catalog with
                      | VInt level => 5 <=? level
                      | _ => false
                      end in
      if negb level_ok
         || negb (bool_decide (cat_state app_in_catalog = Some "working"))
      then Ok "bad_quality"
      else
        let version_in_catalog := default "0~ynh0" (cat_manifest_version app_in_catalog) in
        if contains "~ynh" version && contains "~ynh" version_in_catalog then
          if version_lt version version_in_catalog then Ok "yes" else Ok "no"
        else
          match cat_lastUpdate app_in_catalog with
          | None => Ok "url_required"
          | Some lastUpdate =>
              if (lastUpdate =? 0) || negb (cat_git app_in_catalog) then Ok "url_required"
              else
                let local_update_time :=
                  match settings !! "update_time" with
                  | Some t => t
                  | None => default (VInt 0) (settings !! "install_time")
                  end in
                match local_update_time with
                | VInt t => if t <? lastUpdate then Ok "yes" else Ok "no"
                | VBool b => if (if b then 1 else 0) <? lastUpdate then Ok "yes" else Ok "no"
                | _ => Raise TypeError
                end
          end
  end.

Definition app_info (app : string) : M app_infos :=
  _assert_is_installed app ;;
  m <- get_mach ;;
  local_manifest <- of_result (_get_manifest_of_app (dir_files <$> apps m !! app)) ;;
  let permissions := full_permission_list E (app :: nil) m in
  settings <- _get_app_settings app ;;
  match m_description local_manifest with
  | None => raise (KeyError "description")
  | Some _ =>
  match m_name local_manifest with
  | None => raise (KeyError "name")
  | Some _ =>
      let version := default "-" (m_version local_manifest) in
      arguments <- of_result (_set_default_ask_questions (m18n_n E)
                                (default nil (m_arguments local_manifest))) ;;
      let manifest := set_m_arguments local_manifest (Some arguments) in
      parsed <- of_result (InstanceId._parse_app_instance_name app) ;;
      let from_catalog := apps_catalog E !! fst parsed in
      upgradable <- of_result (_app_upgradable version from_catalog settings) ;;
      let label := pi_label <$> dict_get (app ++ ".main") permissions in
      when_ (negb (AppMap.truthy label))
            (emit (EvLog "warning" ("Failed to get label for app " ++ app ++ " ?") nil)) ;;
      ret {| ai_version := version; ai_manifest := manifest; ai_upgradable := upgradable |}
  end
  end.

(** The argument [file]: nothing, a path, or the dict used by the tests. *)
Inductive file_arg : Type :=
| NoFile
| FilePath (path : string)
| FileDict (sources : gmap string string).

(** What [app_upgrade] has at hand when it calls the upgrade script. *)
Record upgrade_context : Type := {
  uc_manifest : manifest;
  uc_extracted_app_folder : string;
  uc_upgrade_type : Versions.upgrade_type;
  uc_env_dict : gmap string string;
  uc_modified_before : list string;
}.

(** One turn of the loop of [app_upgrade] up to the call of the upgrade
    script; [None] is a [continue]. *)
Definition upgrade_prepare (app_instance_name : string) (url : option string)
    (file : file_arg) (force no_safety_backup : bool) : M (option upgrade_context) :=
  emit (EvLog "info" "app_upgrade_app_name" (app_instance_name :: nil)) ;;
  app_dict <- app_info app_instance_name ;;
  let from_catalog : M (option string) :=
    if String.eqb (ai_upgradable app_dict) "url_required" then
      emit (EvLog "warning" "custom_app_url_required" (app_instance_name :: nil)) ;;
      ret None
    else if String.eqb (ai_upgradable app_dict) "yes" || force then
      match m_id (ai_manifest app_dict) with
      | Some id => ret (Some id)
      | None => raise (KeyError "id")
      end
    else
      emit (EvLog "success" "app_already_up_to_date" (app_instance_name :: nil)) ;;
      ret None in
  let from_url : M (option string) :=
    match url with
    | Some u => if String.eqb u EmptyString then from_catalog else ret (Some u)
    | None => from_catalog
    end in
  new_app_src <-
    match file with
    | FileDict sources =>
        if bool_decide (sources = ∅) then from_url
        else match sources !! app_instance_name with
             | Some src => ret (Some src)
             | None => raise (KeyError app_instance_name)
             end
    | FilePath path => if String.eqb path EmptyString then from_url else ret (Some path)
    | NoFile => from_url
    end ;;
  match new_app_src with
  | None => ret None
  | Some new_app_src =>
      extracted <- _extract_app new_app_src ;;
      let (manifest, extracted_app_folder) := extracted : manifest * string in
      let app_new_version := default "?" (m_version manifest) in
      let app_current_version := ai_version app_dict in
      classified <- of_result (Versions.classify_upgrade (version_compare E)
                                 app_current_version app_new_version force) ;;
      match classified with
      | Versions.AlreadyUpToDate =>
          emit (EvLog "success" "app_already_up_to_date" (app_instance_name :: nil)) ;;
          now_ <- now ;;
          app_setting E app_instance_name "update_time" (VInt now_) false ;;
          app_setting E app_instance_name "current_revision"
            (VStr (default "?" (m_revision manifest))) false ;;
          ret None
      | Versions.RunUpgrade upgrade_type =>
          of_result (_check_manifest_requirements manifest) ;;
          _assert_system_is_sane_for_app manifest "pre" ;;
          env_dict <- _make_environment_for_app_script app_instance_name nil
                        (Some extracted_app_folder) ;;
          let env_dict :=
            <["NO_BACKUP_UPGRADE" := if no_safety_backup then "1" else "0"]>
            (<["YNH_APP_CURRENT_VERSION" := app_current_version]>
            (<["YNH_APP_MANIFEST_VERSION" := app_new_version]>
            (<["YNH_APP_UPGRADE_TYPE" := Versions.upgrade_type_name upgrade_type]>
               env_dict))) in
          m <- get_mach ;;
          ret (Some {| uc_manifest := manifest;
                       uc_extracted_app_folder := extracted_app_folder;
                       uc_upgrade_type := upgrade_type;
                       uc_env_dict := env_dict;
                       uc_modified_before := manually_modified (host m) |})
      end
  end.

(** The same turn from the call of the upgrade script on; [apps] is the
    whole batch and [number] the index of this application in it. *)
Definition upgrade_execute (apps : list string) (number : nat) (app_instance_name : string)
    (c : upgrade_context) : M unit :=
  let extracted_app_folder := uc_extracted_app_folder c in
  emit (EvScript "upgrade" app_instance_name) ;;
  ran <- attempt (call (hook_exec_with_script_debug_if_failure E
                          (extracted_app_folder ++ "/scripts/upgrade") (uc_env_dict c))) ;;
  let upgrade_failed := match ran with Ok (failed, _) => failed | Raise _ => true end in
  let failure_message := match ran with Ok (_, msg) => Some msg | Raise _ => None end in
  (* finally *)
  checked <- attempt (_assert_system_is_sane_for_app (uc_manifest c) "post") ;;
  checked <- match checked with
             | Ok _ => ret (false, failure_message)
             | Raise e =>
                 if is_Exception e then
                   emit (EvLog "error" "app_upgrade_failed"
                               (app_instance_name :: exn_text e :: nil)) ;;
                   ret (true, Some (exn_text e))
                 else raise e
             end ;;
  let (broke_the_system, failure_message) := checked : bool * option string in
  report_manually_modified_files (uc_modified_before c) ;;
  (if upgrade_failed || broke_the_system then
     when_ (match drop (S number) apps with nil => false | _ => true end)
           (emit (EvLog "error" "app_not_upgraded"
                        (app_instance_name :: drop number apps))) ;;
     raise_failure failure_message
   else
     now_ <- now ;;
     app_setting E app_instance_name "update_time" (VInt now_) false ;;
     app_setting E app_instance_name "current_revision"
       (VStr (default "?" (m_revision (uc_manifest c)))) false ;;
     m <- get_mach ;;
     match tmp_dirs m !! extracted_app_folder with
     | None => raise IOError
     | Some files =>
         (* the package files named by [APP_FILES_TO_COPY] are replaced *)
         match Sys.apps m !! app_instance_name with
         | None => raise IOError
         | Some d =>
             modify_mach (set_apps (insert app_instance_name
                            {| settings_yml := settings_yml d; dir_files := files |}))
         end ;;
         rmtree_tmp extracted_app_folder ;;
         emit (EvLog "success" "app_upgraded" (app_instance_name :: nil)) ;;
         emit (EvHook "post_app_upgrade") ;;
         call (hook_callback E "post_app_upgrade" (uc_env_dict c))
     end) ;;
  of_result ran ;;
  ret tt.

(** The body of the loop [for number, app_instance_name in enumerate(apps)]. *)
Definition upgrade_one (apps : list string) (url : option string) (file : file_arg)
    (force no_safety_backup : bool) (number : nat) (app_instance_name : string) : M unit :=
  prepared <- upgrade_prepare app_instance_name url file force no_safety_backup ;;
  match prepared with
  | None => ret tt
  | Some c => upgrade_execute apps number app_instance_name c
  end.

(** The loop itself, for the applications [todo] left from index [number]. *)
Fixpoint upgrade_loop (apps : list string) (url : option string) (file : file_arg)
    (force no_safety_backup : bool) (number : nat) (todo : list string) : M unit :=
  match todo with
  | nil => ret tt
  | app_instance_name :: todo' =>
      upgrade_one apps url file force no_safety_backup number app_instance_name ;;
      upgrade_loop apps url file force no_safety_backup (S number) todo'
  end.

Definition file_is_given (file : file_arg) : bool :=
  match file with
  | NoFile => false
  | FilePath path => negb (String.eqb path EmptyString)
  | FileDict sources => negb (bool_decide (sources = ∅))
  end.

Definition app_upgrade (app : list string) (url : option string) (file : file_arg)
    (force no_safety_backup : bool) : M unit :=
  m <- get_mach ;;
  if free_space_root (host m) <=? 512 * 1000 * 1000
  then raise (YunohostValidationError "disk_space_not_sufficient_update")
  else
    apps_ <- match app with
             | nil =>
                 if negb (match url with
                          | Some u => negb (String.eqb u EmptyString)
                          | None => false
                          end) && negb (file_is_given file)
                 then _installed_apps else ret nil
             | _ => ret app
             end ;;
    let apps_ := dedup_first nil apps_ in
    for_each apps_ _assert_is_installed ;;
    match apps_ with
    | nil => raise (YunohostValidationError "apps_already_up_to_date")
    | _ =>
        when_ (1 <? length apps_)%nat (emit (EvLog "info" "app_upgrade_several_apps" apps_)) ;;
        upgrade_loop apps_ url file force no_safety_backup O apps_ ;;
        permission_sync_to_user ;;
        emit (EvLog "success" "upgrade_complete" nil)
    end.

End lifecycle.

End Lifecycle.

(** ** Reasoning about runs *)

Module Logic.
Import PyStr Sys Lifecycle.
Local Open Scope M_scope.

(** [frames R m]: whatever the state, [m] leaves a machine related by [R]
    to the one it started from. *)
Definition frames {A : Type} (R : machine -> machine -> Prop) (m : M A) : Prop :=
  forall s, R (mach s) (mach (fst (m s))).

(** [wp m Q s]: the run of [m] from [s] ends in a state and a result that
    satisfy [Q]. *)
Definition wp {A : Type} (m : M A) (Q : state -> result A -> Prop) (s : state) : Prop :=
  Q (fst (m s)) (snd (m s)).

(** [emits P m]: a run of [m] only adds events to the trace, and all of
    them satisfy [P]. *)
Definition emits {A : Type} (P : event -> Prop) (m : M A) : Prop :=
  forall s, exists new, trace (fst (m s)) = (trace s ++ new)%list /\ Forall P new.


Definition same_apps (m m' : machine) : Prop := apps m = apps m'.


(** The parts of the machine that the orchestrator owns are the same. *)
Definition same_store (m m' : machine) : Prop :=
  apps m = apps m' /\ perms m = perms m' /\ tmp_dirs m = tmp_dirs m'.

(** The record of [app] is the same. *)
Definition same_record (app : string) (m m' : machine) : Prop :=
  apps m !! app = apps m' !! app.

Definition any_event (e : event) : Prop := True.

Definition not_a_check (e : event) : Prop := forall when, e <> EvSanityCheck when.

(** *** Settings *)

(** What reading the settings does to a machine: the stored path is put
    in normal form when it is not. *)
Definition read_repair (app : string) (m : machine) : machine :=
  match apps m !! app with
  | Some d =>
      match settings_yml d with
      | Some st =>
          match path_to_rewrite st with
          | Ok (Some p) =>
              set_apps (insert app {| settings_yml := Some (<["path" := VStr p]> st);
                                      dir_files := dir_files d |}) m
          | _ => m
          end
      | None => m
      end
  | None => m
  end.

(** What reading its settings does to a record. *)
Definition repair_record (d : app_dir) : app_dir :=
  match settings_yml d with
  | Some st =>
      match path_to_rewrite st with
      | Ok (Some p) => {| settings_yml := Some (<["path" := VStr p]> st);
                          dir_files := dir_files d |}
      | _ => d
      end
  | None => d
  end.

(** From [m] to [m'] no record was made or deleted, and none was changed
    but by the rewrite of its stored path. *)
Definition records_repaired (m m' : machine) : Prop :=
  forall b, apps m' !! b = apps m !! b \/ apps m' !! b = repair_record <$> apps m !! b.

(** From [m] to [m'] nothing was changed but stored paths, put in normal
    form. *)
Definition only_repaired (m m' : machine) : Prop :=
  records_repaired m m'
  /\ perms m' = perms m /\ tmp_dirs m' = tmp_dirs m /\ host m' = host m.

Definition repaired_settings (st : gmap string pyobj) : gmap string pyobj :=
  match path_to_rewrite st with
  | Ok (Some p) => <["path" := VStr p]> st
  | _ => st
  end.

(** The settings handed back once the [id] of the record is checked. *)
Definition checked_settings (app : string) (st : gmap string pyobj) : gmap string pyobj :=
  match st !! "id" with
  | Some v => if value_is_str v app then st else ∅
  | None => ∅
  end.

(** *** Install *)

(** No permission of [app] is left. *)
Definition no_permission_of (app : string) (m : machine) : Prop :=
  forall p, startswith p (app ++ ".") = true -> perms m !! p = None.

(** The state a failed install is left in once it is rolled back. *)
Definition rolled_back (app : string) (s : state) (r : result unit) : Prop :=
  (exists e, r = Raise e) /\ apps (mach s) !! app = None /\ no_permission_of app (mach s).

(** [install_failed] and [upgrade_failed], as the [finally] blocks see
    them. *)
Definition script_failed (ran : result (bool * string)) : bool :=
  match ran with
  | Ok (failed, _) => failed
  | Raise _ => true
  end.

(** The operation breaks on the machine [m1] left by its script: the
    script failed, or the health check that follows fails. *)
Definition breaks (E : externals) (manifest : manifest) (m1 : machine)
    (ran : result (bool * string)) : Prop :=
  script_failed ran = true
  \/ exists e, snd (health_check E manifest "post" m1) = Raise e.

(** How a broken install ends: with an error, and with the record and
    the permissions of the instance gone, or, under the debug flag, with
    records, permissions and scratch directories as the script left them. *)
Definition broken_install_outcome (c : install_context) (no_remove_on_failure : bool)
    (m1 : machine) (s' : state) (r : result unit) : Prop :=
  (exists e, r = Raise e)
  /\ if no_remove_on_failure then same_store m1 (mach s')
     else apps (mach s') !! ic_app_instance_name c = None
          /\ no_permission_of (ic_app_instance_name c) (mach s').



(** *** Upgrade *)

(** The scripts of an application leave the records of the others alone:
    a script or a hook called with the environment of one instance
    changes the record of no other. *)
Definition scripts_confined (E : externals) : Prop :=
  (forall path env m b,
      env !! "YNH_APP_INSTANCE_NAME" <> Some b ->
      same_record b m (fst (hook_exec_with_script_debug_if_failure E path env m)))
  /\ (forall name env m b,
         env !! "YNH_APP_INSTANCE_NAME" <> Some b ->
         same_record b m (fst (hook_callback E name env m))).

(** The line logged when the loop of [app_upgrade] turns to [app]. *)
Definition upgrade_started (app : string) : event :=
  EvLog "info" "app_upgrade_app_name" (app :: nil).

(** The applications the loop turned to, in the order of the trace. *)
Fixpoint started (tr : list event) : list string :=
  match tr with
  | nil => nil
  | EvLog level key (app :: nil) :: tr' =>
      if String.eqb level "info" && String.eqb key "app_upgrade_app_name"
      then app :: started tr' else started tr'
  | _ :: tr' => started tr'
  end.

(** An event of the turn of [app], after its first line: no other turn
    begins, and no script of another application is called. *)
Definition turn_event (app : string) (ev : event) : Prop :=
  (forall args, ev <> EvLog "info" "app_upgrade_app_name" args)
  /\ (forall script b, ev = EvScript script b -> b = app).

(** The state in which the loop of [app_upgrade] starts on the batch
    [apps_]. *)
Definition batch_start (apps_ : list string) (m : machine) (t : list event) : state :=
  {| mach := m;
     trace := if (1 <? length apps_)%nat
              then (t ++ EvLog "info" "app_upgrade_several_apps" apps_ :: nil)%list
              else t |}.

(** The end of a turn that failed, for the events logged from [t0] on. *)
Definition failed_turn (apps_ : list string) (number : nat) (a : string)
    (t0 : list event) (s' : state) (r : result unit) : Prop :=
  (exists e, r = Raise e)
  /\ exists tail,
       trace s' = (t0 ++ tail)%list
       /\ (drop (S number) apps_ <> nil ->
           In (EvLog "error" "app_not_upgraded" (a :: drop number apps_)) tail).

End Logic.

(** ** Worked examples *)

Module Examples.
Import PyStr Sys Lifecycle.

(** Collaborators for the worked examples: [script] is the script runner,
    [fetch] the package fetcher. *)
Definition externals_with
    (script : string -> gmap string string -> machine -> machine * result (bool * string))
    (remove : string -> list string -> gmap string string -> machine -> machine * result Z)
    (fetch : string -> machine -> result (manifest * string * package))
  : externals :=
  {| m18n_n := fun key => key;
     yaml_safe_load := VStr;
     legacy_permission_label := fun app kind => app ++ " " ++ kind;
     version_compare := Versions.legacy_version_compare;
     meets_version_specifier := fun _ _ => true;
     time_sleep := fun h => h;
     apps_catalog := ∅;
     hook_exec_with_script_debug_if_failure := script;
     hook_exec := remove;
     hook_callback := fun _ _ m => (m, Ok tt);
     fetch_package := fetch;
     os_path_exists := fun _ _ => false;
     Moulinette_interface_is_api := true;
     Moulinette_prompt := fun _ => EmptyString;
     ask_questions_and_parse_answers := fun _ _ _ => Ok nil;
     install_script_registers_root := fun _ => false;
     full_permission_list := fun _ _ => nil;
     DomainQuestion_normalize := fun d => d;
     PathQuestion_normalize := fun p => p;
     domain_exists := fun _ _ => true |}.

(** A script runner reporting success, a remove script returning 0, and
    no package to fetch. *)
Definition quiet_externals : externals :=
  externals_with (fun _ _ m => (m, Ok (false, EmptyString)))
                 (fun _ _ _ m => (m, Ok 0))
                 (fun _ _ => Raise (YunohostValidationError "app_unknown")).

Definition healthy_host : host_state :=
  {| services := {[ "nginx" := "running"; "fail2ban" := "running" ]};
     dpkg_broken := false;
     free_space_root := 1000 * 1000 * 1000;
     clock := 1700000000;
     manually_modified := nil |}.

Definition main_permission (label : string) : permission :=
  {| perm_allowed := "all_users" :: nil; perm_label := label; perm_url := Some "/";
     perm_additional_urls := nil; perm_show_tile := true; perm_protected := false;
     perm_auth_header := true |}.

(** One application [blog], installed, stored with a path in old form. *)
Definition blog_machine (path : string) : machine :=
  {| apps := {[ "blog" := {| settings_yml :=
                               Some {[ "id" := VStr "blog"; "path" := VStr path ]};
                             dir_files := empty_package |} ]};
     perms := {[ "blog.main" := main_permission "Blog" ]};
     tmp_dirs := ∅;
     host := healthy_host |}.

Definition blog_state (path : string) : state :=
  {| mach := blog_machine path; trace := nil |}.


Definition demo_manifest (version : string) : manifest :=
  {| m_id := Some "demo"; m_name := Some "Demo"; m_version := Some version;
     m_multi_instance := Some (VBool true); m_packaging_format := Some 1;
     m_services := nil; m_requirements := nil;
     m_arguments := Some (("install", nil) :: nil);
     m_revision := Some "r1"; m_description := Some "A demo" |}.

Definition demo_package (version : string) : package :=
  {| pkg_manifest := Some (ManifestJson (demo_manifest version));
     pkg_scripts := "install" :: "remove" :: "upgrade" :: nil;
     pkg_hooks := nil |}.

Definition fetch_demo (version : string) (src : string) (m : machine)
  : result (manifest * string * package) :=
  if String.eqb src "demo"
  then Ok (demo_manifest version, "/var/cache/yunohost/app_tmp_work_dirs/app_demo",
           demo_package version)
  else Raise (YunohostValidationError "app_unknown").

(** The install script fails; the remove script returns [retcode]. *)
Definition failing_externals (retcode : Z) : externals :=
  externals_with (fun _ _ m => (m, Ok (true, "the install script failed")))
                 (fun _ _ _ m => (m, Ok retcode))
                 (fetch_demo "1.0~ynh1").

(** The install script fails after it has deleted the manifest copied to
    the record of [demo]. *)
Definition drop_manifest (d : app_dir) : app_dir :=
  {| settings_yml := settings_yml d;
     dir_files := {| pkg_manifest := None;
                     pkg_scripts := pkg_scripts (dir_files d);
                     pkg_hooks := pkg_hooks (dir_files d) |} |}.

Definition manifest_dropping_externals : externals :=
  externals_with
    (fun _ _ m => (set_apps (alter drop_manifest "demo") m,
                   Ok (true, "the install script failed")))
    (fun _ _ _ m => (m, Ok 0))
    (fetch_demo "1.0~ynh1").

Definition fresh_machine : machine :=
  {| apps := ∅; perms := ∅; tmp_dirs := ∅; host := healthy_host |}.

Definition fresh_state : state := {| mach := fresh_machine; trace := nil |}.

Definition demo_prepared : state * result install_context :=
  install_prepare (failing_externals 0) "demo" None None false fresh_state.

Definition demo_context : install_context :=
  match snd demo_prepared with
  | Ok c => c
  | Raise _ =>
      {| ic_manifest := demo_manifest "1.0~ynh1"; ic_extracted_app_folder := EmptyString;
         ic_app_id := EmptyString; ic_app_instance_name := EmptyString;
         ic_env_dict := ∅; ic_modified_before := nil |}
  end.

(** The registrations and the questions of the worked examples. *)
Definition blog_map : gmap string (gmap string Conflicts.app_location) :=
  {[ "d.tld" := {[ "/blog" := {| Conflicts.loc_id := "blog";
                                 Conflicts.loc_label := "Blog" |} ]} ]}.

Definition blog_sub_map : gmap string (gmap string Conflicts.app_location) :=
  {[ "d.tld" := {[ "/blog/sub" := {| Conflicts.loc_id := "wiki";
                                     Conflicts.loc_label := "Wiki" |} ]} ]}.

Definition domain_question_with_default : Manifests.question :=
  {[ "name" := VStr "domain"; "type" := VStr "domain"; "default" := VStr "example.com" ]}.

Definition domain_question_with_example : Manifests.question :=
  {[ "name" := VStr "domain"; "type" := VStr "domain"; "example" := VStr "example.com" ]}.

(** A batch of three applications installed at version 1.0, whose packages
    at version 2.0 are at hand; the upgrade script of [bravo] fails, the
    other scripts pass, and none touches the machine. *)
Definition batch_manifest (id version : string) : manifest :=
  {| m_id := Some id; m_name := Some id; m_version := Some version;
     m_multi_instance := Some (VBool true); m_packaging_format := Some 1;
     m_services := nil; m_requirements := nil;
     m_arguments := Some (("install", nil) :: nil);
     m_revision := Some "r2"; m_description := Some "One of a batch" |}.

Definition batch_package (id version : string) : package :=
  {| pkg_manifest := Some (ManifestJson (batch_manifest id version));
     pkg_scripts := "install" :: "remove" :: "upgrade" :: nil;
     pkg_hooks := nil |}.

Definition batch_record (id : string) : app_dir :=
  {| settings_yml := Some {[ "id" := VStr id ]};
     dir_files := batch_package id "1.0~ynh1" |}.

Definition batch_machine : machine :=
  {| apps := {[ "alpha" := batch_record "alpha"; "bravo" := batch_record "bravo";
                "charlie" := batch_record "charlie" ]};
     perms := ∅; tmp_dirs := ∅; host := healthy_host |}.

Definition batch_state : state := {| mach := batch_machine; trace := nil |}.

Definition batch_externals : externals :=
  externals_with
    (fun _ env m =>
       (m, Ok (bool_decide (env !! "YNH_APP_INSTANCE_NAME" = Some "bravo"),
               "the upgrade script failed")))
    (fun _ _ _ m => (m, Ok 0))
    (fun src _ => Ok (batch_manifest src "2.0~ynh1",
                      "/var/cache/yunohost/app_tmp_work_dirs/app_" ++ src,
                      batch_package src "2.0~ynh1")).

Definition batch_sources : file_arg :=
  FileDict {[ "alpha" := "alpha"; "bravo" := "bravo"; "charlie" := "charlie" ]}.

Definition batch : list string := "alpha" :: "bravo" :: "charlie" :: nil.

(** The state after the turn of [alpha], and what the turn of [bravo] has
    at hand when it calls the script. *)
Definition batch_after_alpha : state :=
  fst (upgrade_loop batch_externals batch None batch_sources false false 0
         ("alpha" :: nil)
         {| mach := batch_machine;
            trace := EvLog "info" "app_upgrade_several_apps" batch :: nil |}).

Definition batch_bravo_prepared : state * result (option upgrade_context) :=
  upgrade_prepare batch_externals "bravo" None batch_sources false false batch_after_alpha.

Definition batch_bravo_context : upgrade_context :=
  match snd batch_bravo_prepared with
  | Ok (Some c) => c
  | _ =>
      {| uc_manifest := batch_manifest "bravo" "2.0~ynh1";
         uc_extracted_app_folder := EmptyString;
         uc_upgrade_type := Versions.UPGRADE_FULL;
         uc_env_dict := ∅; uc_modified_before := nil |}
  end.

End Examples.

(** ** More operations: registering a url, removal, scratch directories *)

Module Operations.
Import PyStr PyText Sys AppMap Lifecycle.
Local Open Scope M_scope.

(** *** Scratch directories *)

Definition APP_TMP_WORKDIRS : string := "/var/cache/yunohost/app_tmp_work_dirs".

Section operations.
Variable E : externals.
(** [tempfile.mkdtemp(prefix="app_", dir=APP_TMP_WORKDIRS)] and
    [os.stat(path).st_mtime] *)
Variable mkdtemp : machine -> string.
Variable st_mtime : machine -> string -> Z.

(** [_make_tmp_workdir_for_app(app)]: the scratch directories older than
    twelve hours go, a new one is made, and the files of the record of
    [app] are copied there when [app] is given ([cp] fails silently when
    there is no such record). *)
Definition _make_tmp_workdir_for_app (app : option string) : M string :=
  now_ <- now ;;
  m <- get_mach ;;
  modify_mach (set_tmp_dirs
    (filter (fun kv : string * package => ~ st_mtime m (fst kv) < now_ - 12 * 3600))) ;;
  m <- get_mach ;;
  let tmpdir := mkdtemp m in
  modify_mach (set_tmp_dirs (insert tmpdir empty_package)) ;;
  (if truthy app then
     match apps m !! default EmptyString app with
     | Some d => modify_mach (set_tmp_dirs (insert tmpdir (dir_files d)))
     | None => ret tt
     end
   else ret tt) ;;
  ret tmpdir.

(** *** [app_remove] *)

(** What [app_remove] has at hand when it calls the remove script. *)
Record remove_context : Type := {
  rc_manifest : manifest;
  rc_tmp_workdir_for_app : string;
  rc_env_dict : gmap string string;
}.

(** [app_remove] up to the call of the remove script.  The patches of
    [yunohost.utils.legacy] act on the text of the scripts, which the
    machine does not hold. *)
Definition remove_prepare (app : string) (purge : bool) : M remove_context :=
  installed <- _is_installed app ;;
  if negb installed then raise (YunohostValidationError "app_not_installed")
  else
    emit (EvLog "info" "app_start_remove" (app :: nil)) ;;
    m <- get_mach ;;
    manifest <- of_result (_get_manifest_of_app E (dir_files <$> apps m !! app)) ;;
    tmp_workdir_for_app <- _make_tmp_workdir_for_app (Some app) ;;
    of_result (InstanceId._parse_app_instance_name app) ;;
    env_dict <- _make_environment_for_app_script E app nil (Some tmp_workdir_for_app) ;;
    let env_dict := <["YNH_APP_PURGE" := str (if purge then 1 else 0)]> env_dict in
    ret {| rc_manifest := manifest; rc_tmp_workdir_for_app := tmp_workdir_for_app;
           rc_env_dict := env_dict |}.

(** [app_remove] from the call of the remove script on; the hooks that
    [hook_remove] deletes are outside the machine. *)
Definition remove_execute (app : string) (c : remove_context) : M unit :=
  let remove_script := rc_tmp_workdir_for_app c ++ "/scripts/remove" in
  emit (EvScript "remove" app) ;;
  ran <- attempt (call (hook_exec E remove_script nil (rc_env_dict c))) ;;
  ret_ <- match ran with
          | Ok retcode => ret retcode
          | Raise e =>
              emit (EvLog "error" "unexpected_error" (exn_text e :: nil)) ;;
              ret (-1)
          end ;;
  (* finally *)
  rmtree_tmp (rc_tmp_workdir_for_app c) ;;
  (if ret_ =? 0 then
     emit (EvLog "success" "app_removed" (app :: nil)) ;;
     emit (EvHook "post_app_remove") ;;
     call (hook_callback E "post_app_remove" (rc_env_dict c))
   else emit (EvLog "warning" "app_not_properly_removed" (app :: nil))) ;;
  permissions <- user_permission_list (app :: nil) ;;
  for_each (map fst (map_to_list permissions))
           (fun permission_name => permission_delete permission_name true) ;;
  m <- get_mach ;;
  (if bool_decide (is_Some (apps m !! app)) then rmtree_app app else ret tt) ;;
  permission_sync_to_user ;;
  _assert_system_is_sane_for_app E (rc_manifest c) "post".

Definition app_remove (app : string) (purge : bool) : M unit :=
  c <- remove_prepare app purge ;;
  remove_execute app c.

(** *** [app_register_url] *)

Definition app_register_url (app domain path : string) : M unit :=
  let domain := DomainQuestion_normalize E domain in
  let path := PathQuestion_normalize E path in
  installed <- _is_installed app ;;
  (if installed then
     settings <- _get_app_settings app ;;
     if bool_decide (is_Some (settings !! "path"))
        && bool_decide (is_Some (settings !! "domain"))
     then raise (YunohostValidationError "app_already_installed_cant_change_url")
     else ret tt
   else ret tt) ;;
  _assert_no_conflicting_apps E (Some domain) (Some path) None false ;;
  app_setting E app "domain" (VStr domain) false ;;
  app_setting E app "path" (VStr path) false ;;
  permission_url (app ++ ".main") (Some "/") nil false ;;
  user_permission_update (app ++ ".main") None None (Some true) ;;
  permission_sync_to_user.

(** *** [app_manifest] *)

Definition app_manifest (app : string) : M manifest :=
  extracted <- _extract_app E app ;;
  let (manifest, extracted_app_folder) := extracted : manifest * string in
  rmtree_tmp extracted_app_folder ;;
  ret manifest.

End operations.

(** What the loops of [app_map] register: an url that is not a regex, of
    a permission of the application, under the label of this permission. *)
Definition registered (permissions : list (string * perm_info)) (apps_ : list string)
    (url perm_label app_id : string) : Prop :=
  startswith url "re:" = false
  /\ app_id ∈ apps_
  /\ exists perm_name perm_info_,
       In (perm_name, perm_info_) permissions
       /\ startswith perm_name (app_id ++ ".") = true
       /\ In url (perm_all_urls perm_info_)
       /\ perm_label = pi_label perm_info_.

(** The applications [app_map] goes through. *)
Definition mapped_apps (app : option string) (m : machine) : list string :=
  match app with
  | Some a => a :: nil
  | None => map fst (map_to_list (apps m))
  end.

End Operations.

(** ** Reasoning about runs: what happens before the first write *)

Module Phases.
Import Sys Lifecycle Logic.

(** The line logged when [app_install] starts to write. *)
Definition install_start (ev : event) : Prop :=
  exists args, ev = EvLog "info" "app_start_install" args.

(** From [s] to [s'] events were only added, and unless the start of the
    install is among them, the permissions are the same, no record was
    made or deleted, and none was changed but by the rewrite of its
    stored path. *)
Definition before_start (s s' : state) : Prop :=
  exists new,
    trace s' = (trace s ++ new)%list
    /\ (Exists install_start new
        \/ (records_repaired (mach s) (mach s') /\ perms (mach s') = perms (mach s))).

(** [keeps R m]: whatever the state, [m] leaves a state related by [R] to
    the one it started from. *)
Definition keeps {A : Type} (R : state -> state -> Prop) (m : M A) : Prop :=
  forall s, R s (fst (m s)).

(** From [s] to [s'] events were added, the start of an install among
    them. *)
Definition logged_start (s s' : state) : Prop :=
  exists new, trace s' = (trace s ++ new)%list /\ Exists install_start new.

(** [starts m]: a run of [m] that ends normally has logged the start of
    an install. *)
Definition starts {A : Type} (m : M A) : Prop :=
  forall s a, snd (m s) = Ok a -> logged_start s (fst (m s)).

End Phases.

(** ** More worked examples *)

Module MoreExamples.
Import PyStr Sys AppMap Lifecycle Operations Examples.

(** The collaborators [E], with another catalog. *)
Definition with_catalog (E : externals) (catalog : gmap string catalog_entry) : externals :=
  {| m18n_n := m18n_n E;
     yaml_safe_load := yaml_safe_load E;
     legacy_permission_label := legacy_permission_label E;
     version_compare := version_compare E;
     meets_version_specifier := meets_version_specifier E;
     time_sleep := time_sleep E;
     apps_catalog := catalog;
     hook_exec_with_script_debug_if_failure := hook_exec_with_script_debug_if_failure E;
     hook_exec := hook_exec E;
     hook_callback := hook_callback E;
     fetch_package := fetch_package E;
     os_path_exists := os_path_exists E;
     Moulinette_interface_is_api := Moulinette_interface_is_api E;
     Moulinette_prompt := Moulinette_prompt E;
     ask_questions_and_parse_answers := ask_questions_and_parse_answers E;
     install_script_registers_root := install_script_registers_root E;
     full_permission_list := full_permission_list E;
     DomainQuestion_normalize := DomainQuestion_normalize E;
     PathQuestion_normalize := PathQuestion_normalize E;
     domain_exists := domain_exists E |}.

(** A catalog of two applications: one of good quality, one of level 3. *)
Definition wordpress_entry : catalog_entry :=
  {| cat_level := VInt 8; cat_state := Some "working";
     cat_manifest_version := Some "5.8~ynh1"; cat_lastUpdate := Some 1690000000;
     cat_git := true |}.

Definition hextris_entry : catalog_entry :=
  {| cat_level := VInt 3; cat_state := Some "working";
     cat_manifest_version := Some "1.0~ynh2"; cat_lastUpdate := Some 1680000000;
     cat_git := true |}.

Definition catalog_externals : externals :=
  with_catalog quiet_externals
    {[ "wordpress" := wordpress_entry; "hextris" := hextris_entry ]}.

(** No path exists, and the operator answers [y] to every question. *)
Definition no_path_exists (m : machine) (path : string) : bool := false.

Definition answers_y (message : string) : string := "y".

(** The environment of a script of [bravo], with one answer. *)
Definition bravo_environment : gmap string string :=
  match environment_for_app_script quiet_externals (apps batch_machine) "bravo"
          (("domain", "d.tld") :: nil) (Some "/var/cache/yunohost/app_tmp_work_dirs/app_b")
  with
  | Ok env => env
  | Raise _ => ∅
  end.

(** The scratch directory that is made, and the age of the others. *)
Definition scratch_directory (m : machine) : string :=
  "/var/cache/yunohost/app_tmp_work_dirs/app_scratch".

Definition modified_now (m : machine) (path : string) : Z := clock (host m).

(** The remove script returns 1. *)
Definition failing_remove_externals : externals :=
  externals_with (fun _ _ m => (m, Ok (false, EmptyString)))
                 (fun _ _ _ m => (m, Ok 1))
                 (fun _ _ => Raise (YunohostValidationError "app_unknown")).

Definition bravo_remove_prepared : state * result remove_context :=
  remove_prepare failing_remove_externals scratch_directory modified_now "bravo" false
    batch_state.

Definition bravo_remove_context : remove_context :=
  match snd bravo_remove_prepared with
  | Ok c => c
  | Raise _ =>
      {| rc_manifest := batch_manifest "bravo" "1.0~ynh1";
         rc_tmp_workdir_for_app := EmptyString; rc_env_dict := ∅ |}
  end.

(** One application [blog] registered at [d.tld/blog], and the listing
    of its permission. *)
Definition site_settings : gmap string pyobj :=
  {[ "id" := VStr "blog"; "domain" := VStr "d.tld"; "path" := VStr "/blog" ]}.

Definition site_machine : machine :=
  {| apps := {[ "blog" := {| settings_yml := Some site_settings;
                             dir_files := empty_package |} ]};
     perms := {[ "blog.main" := main_permission "Blog" ]};
     tmp_dirs := ∅;
     host := healthy_host |}.

Definition site_state : state := {| mach := site_machine; trace := nil |}.

Definition site_main_info : perm_info :=
  {| pi_url := Some "d.tld/blog";
     pi_additional_urls := "re:d.tld/blog/api/.*$" :: nil;
     pi_label := "Blog";
     pi_corresponding_users := "alice" :: nil |}.

Definition site_permissions (apps_ : list string) (m : machine)
  : list (string * perm_info) :=
  if bool_decide ("blog" ∈ apps_) then ("blog.main", site_main_info) :: nil else nil.

Definition site_url_map : gmap string string := {[ "d.tld/blog" := "Blog" ]}.

(** The record of [blog] before it has a domain. *)
Definition blog_settings : gmap string pyobj :=
  {[ "id" := VStr "blog"; "path" := VStr "/blog" ]}.

Definition blog_record : app_dir :=
  {| settings_yml := Some blog_settings; dir_files := empty_package |}.

(** The path stored in the settings of [app]. *)
Definition stored_path (m : machine) (app : string) : option pyobj :=
  match apps m !! app with
  | Some d =>
      match settings_yml d with
      | Some st => st !! "path"
      | None => None
      end
  | None => None
  end.

(** The collaborators [E], with another listing of the permissions. *)
Definition with_permission_list (E : externals)
    (listing : list string -> machine -> list (string * perm_info)) : externals :=
  {| m18n_n := m18n_n E;
     yaml_safe_load := yaml_safe_load E;
     legacy_permission_label := legacy_permission_label E;
     version_compare := version_compare E;
     meets_version_specifier := meets_version_specifier E;
     time_sleep := time_sleep E;
     apps_catalog := apps_catalog E;
     hook_exec_with_script_debug_if_failure := hook_exec_with_script_debug_if_failure E;
     hook_exec := hook_exec E;
     hook_callback := hook_callback E;
     fetch_package := fetch_package E;
     os_path_exists := os_path_exists E;
     Moulinette_interface_is_api := Moulinette_interface_is_api E;
     Moulinette_prompt := Moulinette_prompt E;
     ask_questions_and_parse_answers := ask_questions_and_parse_answers E;
     install_script_registers_root := install_script_registers_root E;
     full_permission_list := listing;
     DomainQuestion_normalize := DomainQuestion_normalize E;
     PathQuestion_normalize := PathQuestion_normalize E;
     domain_exists := domain_exists E |}.

(** Two applications: [blog], which has no domain yet, and [wiki],
    registered at [d.tld/wiki] with its path stored in old form. *)
Definition wiki_settings : gmap string pyobj :=
  {[ "id" := VStr "wiki"; "domain" := VStr "d.tld"; "path" := VStr "wiki/" ]}.

Definition two_sites_machine : machine :=
  {| apps := {[ "blog" := blog_record;
                "wiki" := {| settings_yml := Some wiki_settings;
                             dir_files := empty_package |} ]};
     perms := {[ "blog.main" := main_permission "Blog";
                 "wiki.main" := main_permission "Wiki" ]};
     tmp_dirs := ∅;
     host := healthy_host |}.

Definition wiki_main_info : perm_info :=
  {| pi_url := Some "d.tld/wiki";
     pi_additional_urls := nil;
     pi_label := "Wiki";
     pi_corresponding_users := "alice" :: nil |}.

Definition wiki_permissions (apps_ : list string) (m : machine)
  : list (string * perm_info) :=
  if bool_decide ("wiki" ∈ apps_) then ("wiki.main", wiki_main_info) :: nil else nil.

Definition two_sites_externals : externals :=
  with_permission_list quiet_externals wiki_permissions.

Definition wiki_map : gmap string (gmap string Conflicts.app_location) :=
  {[ "d.tld" := {[ "/wiki" := {| Conflicts.loc_id := "wiki";
                                 Conflicts.loc_label := "Wiki" |} ]} ]}.

(** A web application [shop] that asks for a domain and a path, and the
    operator's answers: the location [d.tld/blog], where [blog] is
    registered, with its path stored in old form. *)
Definition shop_manifest : manifest :=
  {| m_id := Some "shop"; m_name := Some "Shop"; m_version := Some "1.0~ynh1";
     m_multi_instance := Some (VBool false); m_packaging_format := Some 1;
     m_services := nil; m_requirements := nil;
     m_arguments :=
       Some (("install",
              ({[ "name" := VStr "domain"; "type" := VStr "domain" ]} : Manifests.question)
              :: ({[ "name" := VStr "path"; "type" := VStr "path" ]} : Manifests.question)
              :: nil) :: nil);
     m_revision := Some "r1"; m_description := Some "A shop" |}.

Definition shop_package : package :=
  {| pkg_manifest := Some (ManifestJson shop_manifest);
     pkg_scripts := "install" :: "remove" :: nil;
     pkg_hooks := nil |}.

Definition old_blog_settings : gmap string pyobj :=
  {[ "id" := VStr "blog"; "domain" := VStr "d.tld"; "path" := VStr "blog/" ]}.

Definition old_blog_machine : machine :=
  {| apps := {[ "blog" := {| settings_yml := Some old_blog_settings;
                             dir_files := empty_package |} ]};
     perms := {[ "blog.main" := main_permission "Blog" ]};
     tmp_dirs := ∅;
     host := healthy_host |}.

Definition shop_externals : externals :=
  {| m18n_n := fun key => key;
     yaml_safe_load := VStr;
     legacy_permission_label := fun app kind => app ++ " " ++ kind;
     version_compare := Versions.legacy_version_compare;
     meets_version_specifier := fun _ _ => true;
     time_sleep := fun h => h;
     apps_catalog := ∅;
     hook_exec_with_script_debug_if_failure := fun _ _ m => (m, Ok (false, EmptyString));
     hook_exec := fun _ _ _ m => (m, Ok 0);
     hook_callback := fun _ _ m => (m, Ok tt);
     fetch_package := fun _ _ =>
       Ok (shop_manifest, "/var/cache/yunohost/app_tmp_work_dirs/app_shop", shop_package);
     os_path_exists := fun _ _ => false;
     Moulinette_interface_is_api := true;
     Moulinette_prompt := fun _ => EmptyString;
     ask_questions_and_parse_answers := fun _ _ _ =>
       Ok (("domain", "domain", Some "d.tld") :: ("path", "path", Some "/blog") :: nil);
     install_script_registers_root := fun _ => false;
     full_permission_list := site_permissions;
     DomainQuestion_normalize := fun d => d;
     PathQuestion_normalize := fun p => p;
     domain_exists := fun _ _ => true |}.

End MoreExamples.

(** * Properties *)

(** ** Instance identity *)

Section instance_id_facts.
Import PyStr InstanceId.
Local Arguments String.append !_ _ : simpl nomatch.

Lemma appid_char_not_newline c : appid_char c = true -> Ascii.eqb c newline = false.
Proof.
  destruct c as [[] [] [] [] [] [] [] []]; intros H; vm_compute in *; congruence.
Qed.

Lemma at_end_cases s : at_end s = true -> s = EmptyString \/ s = String newline EmptyString.
Proof.
  destruct s as [|c [|c' s']]; simpl; intros H; try discriminate; auto.
  apply Ascii.eqb_eq in H. subst. auto.
Qed.

Lemma no_separator_tail c s : no_separator (String c s) = true -> no_separator s = true.
Proof.
  simpl. destruct s; [reflexivity|]. intros H. apply andb_prop in H. tauto.
Qed.

Lemma string_app_assoc (a b c : string) : (a ++ b) ++ c = a ++ (b ++ c).
Proof. induction a; simpl; congruence. Qed.

Lemma string_app_nil_r (a : string) : a ++ EmptyString = a.
Proof. induction a; simpl; congruence. Qed.

(** Inside a valid id, nothing that follows the characters read so far is
    accepted as the end of the name. *)
Lemma match_tail_inside (r sfx : string) :
  r <> EmptyString ->
  forallb_string appid_char r = true ->
  no_separator r = true ->
  (sfx = EmptyString \/ exists t, sfx = String "_" (String "_" t)) ->
  match_tail (r ++ sfx) = None.
Proof.
  intros Hne Hch Hsep Hsfx.
  destruct r as [|c1 r1]; [congruence|]. clear Hne.
  simpl in Hch. apply andb_prop in Hch. destruct Hch as [Hc1 Hr1].
  pose proof (appid_char_not_newline _ Hc1) as Hnl.
  unfold match_tail.
  assert (Hend : at_end (String c1 r1 ++ sfx) = false).
  { simpl. destruct (r1 ++ sfx); [exact Hnl|reflexivity]. }
  rewrite Hend.
  assert (Hgrp : match_instance_suffix (String c1 r1 ++ sfx) = None).
  { simpl. destruct r1 as [|b r2].
    - simpl. destruct Hsfx as [->|[t ->]]; [reflexivity|].
      replace (is_nonzero_digit "_") with false by reflexivity.
      rewrite !andb_false_r. reflexivity.
    - simpl in Hsep. apply andb_prop in Hsep. destruct Hsep as [Hsep _].
      simpl. destruct (r2 ++ sfx); [reflexivity|].
      apply negb_true_iff in Hsep. rewrite Hsep. reflexivity. }
  rewrite Hgrp. reflexivity.
Qed.

Lemma match_appid_valid (base : string) : forall (acc sfx : string) (nb : option string),
  base <> EmptyString ->
  forallb_string appid_char base = true ->
  no_separator base = true ->
  (sfx = EmptyString \/ exists t, sfx = String "_" (String "_" t)) ->
  match_tail sfx = Some nb ->
  match_appid acc (base ++ sfx) = Some (acc ++ base, nb).
Proof.
  induction base as [|c b' IH]; intros acc sfx nb Hne Hch Hsep Hsfx Htl; [congruence|].
  simpl in Hch. apply andb_prop in Hch. destruct Hch as [Hc Hb'].
  simpl. rewrite Hc.
  destruct b' as [|c' b''].
  - simpl. rewrite Htl. reflexivity.
  - rewrite (match_tail_inside (String c' b'') sfx); auto; try congruence.
    + rewrite (IH (acc ++ String c EmptyString) sfx nb); auto; try congruence.
      * rewrite string_app_assoc. reflexivity.
      * eapply no_separator_tail; eauto.
    + eapply no_separator_tail; eauto.
Qed.

(** *** Decimal texts *)

Lemma string_of_uint_digits d : digit_string (NilEmpty.string_of_uint d) = true.
Proof. induction d; simpl; auto. Qed.

Lemma span_digits_all s : digit_string s = true -> span_digits s = (s, EmptyString).
Proof.
  induction s as [|c s IH]; simpl; [reflexivity|].
  intros H. apply andb_prop in H. destruct H as [Hc Hs].
  rewrite Hc, (IH Hs). reflexivity.
Qed.

Lemma nzhead_not_D0 u u' : nzhead u <> D0 u'.
Proof. induction u; simpl; auto; discriminate. Qed.

Lemma to_uint_canonical p : canonical (Pos.to_uint p).
Proof.
  pose proof (DecimalPos.Unsigned.to_of (Pos.to_uint p)) as H.
  rewrite DecimalPos.Unsigned.of_to in H.
  change (N.to_uint (N.pos p)) with (Pos.to_uint p) in H.
  pose proof (DecimalPos.Unsigned.to_uint_nonzero p) as Hnz.
  revert H Hnz. generalize (Pos.to_uint p) as d.
  intros d H Hnz. destruct d as [|u| | | | | | | | |]; simpl; auto.
  - rewrite unorm_D0 in H. unfold unorm in H.
    destruct (nzhead u) eqn:Hn; try discriminate H.
    + injection H as Hu. subst u. apply Hnz. reflexivity.
    + eapply nzhead_not_D0. rewrite Hn. symmetry. exact H.
Qed.

Lemma canonical_first_digit d :
  canonical d ->
  exists c rest, NilEmpty.string_of_uint d = String c rest
                 /\ is_nonzero_digit c = true /\ digit_string rest = true.
Proof.
  destruct d; simpl; intros H; try contradiction;
    eexists _, _; (split; [reflexivity|]); (split; [reflexivity|apply string_of_uint_digits]).
Qed.

Lemma str_pos p : str (Z.pos p) = NilEmpty.string_of_uint (Pos.to_uint p).
Proof.
  unfold str. simpl. unfold NilZero.string_of_uint.
  pose proof (to_uint_canonical p) as H.
  destruct (Pos.to_uint p); simpl in H; try contradiction; reflexivity.
Qed.

Lemma int_str_pos p : int (str (Z.pos p)) = Ok (Z.pos p).
Proof.
  rewrite str_pos.
  destruct (canonical_first_digit _ (to_uint_canonical p)) as (c & rest & Hs & _ & _).
  unfold int. rewrite Hs. rewrite <- Hs. rewrite NilEmpty.usu.
  unfold Z.of_uint. rewrite DecimalPos.Unsigned.of_to. reflexivity.
Qed.

Lemma match_tail_number p :
  match_tail ("__" ++ str (Z.pos p)) = Some (Some (str (Z.pos p))).
Proof.
  rewrite str_pos.
  destruct (canonical_first_digit _ (to_uint_canonical p)) as (c & rest & Hs & Hc & Hrest).
  rewrite Hs. unfold match_tail. simpl. rewrite Hc.
  rewrite (span_digits_all _ Hrest). reflexivity.
Qed.

Lemma valid_app_id_parts base :
  valid_app_id base = true ->
  base <> EmptyString /\ forallb_string appid_char base = true /\ no_separator base = true.
Proof.
  unfold valid_app_id. intros H.
  apply andb_prop in H. destruct H as [H H3]. apply andb_prop in H. destruct H as [H1 H2].
  repeat split; auto.
  intros ->. discriminate H1.
Qed.

Lemma parse_suffixed (base : string) (p : positive) :
  valid_app_id base = true ->
  _parse_app_instance_name (base ++ "__" ++ str (Z.pos p)) = Ok (base, Z.pos p).
Proof.
  intros Hv. destruct (valid_app_id_parts _ Hv) as (Hne & Hch & Hsep).
  unfold _parse_app_instance_name, re_app_instance_name.
  rewrite (match_appid_valid base EmptyString ("__" ++ str (Z.pos p)) (Some (str (Z.pos p))));
    auto.
  2:{ right. eexists. reflexivity. }
  2:{ apply match_tail_number. }
  simpl (EmptyString ++ base). simpl default.
  destruct (String.eqb base EmptyString) eqn:Hb.
  { apply String.eqb_eq in Hb. congruence. }
  assert (Hd : negb (String.eqb (str (Z.pos p)) EmptyString)
               && forallb_string is_digit (str (Z.pos p)) = true).
  { rewrite str_pos.
    destruct (canonical_first_digit _ (to_uint_canonical p)) as (c & rest & Hs & Hc & Hrest).
    pose proof (string_of_uint_digits (Pos.to_uint p)) as Hall.
    unfold digit_string in Hall. rewrite Hall. rewrite Hs. reflexivity. }
  rewrite Hd. simpl negb. cbv iota.
  rewrite int_str_pos. reflexivity.
Qed.

Lemma parse_plain (base : string) :
  valid_app_id base = true -> _parse_app_instance_name base = Ok (base, 1).
Proof.
  intros Hv. destruct (valid_app_id_parts _ Hv) as (Hne & Hch & Hsep).
  unfold _parse_app_instance_name, re_app_instance_name.
  pose proof (match_appid_valid base EmptyString EmptyString None Hne Hch Hsep) as H.
  rewrite string_app_nil_r in H. rewrite H; auto.
  simpl (EmptyString ++ base).
  destruct (String.eqb base EmptyString) eqn:Hb.
  { apply String.eqb_eq in Hb. congruence. }
  reflexivity.
Qed.

Lemma span_digits_spec s : forall num tl,
  span_digits s = (num, tl) -> s = num ++ tl /\ digit_string num = true.
Proof.
  induction s as [|c s IH]; simpl; intros num tl H.
  - injection H as <- <-. auto.
  - destruct (is_digit c) eqn:Hc.
    + destruct (span_digits s) as [d r] eqn:Hs. injection H as <- <-.
      destruct (IH d r eq_refl) as [-> Hd]. unfold digit_string in *. simpl. rewrite Hc. auto.
    + injection H as <- <-. auto.
Qed.

Lemma match_instance_suffix_inv rest D :
  match_instance_suffix rest = Some D ->
  exists d num tl,
    rest = "__" ++ String d num ++ tl /\ D = String d num
    /\ is_nonzero_digit d = true /\ digit_string num = true /\ at_end tl = true.
Proof.
  unfold match_instance_suffix.
  destruct rest as [|a [|b [|d ds]]]; try discriminate.
  destruct (Ascii.eqb a "_") eqn:Ha; [|discriminate].
  destruct (Ascii.eqb b "_") eqn:Hb; [|discriminate].
  destruct (is_nonzero_digit d) eqn:Hd; [|discriminate]. simpl.
  destruct (span_digits ds) as [num tl] eqn:Hs.
  destruct (at_end tl) eqn:He; [|discriminate].
  intros [= <-]. apply Ascii.eqb_eq in Ha, Hb. subst a b.
  destruct (span_digits_spec _ _ _ Hs) as [-> Hnum].
  exists d, num, tl. simpl. auto.
Qed.

Lemma match_appid_inv s : forall acc a nb,
  match_appid acc s = Some (a, nb) ->
  exists pre rest, s = pre ++ rest /\ a = acc ++ pre /\ match_tail rest = Some nb.
Proof.
  induction s as [|c s IH]; simpl; intros acc a nb H; [discriminate|].
  destruct (appid_char c); [|discriminate].
  destruct (match_tail s) as [nb'|] eqn:Ht.
  - injection H as <- <-. exists (String c EmptyString), s. auto.
  - destruct (IH _ _ _ H) as (pre & rest & -> & -> & Hr).
    exists (String c pre), rest. simpl. rewrite string_app_assoc. auto.
Qed.

Lemma uint_of_char_digit c u :
  is_digit c = true ->
  exists u', uint_of_char c (Some u) = Some u'
             /\ (is_nonzero_digit c = true -> canonical u').
Proof.
  destruct c as [[] [] [] [] [] [] [] []]; intros H; try discriminate H;
    eexists; (split; [reflexivity|]); intros Hc; try discriminate Hc; exact I.
Qed.

Lemma digit_string_uint s :
  digit_string s = true -> exists u, NilEmpty.uint_of_string s = Some u.
Proof.
  induction s as [|c s IH]; simpl; intros H; [eauto|].
  apply andb_prop in H. destruct H as [Hc Hs].
  destruct (IH Hs) as [u ->].
  destruct (uint_of_char_digit c u Hc) as (u' & -> & _). eauto.
Qed.

Lemma canonical_unorm u : canonical u -> unorm u = u /\ u <> Decimal.zero.
Proof. destruct u; simpl; intros H; try contradiction; split; auto; discriminate. Qed.

(** A digit run with a non-zero head is the decimal text of a positive
    integer, and of that one only. *)
Lemma numeral_value d num :
  is_nonzero_digit d = true -> digit_string num = true ->
  exists p, int (String d num) = Ok (Z.pos p) /\ str (Z.pos p) = String d num.
Proof.
  intros Hd Hnum.
  destruct (digit_string_uint _ Hnum) as [u Hu].
  assert (Hdig : is_digit d = true).
  { destruct d as [[] [] [] [] [] [] [] []]; try discriminate Hd; reflexivity. }
  destruct (uint_of_char_digit d u Hdig) as (u' & Hu' & Hcan).
  specialize (Hcan Hd).
  assert (Hs : NilEmpty.uint_of_string (String d num) = Some u').
  { simpl. rewrite Hu. exact Hu'. }
  destruct (canonical_unorm _ Hcan) as [Hnorm Hnz].
  destruct (DecimalPos.Unsigned.to_uint_pos_surj u') as [p Hp].
  { rewrite Hnorm. exact Hnz. }
  rewrite Hnorm in Hp.
  exists p. split.
  - unfold int. rewrite Hs. unfold Z.of_uint. rewrite <- Hp.
    rewrite DecimalPos.Unsigned.of_to. reflexivity.
  - rewrite str_pos, Hp. apply NilEmpty.sus. exact Hs.
Qed.

Lemma parse_inv s appid nb :
  _parse_app_instance_name s = Ok (appid, nb) ->
  exists tl, at_end tl = true
    /\ ((nb = 1 /\ s = appid ++ tl) \/ (1 <= nb /\ s = appid ++ "__" ++ str nb ++ tl)).
Proof.
  unfold _parse_app_instance_name, re_app_instance_name.
  destruct (match_appid EmptyString s) as [[a onb]|] eqn:Hm; [|discriminate].
  destruct (match_appid_inv _ _ _ _ Hm) as (pre & rest & -> & -> & Ht).
  simpl (EmptyString ++ pre).
  destruct (String.eqb pre EmptyString); [discriminate|].
  unfold match_tail in Ht.
  destruct (match_instance_suffix rest) as [D|] eqn:Hg.
  - injection Ht as <-.
    destruct (match_instance_suffix_inv _ _ Hg) as (d & num & tl & -> & -> & Hd & Hnum & He).
    destruct (numeral_value d num Hd Hnum) as (p & Hint & Hstr).
    simpl default.
    destruct (negb _); [discriminate|].
    rewrite Hint. intros [= <- <-].
    exists tl. split; [exact He|]. right. split; [lia|].
    rewrite Hstr. simpl. reflexivity.
  - destruct (at_end rest) eqn:He; [|discriminate]. injection Ht as <-.
    simpl. intros [= <- <-]. exists rest. auto.
Qed.

(** C7.  For a valid application id [base] and a number [n] from 1 on,
    parsing the instance name generated for [(base, n)] gives back
    [(base, n)], with or without the suffix for [n = 1]; a suffix is taken
    off only when it is [__] followed by the decimal text of a positive
    integer (no leading zero, up to a final line feed), so that [foo__0]
    and [foo__23qdqsd] stay whole with number 1 and [foo__23] gives
    [(foo, 23)]. *)
Theorem parse_generated_instance_name (base : string) (n : Z) :
  valid_app_id base = true ->
  1 <= n ->
  _parse_app_instance_name (instance_name base n) = Ok (base, n)
  /\ _parse_app_instance_name (base ++ "__" ++ str n) = Ok (base, n)
  /\ (forall s appid nb,
        _parse_app_instance_name s = Ok (appid, nb) ->
        exists tl, at_end tl = true
          /\ ((nb = 1 /\ s = appid ++ tl)
              \/ (1 <= nb /\ s = appid ++ "__" ++ str nb ++ tl)))
  /\ _parse_app_instance_name "foo__0" = Ok ("foo__0", 1)
  /\ _parse_app_instance_name "foo__23qdqsd" = Ok ("foo__23qdqsd", 1)
  /\ _parse_app_instance_name "foo__23" = Ok ("foo", 23).
Proof.
  intros Hv Hn.
  destruct n as [|p|p]; try lia.
  split; [|split; [|split; [|repeat split; reflexivity]]].
  - unfold instance_name. destruct (1 <? Z.pos p) eqn:H1.
    + apply parse_suffixed. exact Hv.
    + apply Z.ltb_ge in H1. assert (p = 1%positive) as -> by lia.
      apply parse_plain. exact Hv.
  - apply parse_suffixed. exact Hv.
  - apply parse_inv.
Qed.

Lemma parse_generated_instance_name_witness :
  _parse_app_instance_name (instance_name "my-app_" 12) = Ok ("my-app_", 12).
Proof.
  apply (parse_generated_instance_name "my-app_" 12); [reflexivity | lia].
Defined.

End instance_id_facts.

(** ** Next free instance number *)

Section next_number_facts.
Import PyStr InstanceId.

Lemma count_from_succ i ids : (count_from (i + 1) ids <= count_from i ids)%nat.
Proof.
  unfold count_from. induction ids as [|x ids IH]; simpl; [lia|].
  destruct (i + 1 <=? x) eqn:H1; destruct (i <=? x) eqn:H2; simpl; lia.
Qed.

Lemma count_from_member i ids :
  In i ids -> (count_from (i + 1) ids < count_from i ids)%nat.
Proof.
  unfold count_from. induction ids as [|x ids IH]; simpl; [tauto|].
  intros [->|Hin].
  - replace (i + 1 <=? i) with false by (symmetry; apply Z.leb_gt; lia).
    rewrite Z.leb_refl. simpl. pose proof (count_from_succ i ids). unfold count_from in *. lia.
  - specialize (IH Hin).
    destruct (i + 1 <=? x) eqn:H1; destruct (i <=? x) eqn:H2; simpl; lia.
Qed.

Lemma existsb_eqb_In i ids : existsb (Z.eqb i) ids = true <-> In i ids.
Proof.
  rewrite existsb_exists. split.
  - intros (x & Hin & Heq). apply Z.eqb_eq in Heq. subst. exact Hin.
  - intros Hin. exists i. split; [exact Hin|apply Z.eqb_refl].
Qed.

(** The search ends as soon as the fuel exceeds the number of ids not
    below its start, on the least free number from there. *)
Lemma first_free_from_spec (ids : list Z) : forall (fuel : nat) (i : Z),
  (count_from i ids < fuel)%nat ->
  exists j, first_free_from fuel ids i = Some j
            /\ i <= j /\ ~ In j ids /\ forall k, i <= k < j -> In k ids.
Proof.
  induction fuel as [|fuel IH]; intros i Hf; [lia|].
  simpl. destruct (existsb (Z.eqb i) ids) eqn:Hex; simpl.
  - apply existsb_eqb_In in Hex.
    pose proof (count_from_member i ids Hex) as Hlt.
    destruct (IH (i + 1)) as (j & Hj & Hle & Hnin & Hmin); [lia|].
    exists j. repeat split; auto; try lia.
    intros k Hk. destruct (Z.eq_dec k i) as [->|Hne]; [exact Hex|].
    apply Hmin. lia.
  - exists i. repeat split; auto; try lia.
    intros Hin. apply existsb_eqb_In in Hin. congruence.
Qed.

Lemma count_from_le i ids : (count_from i ids <= length ids)%nat.
Proof. unfold count_from. apply List.filter_length_le. Qed.

Lemma map_result_length {A B : Type} (f : A -> result B) l : forall bs,
  map_result f l = Ok bs -> length bs = length l.
Proof.
  induction l as [|a l IH]; simpl; intros bs H.
  - injection H as <-. reflexivity.
  - destruct (f a); [|discriminate]. destruct (map_result f l); [|discriminate].
    injection H as <-. simpl. rewrite (IH _ eq_refl). reflexivity.
Qed.

Lemma map_result_In {A B : Type} (f : A -> result B) l : forall bs,
  map_result f l = Ok bs -> forall b, In b bs <-> exists a, In a l /\ f a = Ok b.
Proof.
  induction l as [|a l IH]; simpl; intros bs H b.
  - injection H as <-. simpl. split; [tauto|]. intros (? & [] & _).
  - destruct (f a) as [b0|] eqn:Ha; [|discriminate].
    destruct (map_result f l) as [bs0|]; [|discriminate].
    injection H as <-. simpl. rewrite (IH _ eq_refl b). split.
    + intros [<-|(a' & Hin & Hf)]; eauto.
    + intros (a' & [<-|Hin] & Hf); [left; congruence|eauto].
Qed.

Lemma map_result_total {A B : Type} (f : A -> result B) l :
  (forall a, In a l -> exists b, f a = Ok b) -> exists bs, map_result f l = Ok bs.
Proof.
  induction l as [|a l IH]; simpl; intros H; [eauto|].
  destruct (H a) as [b ->]; [auto|].
  destruct IH as [bs ->]; [auto|]. eauto.
Qed.

(** What the search returns in general: the least positive integer that
    is not the number of an installed name equal to [app] or starting
    with [app] and the separator. *)
Lemma next_instance_number_spec (fuel : nat) (apps : list string) (app : string) :
  (forall a, In a (sibling_app_ids apps app) ->
             exists r, _parse_app_instance_name a = Ok r) ->
  (length apps < fuel)%nat ->
  exists i,
    _next_instance_number_for_app fuel apps app = Some (Ok i)
    /\ 1 <= i
    /\ (forall a b nb, In a (sibling_app_ids apps app) ->
                       _parse_app_instance_name a = Ok (b, nb) -> nb <> i)
    /\ (forall j, 1 <= j < i ->
                  exists a b, In a (sibling_app_ids apps app)
                              /\ _parse_app_instance_name a = Ok (b, j)).
Proof.
  intros Hparse Hfuel. unfold _next_instance_number_for_app.
  set (f := fun a => match _parse_app_instance_name a with
                     | Ok (_, nb) => Ok nb
                     | Raise e => Raise e
                     end).
  destruct (map_result_total f (sibling_app_ids apps app)) as [ids Hids].
  { intros a Ha. destruct (Hparse a Ha) as [[b nb] Hr]. exists nb. unfold f. rewrite Hr.
    reflexivity. }
  rewrite Hids.
  assert (Hlen : (count_from 1 ids < fuel)%nat).
  { pose proof (count_from_le 1 ids). pose proof (map_result_length _ _ _ Hids) as Hl.
    pose proof (List.filter_length_le
                  (fun a => String.eqb a app || startswith a (app ++ "__")) apps) as Hf.
    unfold sibling_app_ids in Hl. lia. }
  destruct (first_free_from_spec ids fuel 1 Hlen) as (i & -> & Hle & Hnin & Hmin).
  exists i. repeat split; auto.
  - intros a b nb Ha Hp ->. apply Hnin.
    apply (map_result_In _ _ _ Hids). exists a. split; [exact Ha|].
    unfold f. rewrite Hp. reflexivity.
  - intros j Hj. specialize (Hmin j Hj).
    apply (map_result_In _ _ _ Hids) in Hmin. destruct Hmin as (a & Ha & Hf).
    unfold f in Hf. destruct (_parse_app_instance_name a) as [[b nb]|] eqn:Hp; [|discriminate].
    injection Hf as ->. eauto.
Qed.

(** C8, at the failing input.  With [foo], [foo_] and the second instance
    [foo___2] of [foo_] installed, the number found for [foo] is 3,
    although the only installed instance of [foo] is [foo] itself, number
    1, and [foo__2] is free: the name test takes [foo___2] for a sibling
    of [foo].  On the batch of the specification the result is 3, as it
    says. *)
Theorem next_instance_number_counts_other_base :
  _next_instance_number_for_app 4 ("foo" :: "foo_" :: "foo___2" :: nil) "foo" = Some (Ok 3)
  /\ _parse_app_instance_name "foo___2" = Ok ("foo_", 2)
  /\ ~ In (instance_name "foo" 2) ("foo" :: "foo_" :: "foo___2" :: nil)
  /\ (forall a nb, In a ("foo" :: "foo_" :: "foo___2" :: nil) ->
                   _parse_app_instance_name a = Ok ("foo", nb) -> nb = 1)
  /\ _next_instance_number_for_app 4 ("foo" :: "foo__2" :: "foo__4" :: nil) "foo"
     = Some (Ok 3).
Proof.
  split; [vm_compute; reflexivity|]. split; [vm_compute; reflexivity|].
  split.
  - vm_compute. intros [H|[H|[H|[]]]]; discriminate H.
  - split; [|vm_compute; reflexivity].
    intros a nb [<-|[<-|[<-|[]]]]; vm_compute; intros H; congruence.
Qed.

End next_number_facts.

(** ** Conflict resolver *)

Section conflict_facts.
Import PyStr Conflicts Examples.

Lemma conflict_of_spec path ignore_app q a p id label :
  In (p, id, label) (conflict_of path ignore_app (q, a)) <->
  q = p /\ loc_id a = id /\ loc_label a = label /\ Some id <> ignore_app
  /\ (path = p \/ startswith path p = true \/ startswith p path = true).
Proof.
  unfold conflict_of. case_bool_decide as Hig.
  - simpl. split; [tauto|]. intros (_ & <- & _ & Hne & _). congruence.
  - destruct (String.eqb path q) eqn:Heq.
    + apply String.eqb_eq in Heq. subst q. simpl. split.
      * intros [[= <- <- <-]|[]]. repeat split; auto.
      * intros (<- & <- & <- & _). auto.
    + destruct (startswith path q || startswith q path) eqn:Hp; simpl.
      * split.
        -- intros [[= <- <- <-]|[]]. repeat split; auto.
           apply orb_prop in Hp. tauto.
        -- intros (<- & <- & <- & _). auto.
      * split; [tauto|]. intros (<- & _ & _ & _ & [Hq|Hq]).
        -- subst q. rewrite String.eqb_refl in Heq. discriminate.
        -- apply orb_false_elim in Hp. destruct Hp as [H1 H2].
           destruct Hq; congruence.
Qed.

(** The conflicts reported for an existing domain are the registrations of
    that domain, other than those of the ignored application, whose path
    equals the candidate or is in prefix relation with it. *)
Lemma conflicting_apps_spec (Dn Pn : string -> string) (exists_ : string -> bool)
    (apps_map : gmap string (gmap string app_location)) (domain path : string)
    (ignore_app : option string) :
  exists_ (Dn domain) = true ->
  exists conflicts,
    _get_conflicting_apps Dn Pn exists_ apps_map domain path ignore_app = Ok conflicts
    /\ forall p id label,
         In (p, id, label) conflicts <->
         (exists locations,
             apps_map !! Dn domain = Some locations
             /\ locations !! p = Some {| loc_id := id; loc_label := label |}
             /\ Some id <> ignore_app
             /\ (Pn path = p \/ startswith (Pn path) p = true
                 \/ startswith p (Pn path) = true)).
Proof.
  intros Hd. unfold _get_conflicting_apps. rewrite Hd. simpl.
  destruct (apps_map !! Dn domain) as [locations|] eqn:Hl.
  - eexists. split; [reflexivity|]. intros p id label.
    rewrite in_flat_map. split.
    + intros ([q a] & Hin & Hc).
      apply list_elem_of_In, elem_of_map_to_list in Hin.
      apply conflict_of_spec in Hc. destruct Hc as (-> & <- & <- & Hne & Hp).
      exists locations. split; [reflexivity|]. split; [|auto].
      rewrite Hin. destruct a; reflexivity.
    + intros (locs & [= <-] & Hp & Hne & Hpre).
      exists (p, {| loc_id := id; loc_label := label |}). split.
      * apply list_elem_of_In, elem_of_map_to_list. exact Hp.
      * apply conflict_of_spec. simpl. auto.
  - exists nil. split; [reflexivity|]. intros p id label. simpl. split; [tauto|].
    intros (locs & [=] & _).
Qed.

(** C3, as the code has it.  A candidate conflicts with a registered path
    of its domain (the ignored application apart) exactly when the two are
    equal or one is a prefix of the other, character by character: [/blog]
    and [/blog/sub] conflict both ways, and so does the candidate [/blog2]
    with the registered [/blog]. *)
Theorem conflicts_are_prefix_related (Dn Pn : string -> string) (exists_ : string -> bool)
    (apps_map : gmap string (gmap string app_location)) (domain path : string)
    (ignore_app : option string) :
  exists_ (Dn domain) = true ->
  (exists conflicts,
    _get_conflicting_apps Dn Pn exists_ apps_map domain path ignore_app = Ok conflicts
    /\ forall p id label,
         In (p, id, label) conflicts <->
         (exists locations,
             apps_map !! Dn domain = Some locations
             /\ locations !! p = Some {| loc_id := id; loc_label := label |}
             /\ Some id <> ignore_app
             /\ (Pn path = p \/ startswith (Pn path) p = true
                 \/ startswith p (Pn path) = true)))
  /\ _get_conflicting_apps id id (fun _ => true) blog_sub_map "d.tld" "/blog" None
     = Ok (("/blog/sub", "wiki", "Wiki") :: nil)
  /\ _get_conflicting_apps id id (fun _ => true) blog_map "d.tld" "/blog/sub" None
     = Ok (("/blog", "blog", "Blog") :: nil)
  /\ _get_conflicting_apps id id (fun _ => true) blog_map "d.tld" "/blog2" None
     = Ok (("/blog", "blog", "Blog") :: nil)
  /\ _get_conflicting_apps id id (fun _ => true) blog_map "d.tld" "/blog2" (Some "blog")
     = Ok nil.
Proof.
  intros Hd. split; [apply conflicting_apps_spec; exact Hd|].
  repeat split; vm_compute; reflexivity.
Qed.

Lemma conflicts_are_prefix_related_witness :
  exists conflicts,
    _get_conflicting_apps id id (fun _ => true) blog_map "d.tld" "/blo" None = Ok conflicts
    /\ In ("/blog", "blog", "Blog") conflicts.
Proof.
  destruct (conflicts_are_prefix_related id id (fun _ => true) blog_map "d.tld" "/blo" None)
    as [(conflicts & Hc & Hspec) _]; [reflexivity|].
  exists conflicts. split; [exact Hc|].
  apply Hspec. exists {[ "/blog" := {| loc_id := "blog"; loc_label := "Blog" |} ]}.
  repeat split; [discriminate|]. right. right. reflexivity.
Defined.

(** The candidate [/blog2] is reported in conflict with the registered
    [/blog]: the claim that it is not fails. *)
Lemma blog2_conflicts_with_blog :
  _get_conflicting_apps id id (fun _ => true) blog_map "d.tld" "/blog2" None
  = Ok (("/blog", "blog", "Blog") :: nil).
Proof. vm_compute. reflexivity. Qed.

End conflict_facts.

(** ** Version classifier *)

Section version_facts.
Import PyStr Versions.




Example classify_package :
  classify_upgrade legacy_version_compare "1.0~ynh1" "1.0~ynh2" false
  = Ok (RunUpgrade UPGRADE_PACKAGE).
Proof. vm_compute. reflexivity. Qed.
Example classify_app :
  classify_upgrade legacy_version_compare "1.0~ynh1" "2.0~ynh1" false
  = Ok (RunUpgrade UPGRADE_APP).
Proof. vm_compute. reflexivity. Qed.
Example classify_full :
  classify_upgrade legacy_version_compare "1.0~ynh1" "2.0~ynh2" false
  = Ok (RunUpgrade UPGRADE_FULL).
Proof. vm_compute. reflexivity. Qed.

End version_facts.

(** ** Manifest resolver *)

Section manifest_facts.
Import PyStr Manifests Examples.

(** C6, at the failing input.  For an install question of type [domain]
    that carries a [default], the normalisation does not strip it: it
    deletes the key [domain] instead, which raises [KeyError] when the
    descriptor has no such key (and leaves the default in place when it
    has one).  An [example] is stripped, and the questions of other
    scripts are left as they are. *)
Theorem default_of_domain_question_not_stripped (m18n_n : string -> string) :
  _set_default_ask_questions m18n_n (("install", domain_question_with_default :: nil) :: nil)
  = Raise (KeyError "domain")
  /\ _set_default_ask_questions m18n_n
       (("install", <["domain" := VStr "d.tld"]> domain_question_with_default :: nil) :: nil)
     = Ok (("install",
            <["ask" := VStr (m18n_n "app_manifest_install_ask_domain")]>
              domain_question_with_default :: nil) :: nil)
  /\ _set_default_ask_questions m18n_n (("install", domain_question_with_example :: nil) :: nil)
     = Ok (("install",
            {[ "name" := VStr "domain"; "type" := VStr "domain";
               "ask" := VStr (m18n_n "app_manifest_install_ask_domain") ]} :: nil) :: nil)
  /\ _set_default_ask_questions m18n_n (("upgrade", domain_question_with_default :: nil) :: nil)
     = Ok (("upgrade", domain_question_with_default :: nil) :: nil).
Proof.
  repeat split; vm_compute; reflexivity.
Qed.

End manifest_facts.

(** * Properties *)

(** ** Rules for runs *)

Import PyStr Sys Lifecycle Logic.
Local Open Scope M_scope.
Local Arguments String.append !_ _ : simpl nomatch.
Local Arguments health_check : simpl never.
Local Arguments environment_for_app_script : simpl never.

Section frame_rules.
Variable R : machine -> machine -> Prop.
Hypothesis R_refl : forall m, R m m.
Hypothesis R_trans : forall m1 m2 m3, R m1 m2 -> R m2 m3 -> R m1 m3.

Lemma frames_ret {A : Type} (a : A) : frames R (ret a).
Proof. intros s. apply R_refl. Qed.

Lemma frames_raise {A : Type} (e : exn) : frames R (@raise A e).
Proof. intros s. apply R_refl. Qed.

Lemma frames_of_result {A : Type} (r : result A) : frames R (of_result r).
Proof. intros s. apply R_refl. Qed.

Lemma frames_get_mach : frames R get_mach.
Proof. intros s. apply R_refl. Qed.

Lemma frames_emit (e : event) : frames R (emit e).
Proof. intros s. apply R_refl. Qed.

Lemma frames_bind {A B : Type} (m : M A) (k : A -> M B) :
  frames R m -> (forall a, frames R (k a)) -> frames R (bind m k).
Proof.
  intros Hm Hk s. unfold bind. specialize (Hm s).
  destruct (m s) as [s' [a|e]]; simpl in *; [|exact Hm].
  eapply R_trans; [exact Hm|]. apply Hk.
Qed.

Lemma frames_attempt {A : Type} (m : M A) : frames R m -> frames R (attempt m).
Proof.
  intros Hm s. unfold attempt. specialize (Hm s). destruct (m s). exact Hm.
Qed.

Lemma frames_modify (f : machine -> machine) :
  (forall m, R m (f m)) -> frames R (modify_mach f).
Proof. intros Hf s. apply Hf. Qed.

Lemma frames_call {A : Type} (f : machine -> machine * result A) :
  (forall m, R m (fst (f m))) -> frames R (call f).
Proof.
  intros Hf s. unfold call. specialize (Hf (mach s)). destruct (f (mach s)). exact Hf.
Qed.

Lemma frames_when (b : bool) (m : M unit) : frames R m -> frames R (when_ b m).
Proof. intros Hm. destruct b; [exact Hm|apply frames_ret]. Qed.

Lemma frames_for_each {A : Type} (l : list A) (body : A -> M unit) :
  (forall a, frames R (body a)) -> frames R (for_each l body).
Proof.
  intros Hb. induction l as [|a l IH]; simpl; [apply frames_ret|].
  apply frames_bind; auto.
Qed.
End frame_rules.

Lemma same_apps_refl m : same_apps m m.
Proof. reflexivity. Qed.
Lemma same_apps_trans m1 m2 m3 : same_apps m1 m2 -> same_apps m2 m3 -> same_apps m1 m3.
Proof. unfold same_apps. congruence. Qed.
Lemma same_store_refl m : same_store m m.
Proof. repeat split. Qed.
Lemma same_store_trans m1 m2 m3 : same_store m1 m2 -> same_store m2 m3 -> same_store m1 m3.
Proof. unfold same_store. intros (?&?&?) (?&?&?). repeat split; congruence. Qed.
Lemma same_record_refl app m : same_record app m m.
Proof. reflexivity. Qed.
Lemma same_record_trans app m1 m2 m3 :
  same_record app m1 m2 -> same_record app m2 m3 -> same_record app m1 m3.
Proof. unfold same_record. congruence. Qed.

Create HintDb frames.
#[local] Hint Resolve same_apps_refl same_apps_trans same_store_refl same_store_trans
  same_record_refl same_record_trans : frames.

(** One step of a frame proof: a rule of the monad, or a case analysis on
    what the program branches on. *)
Ltac frames_step :=
  match goal with
  | |- frames _ (ret _) => apply frames_ret; auto with frames
  | |- frames _ (raise _) => apply frames_raise; auto with frames
  | |- frames _ (of_result _) => apply frames_of_result; auto with frames
  | |- frames _ get_mach => apply frames_get_mach; auto with frames
  | |- frames _ (emit _) => apply frames_emit; auto with frames
  | |- frames _ (attempt _) => apply frames_attempt
  | |- frames _ (when_ _ _) => apply frames_when; [auto with frames|]
  | |- frames _ (for_each _ _) => apply frames_for_each; [auto with frames|eauto with frames|intros]
  | |- frames _ (bind _ _) => apply frames_bind; [eauto with frames| |intros]
  | |- frames _ (if ?b then _ else _) => destruct b
  | |- frames _ (match ?x with _ => _ end) => destruct x
  | |- frames _ (let (_, _) := ?x in _) => destruct x
  end.

Ltac frames_auto := repeat (first [ solve [eauto with frames] | frames_step ]).


(** *** Results *)

Lemma wp_ret {A : Type} (a : A) (Q : state -> result A -> Prop) s :
  Q s (Ok a) -> wp (ret a) Q s.
Proof. auto. Qed.

Lemma wp_raise {A : Type} (e : exn) (Q : state -> result A -> Prop) s :
  Q s (Raise e) -> wp (raise e) Q s.
Proof. auto. Qed.

Lemma wp_of_result {A : Type} (r : result A) (Q : state -> result A -> Prop) s :
  Q s r -> wp (of_result r) Q s.
Proof. auto. Qed.

Lemma wp_bind {A B : Type} (m : M A) (k : A -> M B) (Q : state -> result B -> Prop) s :
  wp m (fun s' r => match r with
                    | Ok a => wp (k a) Q s'
                    | Raise e => Q s' (Raise e)
                    end) s ->
  wp (bind m k) Q s.
Proof. unfold wp, bind. destruct (m s) as [s' [a|e]]; auto. Qed.

Lemma wp_get_mach (Q : state -> result machine -> Prop) s :
  Q s (Ok (mach s)) -> wp get_mach Q s.
Proof. auto. Qed.

Lemma wp_emit (e : event) (Q : state -> result unit -> Prop) s :
  Q {| mach := mach s; trace := (trace s ++ e :: nil)%list |} (Ok tt) -> wp (emit e) Q s.
Proof. auto. Qed.

Lemma wp_modify (f : machine -> machine) (Q : state -> result unit -> Prop) s :
  Q {| mach := f (mach s); trace := trace s |} (Ok tt) -> wp (modify_mach f) Q s.
Proof. auto. Qed.

Lemma wp_call {A : Type} (f : machine -> machine * result A)
    (Q : state -> result A -> Prop) s :
  Q {| mach := fst (f (mach s)); trace := trace s |} (snd (f (mach s))) -> wp (call f) Q s.
Proof. unfold wp, call. destruct (f (mach s)). auto. Qed.

Lemma wp_attempt {A : Type} (m : M A) (Q : state -> result (result A) -> Prop) s :
  wp m (fun s' r => Q s' (Ok r)) s -> wp (attempt m) Q s.
Proof. unfold wp, attempt. destruct (m s). auto. Qed.

Lemma wp_frames {A : Type} (R : machine -> machine -> Prop) (m : M A)
    (Q : state -> result A -> Prop) s :
  frames R m -> (forall s' r, R (mach s) (mach s') -> Q s' r) -> wp m Q s.
Proof. intros Hm HQ. apply HQ. apply Hm. Qed.

Lemma wp_weaken {A : Type} (m : M A) (Q Q' : state -> result A -> Prop) s :
  wp m Q s -> (forall s' r, Q s' r -> Q' s' r) -> wp m Q' s.
Proof. unfold wp. auto. Qed.

(** *** Traces *)

Lemma emits_silent {A : Type} (P : event -> Prop) (m : M A) :
  (forall s, trace (fst (m s)) = trace s) -> emits P m.
Proof. intros H s. exists nil. rewrite H, app_nil_r. auto. Qed.

Lemma emits_ret {A : Type} P (a : A) : emits P (ret a).
Proof. apply emits_silent. reflexivity. Qed.
Lemma emits_raise {A : Type} P (e : exn) : emits P (@raise A e).
Proof. apply emits_silent. reflexivity. Qed.
Lemma emits_of_result {A : Type} P (r : result A) : emits P (of_result r).
Proof. apply emits_silent. reflexivity. Qed.
Lemma emits_get_mach P : emits P get_mach.
Proof. apply emits_silent. reflexivity. Qed.
Lemma emits_modify P f : emits P (modify_mach f).
Proof. apply emits_silent. reflexivity. Qed.
Lemma emits_call {A : Type} P (f : machine -> machine * result A) : emits P (call f).
Proof. apply emits_silent. intros s. unfold call. destruct (f (mach s)). reflexivity. Qed.
Lemma emits_emit (P : event -> Prop) e : P e -> emits P (emit e).
Proof. intros He s. exists (e :: nil). split; [reflexivity|]. auto. Qed.

Lemma emits_bind {A B : Type} P (m : M A) (k : A -> M B) :
  emits P m -> (forall a, emits P (k a)) -> emits P (bind m k).
Proof.
  intros Hm Hk s. unfold bind. destruct (Hm s) as (n1 & H1 & F1).
  destruct (m s) as [s' [a|e]]; simpl in *; [|eauto].
  destruct (Hk a s') as (n2 & H2 & F2).
  exists (n1 ++ n2)%list. rewrite H2, H1, app_assoc. split; [reflexivity|].
  apply Forall_app. auto.
Qed.

Lemma emits_attempt {A : Type} P (m : M A) : emits P m -> emits P (attempt m).
Proof. intros Hm s. unfold attempt. specialize (Hm s). destruct (m s). exact Hm. Qed.

Lemma emits_when P b m : emits P m -> emits P (when_ b m).
Proof. intros Hm. destruct b; [exact Hm|apply emits_ret]. Qed.

Lemma emits_for_each {A : Type} P (l : list A) (body : A -> M unit) :
  (forall a, emits P (body a)) -> emits P (for_each l body).
Proof.
  intros Hb. induction l as [|a l IH]; simpl; [apply emits_ret|].
  apply emits_bind; auto.
Qed.

Ltac emits_step :=
  match goal with
  | |- emits _ (ret _) => apply emits_ret
  | |- emits _ (raise _) => apply emits_raise
  | |- emits _ (raise_failure _) => unfold raise_failure
  | |- emits _ (of_result _) => apply emits_of_result
  | |- emits _ get_mach => apply emits_get_mach
  | |- emits _ (modify_mach _) => apply emits_modify
  | |- emits _ (call _) => apply emits_call
  | |- emits _ (emit _) => apply emits_emit
  | |- emits _ (attempt _) => apply emits_attempt
  | |- emits _ (when_ _ _) => apply emits_when
  | |- emits _ (for_each _ _) => apply emits_for_each; intros
  | |- emits _ (bind _ _) => apply emits_bind; [|intros]
  | |- emits _ (if ?b then _ else _) => destruct b
  | |- emits _ (match ?x with _ => _ end) => destruct x
  | |- emits _ (let (_, _) := ?x in _) => destruct x
  end.

Ltac emits_auto :=
  repeat first [ emits_step
               | exact I
               | (intros ?; discriminate) ].





(** ** Settings *)

Section setting_facts.
Variable E : externals.

Lemma path_to_rewrite_lookup (st st' : gmap string pyobj) :
  st !! "path" = st' !! "path" -> path_to_rewrite st = path_to_rewrite st'.
Proof. unfold path_to_rewrite. intros ->. reflexivity. Qed.

Lemma endswith_single_cons a s c :
  endswith (String a s) (String c EmptyString)
  = match s with
    | EmptyString => Ascii.eqb a c
    | _ => endswith s (String c EmptyString)
    end.
Proof.
  destruct s as [|b r].
  - simpl. destruct (Ascii.eqb a c); reflexivity.
  - change (endswith (String a (String b r)) (String c EmptyString))
      with (String.eqb (String a (String b r)) (String c EmptyString)
            || endswith (String b r) (String c EmptyString)).
    simpl String.eqb. destruct (Ascii.eqb a c); reflexivity.
Qed.

Lemma rstrip_char_no_trailing c s :
  endswith (rstrip_char c s) (String c EmptyString) = false.
Proof.
  induction s as [|a s IH]; [reflexivity|].
  simpl rstrip_char.
  destruct (rstrip_char c s) as [|b r] eqn:Hr.
  - destruct (Ascii.eqb a c) eqn:Ha; [reflexivity|].
    rewrite endswith_single_cons. exact Ha.
  - rewrite endswith_single_cons. exact IH.
Qed.

Lemma repaired_path_is_normal (st : gmap string pyobj) (p : string) :
  path_to_rewrite (<["path" := VStr ("/" ++ strip_char "/" p)]> st) = Ok None.
Proof.
  unfold path_to_rewrite. rewrite lookup_insert_eq.
  unfold strip_char. set (r := rstrip_char "/" (lstrip_char "/" p)).
  assert (Hr : endswith r "/" = false) by apply rstrip_char_no_trailing.
  change ("/" ++ r) with (String "/" r).
  rewrite endswith_single_cons.
  destruct r as [|b r']; [reflexivity|].
  rewrite Hr. reflexivity.
Qed.

Lemma get_app_settings_readable app m t d st fixed :
  apps m !! app = Some d ->
  settings_yml d = Some st ->
  path_to_rewrite st = Ok fixed ->
  st !! "id" = Some (VStr app) ->
  _get_app_settings app {| mach := m; trace := t |}
  = ({| mach := read_repair app m; trace := t |}, Ok (repaired_settings st)).
Proof.
  intros Hd Hst Hfix Hid.
  unfold _get_app_settings, _is_installed, bind, get_mach, ret, read_repair, repaired_settings.
  unfold of_result.
  simpl. rewrite Hd. simpl. rewrite Hd. simpl. rewrite Hst, Hfix.
  destruct fixed as [p|]; simpl.
  - unfold _set_app_settings, bind, get_mach, modify_mach. simpl. rewrite Hd. simpl.
    rewrite lookup_insert_ne by discriminate. rewrite Hid. simpl.
    rewrite String.eqb_refl. reflexivity.
  - rewrite Hid. simpl. rewrite String.eqb_refl. reflexivity.
Qed.

Lemma read_repair_lookup app m d st fixed :
  apps m !! app = Some d ->
  settings_yml d = Some st ->
  path_to_rewrite st = Ok fixed ->
  apps (read_repair app m) !! app
  = Some {| settings_yml := Some (repaired_settings st); dir_files := dir_files d |}.
Proof.
  intros Hd Hst Hfix. unfold read_repair, repaired_settings. rewrite Hd, Hst, Hfix.
  destruct fixed as [p|]; simpl.
  - apply lookup_insert_eq.
  - rewrite Hd. destruct d; simpl in *; congruence.
Qed.

Lemma repaired_settings_normal st fixed :
  path_to_rewrite st = Ok fixed -> path_to_rewrite (repaired_settings st) = Ok None.
Proof.
  intros Hfix. unfold repaired_settings. rewrite Hfix.
  destruct fixed as [p|]; [|exact Hfix].
  unfold path_to_rewrite in Hfix.
  destruct (st !! "path") as [[]|]; try discriminate.
  destruct (negb _ && _); [|discriminate]. injection Hfix as <-.
  apply repaired_path_is_normal.
Qed.

Lemma repaired_settings_id st : repaired_settings st !! "id" = st !! "id".
Proof.
  unfold repaired_settings. destruct (path_to_rewrite st) as [[p|]|]; auto.
  apply lookup_insert_ne. discriminate.
Qed.

Lemma get_app_settings_stored app m t d st fixed :
  apps m !! app = Some d ->
  settings_yml d = Some st ->
  path_to_rewrite st = Ok fixed ->
  exists t',
    _get_app_settings app {| mach := m; trace := t |}
    = ({| mach := read_repair app m; trace := t' |},
       Ok (checked_settings app (repaired_settings st))).
Proof.
  intros Hd Hst Hfix.
  unfold _get_app_settings, _is_installed, bind, get_mach, ret, read_repair,
    repaired_settings, checked_settings.
  unfold of_result.
  simpl. rewrite Hd. simpl. rewrite Hd. simpl. rewrite Hst, Hfix.
  destruct fixed as [p|]; simpl.
  - unfold _set_app_settings, bind, get_mach, modify_mach. simpl. rewrite Hd. simpl.
    destruct (<["path" := VStr p]> st !! "id") as [v|]; simpl.
    + destruct (value_is_str v app); eauto.
    + unfold emit. simpl. eauto.
  - destruct (st !! "id") as [v|]; simpl.
    + destruct (value_is_str v app); eauto.
    + unfold emit. simpl. eauto.
Qed.

Lemma read_repair_normal app m d st :
  apps m !! app = Some d ->
  settings_yml d = Some st ->
  path_to_rewrite st = Ok None ->
  read_repair app m = m /\ repaired_settings st = st.
Proof.
  intros Hd Hst Hfix. unfold read_repair, repaired_settings. rewrite Hd, Hst, Hfix. auto.
Qed.

Lemma checked_settings_ok app st :
  st !! "id" = Some (VStr app) -> checked_settings app st = st.
Proof.
  intros H. unfold checked_settings. rewrite H. simpl. rewrite String.eqb_refl. reflexivity.
Qed.

Lemma checked_settings_lookup_None app st key :
  st !! key = None -> checked_settings app st !! key = None.
Proof.
  intros H. unfold checked_settings.
  destruct (st !! "id") as [v|]; [destruct (value_is_str v app)|]; auto.
Qed.

(** Writing a regular setting. *)
Lemma app_setting_set_regular app key value m t d st fixed :
  apps m !! app = Some d ->
  settings_yml d = Some st ->
  st !! "id" = Some (VStr app) ->
  path_to_rewrite st = Ok fixed ->
  is_legacy_permission_setting key = false ->
  value <> VNone ->
  key <> "redirected_urls" -> key <> "redirected_regex" ->
  exists t',
    app_setting E app key value false {| mach := m; trace := t |}
    = ({| mach := set_apps (insert app
                     {| settings_yml := Some (<[key := value]> (repaired_settings st));
                        dir_files := dir_files d |}) (read_repair app m);
          trace := t' |}, Ok VNone).
Proof.
  intros Hd Hst Hid Hfix Hleg Hv Hk1 Hk2.
  destruct (get_app_settings_stored app m t d st fixed Hd Hst Hfix) as [t' Hget].
  exists t'. unfold app_setting, bind. rewrite Hget, Hleg.
  rewrite checked_settings_ok by (rewrite repaired_settings_id; exact Hid).
  assert (Hn : is_None value = false) by (destruct value; simpl; congruence).
  rewrite Hn. simpl.
  rewrite bool_decide_false.
  2:{ rewrite !elem_of_cons, elem_of_nil. tauto. }
  unfold ret, _set_app_settings, bind, get_mach, modify_mach. simpl.
  rewrite (read_repair_lookup app m d st fixed Hd Hst Hfix). simpl. reflexivity.
Qed.

(** Deleting a regular setting. *)
Lemma app_setting_delete_regular app key m t d st fixed :
  apps m !! app = Some d ->
  settings_yml d = Some st ->
  path_to_rewrite st = Ok fixed ->
  is_legacy_permission_setting key = false ->
  exists t',
    app_setting E app key VNone true {| mach := m; trace := t |}
    = ({| mach := set_apps (insert app
                     {| settings_yml :=
                          Some (delete key (checked_settings app (repaired_settings st)));
                        dir_files := dir_files d |}) (read_repair app m);
          trace := t' |}, Ok VNone).
Proof.
  intros Hd Hst Hfix Hleg.
  destruct (get_app_settings_stored app m t d st fixed Hd Hst Hfix) as [t' Hget].
  exists t'. unfold app_setting, bind. rewrite Hget, Hleg. simpl.
  unfold ret, _set_app_settings, bind, get_mach, modify_mach. simpl.
  rewrite (read_repair_lookup app m d st fixed Hd Hst Hfix). simpl. reflexivity.
Qed.

(** Reading a regular setting. *)
Lemma app_setting_get_regular app key m t d st fixed :
  apps m !! app = Some d ->
  settings_yml d = Some st ->
  path_to_rewrite st = Ok fixed ->
  is_legacy_permission_setting key = false ->
  exists s',
    app_setting E app key VNone false {| mach := m; trace := t |}
    = (s', Ok (default VNone (checked_settings app (repaired_settings st) !! key))).
Proof.
  intros Hd Hst Hfix Hleg.
  destruct (get_app_settings_stored app m t d st fixed Hd Hst Hfix) as [t' Hget].
  eexists. unfold app_setting, bind. rewrite Hget, Hleg. simpl. reflexivity.
Qed.

(** C9, as the code has it.  For an installed application whose record
    is readable (a settings mapping with the id of the application, and a
    path that is a text when there is one) and a key that is not one of
    the legacy permission settings: reading after deleting gives [None],
    and reading after writing a value other than [None] gives that value
    back, provided the key is not [id], [redirected_urls] or
    [redirected_regex] and, for the key [path], the value is a path in
    normal form. *)
Theorem regular_setting_round_trip (app key : string) (value : pyobj) (m : machine)
    (t : list event) (d : app_dir) (st : gmap string pyobj) (fixed : option string) :
  apps m !! app = Some d ->
  settings_yml d = Some st ->
  st !! "id" = Some (VStr app) ->
  path_to_rewrite st = Ok fixed ->
  is_legacy_permission_setting key = false ->
  (value <> VNone ->
   key <> "id" -> key <> "redirected_urls" -> key <> "redirected_regex" ->
   (key = "path" -> path_to_rewrite {[ "path" := value ]} = Ok None) ->
   exists s1 s2,
     app_setting E app key value false {| mach := m; trace := t |} = (s1, Ok VNone)
     /\ app_setting E app key VNone false s1 = (s2, Ok value))
  /\ (exists s1 s2,
        app_setting E app key VNone true {| mach := m; trace := t |} = (s1, Ok VNone)
        /\ app_setting E app key VNone false s1 = (s2, Ok VNone)).
Proof.
  intros Hd Hst Hid Hfix Hleg.
  pose proof (repaired_settings_normal st fixed Hfix) as Hnorm.
  split.
  - intros Hv Hkid Hk1 Hk2 Hpath.
    destruct (app_setting_set_regular app key value m t d st fixed) as [t1 Hset]; auto.
    set (st2 := <[key := value]> (repaired_settings st)) in *.
    assert (Hfix2 : path_to_rewrite st2 = Ok None).
    { destruct (decide (key = "path")) as [->|Hne].
      - rewrite <- (Hpath eq_refl). apply path_to_rewrite_lookup.
        unfold st2. rewrite !lookup_insert_eq. reflexivity.
      - rewrite <- Hnorm. apply path_to_rewrite_lookup.
        unfold st2. apply lookup_insert_ne. exact Hne. }
    destruct (app_setting_get_regular app key
                (set_apps (insert app {| settings_yml := Some st2; dir_files := dir_files d |})
                          (read_repair app m))
                t1 {| settings_yml := Some st2; dir_files := dir_files d |} st2 None)
      as [s2 Hget];
      [simpl; apply lookup_insert_eq | reflexivity | exact Hfix2 | exact Hleg |].
    eexists _, s2. split; [exact Hset|]. rewrite Hget. f_equal. f_equal.
    unfold repaired_settings. rewrite Hfix2.
    rewrite checked_settings_ok.
    + unfold st2. rewrite lookup_insert_eq. reflexivity.
    + unfold st2. rewrite lookup_insert_ne by congruence.
      rewrite repaired_settings_id. exact Hid.
  - destruct (app_setting_delete_regular app key m t d st fixed) as [t1 Hdel]; auto.
    set (st2 := delete key (checked_settings app (repaired_settings st))) in *.
    assert (Hfix2 : path_to_rewrite st2 = Ok None).
    { destruct (decide (key = "path")) as [->|Hne].
      - unfold path_to_rewrite, st2. rewrite lookup_delete_eq. reflexivity.
      - rewrite <- Hnorm. apply path_to_rewrite_lookup.
        unfold st2. rewrite lookup_delete_ne by exact Hne.
        rewrite checked_settings_ok; [reflexivity|].
        rewrite repaired_settings_id. exact Hid. }
    destruct (app_setting_get_regular app key
                (set_apps (insert app {| settings_yml := Some st2; dir_files := dir_files d |})
                          (read_repair app m))
                t1 {| settings_yml := Some st2; dir_files := dir_files d |} st2 None)
      as [s2 Hget];
      [simpl; apply lookup_insert_eq | reflexivity | exact Hfix2 | exact Hleg |].
    eexists _, s2. split; [exact Hdel|]. rewrite Hget. f_equal. f_equal.
    unfold repaired_settings. rewrite Hfix2.
    rewrite checked_settings_lookup_None; [reflexivity|].
    unfold st2. apply lookup_delete_eq.
Qed.

End setting_facts.

Lemma regular_setting_round_trip_witness :
  exists s1 s2,
    app_setting Examples.quiet_externals "blog" "color" (VStr "red") false
      (Examples.blog_state "/blog") = (s1, Ok VNone)
    /\ app_setting Examples.quiet_externals "blog" "color" VNone false s1
       = (s2, Ok (VStr "red")).
Proof.
  destruct (regular_setting_round_trip Examples.quiet_externals "blog" "color" (VStr "red")
              (Examples.blog_machine "/blog") nil
              {| settings_yml := Some {[ "id" := VStr "blog"; "path" := VStr "/blog" ]};
                 dir_files := empty_package |}
              {[ "id" := VStr "blog"; "path" := VStr "/blog" ]} None)
    as [H _]; try (vm_compute; reflexivity).
  apply H; try discriminate.
Defined.

(** A path written in old form is read back in normal form, and a legacy
    permission setting written as [/] is read back as [None]. *)
Lemma setting_not_read_back :
  snd (app_setting Examples.quiet_externals "blog" "path" VNone false
         (fst (app_setting Examples.quiet_externals "blog" "path" (VStr "blog/") false
                 (Examples.blog_state "/blog"))))
  = Ok (VStr "/blog")
  /\ snd (app_setting Examples.quiet_externals "blog" "unprotected_uris" VNone false
            (fst (app_setting Examples.quiet_externals "blog" "unprotected_uris"
                    (VStr "/") false (Examples.blog_state "/blog"))))
     = Ok VNone.
Proof. split; vm_compute; reflexivity. Qed.

Lemma frames_set_perms_same_apps f : frames same_apps (modify_mach (set_perms f)).
Proof. apply frames_modify. reflexivity. Qed.
#[local] Hint Resolve frames_set_perms_same_apps : frames.

Lemma frames_user_permission_list R apps_ :
  (forall m, R m m) -> (forall m1 m2 m3, R m1 m2 -> R m2 m3 -> R m1 m3) ->
  frames R (user_permission_list apps_).
Proof. intros. unfold user_permission_list. frames_auto. Qed.

Lemma frames_update_permission name f : frames same_apps (update_permission name f).
Proof. unfold update_permission. frames_auto. Qed.
#[local] Hint Resolve frames_update_permission : frames.

Lemma frames_permission_create name p : frames same_apps (permission_create name p).
Proof. unfold permission_create. frames_auto. Qed.

Lemma frames_permission_delete name force : frames same_apps (permission_delete name force).
Proof. unfold permission_delete. frames_auto. Qed.
#[local] Hint Resolve frames_user_permission_list frames_permission_create
  frames_permission_delete : frames.

Lemma frames_legacy_permission_setting E app key value delete app_settings :
  frames same_apps (legacy_permission_setting E app key value delete app_settings).
Proof.
  unfold legacy_permission_setting, user_permission_update, permission_url.
  frames_auto.
Qed.

Lemma get_app_settings_apps app m t :
  apps (mach (fst (_get_app_settings app {| mach := m; trace := t |})))
  = apps (read_repair app m).
Proof.
  unfold _get_app_settings, _is_installed, bind, get_mach, ret, raise, read_repair, of_result.
  simpl. destruct (apps m !! app) as [d|] eqn:Hd; simpl; [|reflexivity].
  rewrite Hd. simpl.
  destruct (settings_yml d) as [st|]; simpl; [|reflexivity].
  destruct (path_to_rewrite st) as [[p|]|]; simpl; [| |reflexivity].
  - unfold _set_app_settings, bind, get_mach, modify_mach. simpl. rewrite Hd. simpl.
    destruct (<["path" := VStr p]> st !! "id") as [v|]; [destruct (value_is_str v app)|];
      reflexivity.
  - destruct (st !! "id") as [v|]; [destruct (value_is_str v app)|]; reflexivity.
Qed.

(** C10, as the code has it.  An operation on a legacy permission
    setting never reaches the settings-write step of [app_setting]: the
    records are left as the read of the settings at its start leaves them,
    that is, unchanged but for a stored path in old form, which that read
    rewrites in normal form; with no such path nothing is modified. *)
Theorem legacy_setting_keeps_records (E : externals) (app key : string) (value : pyobj)
    (delete : bool) (m : machine) (t : list event) :
  is_legacy_permission_setting key = true ->
  apps (mach (fst (app_setting E app key value delete {| mach := m; trace := t |})))
  = apps (read_repair app m)
  /\ ((forall d st p, apps m !! app = Some d -> settings_yml d = Some st ->
                     path_to_rewrite st <> Ok (Some p)) ->
      apps (mach (fst (app_setting E app key value delete {| mach := m; trace := t |})))
      = apps m).
Proof.
  intros Hleg.
  assert (H : apps (mach (fst (app_setting E app key value delete
                                 {| mach := m; trace := t |})))
              = apps (read_repair app m)).
  { rewrite <- (get_app_settings_apps app m t).
    unfold app_setting, bind.
    destruct (_get_app_settings app {| mach := m; trace := t |}) as [s1 [st|e]];
      [|reflexivity].
    rewrite Hleg. simpl.
    symmetry. apply (frames_legacy_permission_setting E app key value delete st s1). }
  split; [exact H|].
  intros Hnorm. rewrite H. unfold read_repair.
  destruct (apps m !! app) as [d|] eqn:Hd; [|reflexivity].
  destruct (settings_yml d) as [st|] eqn:Hst; [|reflexivity].
  destruct (path_to_rewrite st) as [[p|]|] eqn:Hp; try reflexivity.
  exfalso. exact (Hnorm d st p eq_refl Hst Hp).
Qed.


Lemma legacy_setting_keeps_records_witness :
  apps (mach (fst (app_setting Examples.quiet_externals "blog" "skipped_uris"
                             (VStr "/api") false (Examples.blog_state "/blog/"))))
  = apps (read_repair "blog" (Examples.blog_machine "/blog/")).
Proof.
  apply (legacy_setting_keeps_records Examples.quiet_externals "blog" "skipped_uris"
           (VStr "/api") false (Examples.blog_machine "/blog/") nil).
  reflexivity.
Defined.

(** Reading a legacy permission setting of an application stored with a
    path in old form rewrites its [settings.yml]. *)
Lemma legacy_setting_rewrites_path :
  (apps (Examples.blog_machine "/blog/") !! "blog") ≫= settings_yml
  = Some {[ "id" := VStr "blog"; "path" := VStr "/blog/" ]}
  /\ (apps (mach (fst (app_setting Examples.quiet_externals "blog"
                                 "unprotected_uris" VNone false
                                 (Examples.blog_state "/blog/")))) !! "blog")
       ≫= settings_yml
     = Some {[ "id" := VStr "blog"; "path" := VStr "/blog" ]}.
Proof. split; vm_compute; reflexivity. Qed.


(** ** Install *)

Section install_facts.
Variable E : externals.

(** The health check touches the host only, and reports with errors of
    the application, never with an interrupt. *)
Lemma health_check_store manifest when m :
  same_store m (fst (health_check E manifest when m)).
Proof. repeat split. Qed.

Lemma health_check_error manifest when m e :
  snd (health_check E manifest when m) = Raise e -> is_Exception e = true.
Proof.
  unfold health_check. simpl.
  repeat match goal with
         | |- context [match ?x with _ => _ end] => destruct x
         end; intros [= <-]; reflexivity.
Qed.

Lemma permission_delete_present name s p :
  perms (mach s) !! name = Some p ->
  permission_delete name true s
  = ({| mach := set_perms (delete name) (mach s); trace := trace s |}, Ok tt).
Proof.
  intros Hp. unfold permission_delete, bind, get_mach. simpl.
  rewrite Hp. rewrite bool_decide_true by eauto. simpl.
  rewrite andb_false_r. reflexivity.
Qed.

(** The loop that deletes the permissions of a failed install: of the
    names [l], those starting with [prefix] are gone afterwards, and
    nothing else has changed. *)
Lemma delete_permissions_loop (prefix : string) (l : list string) : forall s,
  NoDup l ->
  (forall k, k ∈ l -> is_Some (perms (mach s) !! k)) ->
  exists s',
    for_each l (fun permission_name =>
                  when_ (startswith permission_name prefix)
                        (permission_delete permission_name true)) s = (s', Ok tt)
    /\ apps (mach s') = apps (mach s)
    /\ forall k, perms (mach s') !! k
                 = if bool_decide (k ∈ l) && startswith k prefix then None
                   else perms (mach s) !! k.
Proof.
  set (body := fun permission_name =>
                 when_ (startswith permission_name prefix)
                       (permission_delete permission_name true)).
  induction l as [|a l IH]; intros s Hnd Hin.
  - exists s. repeat split.
  - apply NoDup_cons in Hnd. destruct Hnd as [Hna Hnd].
    change (for_each (a :: l) body s) with (bind (body a) (fun _ => for_each l body) s).
    unfold bind. unfold body at 1.
    destruct (startswith a prefix) eqn:Hp; unfold when_.
    + destruct (Hin a) as [pa Hpa]; [left|].
      rewrite (permission_delete_present a s pa Hpa).
      destruct (IH {| mach := set_perms (delete a) (mach s); trace := trace s |})
        as (s' & Hrun & Happs & Hperms); [exact Hnd| |].
      { intros k Hk. simpl. rewrite lookup_delete_ne by (intros ->; contradiction).
        apply Hin. right. exact Hk. }
      exists s'. split; [exact Hrun|]. split; [rewrite Happs; reflexivity|].
      intros k. rewrite Hperms. simpl.
      destruct (decide (k = a)) as [->|Hne].
      * rewrite (bool_decide_true (a ∈ a :: l)) by left. rewrite Hp. simpl.
        rewrite lookup_delete_eq. destruct (bool_decide (a ∈ l) && true); reflexivity.
      * rewrite lookup_delete_ne by congruence.
        rewrite (bool_decide_ext (k ∈ a :: l) (k ∈ l)); [reflexivity|].
        rewrite elem_of_cons. tauto.
    + destruct (IH s) as (s' & Hrun & Happs & Hperms); [exact Hnd| |].
      { intros k Hk. apply Hin. right. exact Hk. }
      unfold ret. exists s'. split; [exact Hrun|]. split; [exact Happs|].
      intros k. rewrite Hperms.
      destruct (decide (k = a)) as [->|Hne].
      * rewrite Hp, !andb_false_r. reflexivity.
      * rewrite (bool_decide_ext (k ∈ a :: l) (k ∈ l)); [reflexivity|].
        rewrite elem_of_cons. tauto.
Qed.

Lemma raise_failure_raises {A : Type} msg s :
  exists e, @raise_failure A msg s = (s, Raise e).
Proof. destruct msg; simpl; eauto. Qed.

(** The check after a clean removal never stops the removal. *)
Lemma removal_check_passes (c : install_context) (remove_retcode : Z) s :
  exists s1,
    (if negb (remove_retcode =? 0) then
       emit (EvLog "warning" "app_not_properly_removed" (ic_app_instance_name c :: nil))
     else
       checked <- attempt (_assert_system_is_sane_for_app E (ic_manifest c) "post") ;;
       match checked with
       | Raise e => if is_Exception e then ret tt else raise e
       | Ok _ => ret tt
       end) s = (s1, Ok tt)
    /\ same_store (mach s) (mach s1).
Proof.
  destruct (negb (remove_retcode =? 0)).
  - eexists. split; [reflexivity|]. repeat split.
  - pose proof (health_check_error (ic_manifest c) "post" (mach s)) as Herr.
    pose proof (health_check_store (ic_manifest c) "post" (mach s)) as Hst.
    unfold _assert_system_is_sane_for_app, bind, attempt, emit, call.
    cbn [mach trace].
    destruct (health_check E (ic_manifest c) "post" (mach s)) as [m1 [[]|e]].
    + eexists. split; [reflexivity|]. exact Hst.
    + cbn [snd] in Herr. rewrite (Herr e eq_refl). eexists. split; [reflexivity|]. exact Hst.
Qed.

(** The end of the removal: whatever the remove script returned, the
    record goes and an error is raised. *)
Lemma rollback_tail (c : install_context) (msg : option string) (remove_retcode : Z) s :
  no_permission_of (ic_app_instance_name c) (mach s) ->
  wp ((if negb (remove_retcode =? 0) then
         emit (EvLog "warning" "app_not_properly_removed" (ic_app_instance_name c :: nil))
       else
         checked <- attempt (_assert_system_is_sane_for_app E (ic_manifest c) "post") ;;
         match checked with
         | Raise e => if is_Exception e then ret tt else raise e
         | Ok _ => ret tt
         end) ;;
      rmtree_app (ic_app_instance_name c) ;;
      rmtree_tmp (ic_extracted_app_folder c) ;;
      permission_sync_to_user ;;
      raise_failure msg)
     (rolled_back (ic_app_instance_name c)) s.
Proof.
  intros Hperm.
  destruct (removal_check_passes c remove_retcode s) as (s1 & Hrun & Hs1 & Hp1 & _).
  assert (Hperm1 : no_permission_of (ic_app_instance_name c) (mach s1)).
  { intros p Hp. rewrite <- Hp1. apply Hperm. exact Hp. }
  apply wp_bind. unfold wp at 1. rewrite Hrun. cbn [fst snd].
  apply wp_bind. unfold rmtree_app. apply wp_bind, wp_get_mach.
  destruct (apps (mach s1) !! ic_app_instance_name c) as [d|] eqn:Hd.
  - rewrite bool_decide_true by eauto. apply wp_modify.
    apply wp_bind. unfold rmtree_tmp. apply wp_bind, wp_get_mach. cbn [mach trace].
    destruct (bool_decide (is_Some _)).
    + apply wp_modify. apply wp_bind, wp_ret.
      destruct msg; apply wp_raise; (split; [eauto|]);
        (split; [apply lookup_delete_eq|exact Hperm1]).
    + apply wp_raise. split; [eauto|]. split; [apply lookup_delete_eq|exact Hperm1].
  - rewrite bool_decide_false by (intros [? ?]; discriminate).
    apply wp_raise. split; [eauto|]. split; [exact Hd|exact Hperm1].
Qed.

(** The removal after a failed install leaves neither the record nor a
    permission of the application, provided the environment of the remove
    script can be built from the record as the install script left it. *)
Lemma rollback_spec (c : install_context) (msg : option string) (m : machine)
    (t : list event) (env : gmap string string) :
  environment_for_app_script E (apps m) (ic_app_instance_name c) nil
    (Some (ic_extracted_app_folder c)) = Ok env ->
  wp (remove_after_failed_install E c msg) (rolled_back (ic_app_instance_name c))
     {| mach := m; trace := t |}.
Proof.
  intros Henv. unfold remove_after_failed_install.
  apply wp_bind, wp_emit. simpl.
  apply wp_bind. unfold _make_environment_for_app_script.
  apply wp_bind, wp_get_mach. simpl. rewrite Henv. apply wp_of_result.
  apply wp_bind, wp_emit. simpl.
  apply wp_bind, wp_attempt, wp_call. simpl.
  set (removed := hook_exec E _ _ _ m).
  set (s2 := {| mach := fst removed; trace := _ |}).
  assert (Hrest : forall remove_retcode s3, mach s3 = mach s2 ->
    wp (permissions <- user_permission_list nil ;;
        for_each (map fst (map_to_list permissions)) (fun permission_name =>
          when_ (startswith permission_name (ic_app_instance_name c ++ "."))
                (permission_delete permission_name true)) ;;
        (if negb (remove_retcode =? 0) then
           emit (EvLog "warning" "app_not_properly_removed" (ic_app_instance_name c :: nil))
         else
           checked <- attempt (_assert_system_is_sane_for_app E (ic_manifest c) "post") ;;
           match checked with
           | Raise e => if is_Exception e then ret tt else raise e
           | Ok _ => ret tt
           end) ;;
        rmtree_app (ic_app_instance_name c) ;;
        rmtree_tmp (ic_extracted_app_folder c) ;;
        permission_sync_to_user ;;
        raise_failure msg) (rolled_back (ic_app_instance_name c)) s3).
  { intros remove_retcode s3 Hs3.
    apply wp_bind. unfold user_permission_list. apply wp_bind, wp_get_mach. simpl.
    apply wp_ret.
    destruct (delete_permissions_loop (ic_app_instance_name c ++ ".")
                (map fst (map_to_list (perms (mach s3)))) s3)
      as (s4 & Hrun & Happs & Hperms).
    { apply NoDup_fst_map_to_list. }
    { intros k Hk. apply list_elem_of_fmap in Hk. destruct Hk as ([k' v] & -> & Hk).
      apply elem_of_map_to_list in Hk. simpl. eauto. }
    apply wp_bind. unfold wp at 1. rewrite Hrun. simpl.
    apply rollback_tail.
    intros p Hp. rewrite Hperms, Hp, andb_true_r.
    case_bool_decide as Hin; [reflexivity|].
    apply not_elem_of_dom. intros Hd. apply Hin.
    apply elem_of_dom in Hd. destruct Hd as [v Hv].
    apply list_elem_of_fmap. exists (p, v). split; [reflexivity|].
    apply elem_of_map_to_list. exact Hv. }
  destruct (snd removed) as [retcode|e].
  - apply wp_bind, wp_ret. apply Hrest. reflexivity.
  - apply wp_bind, wp_bind, wp_emit. simpl. apply wp_ret. apply Hrest. reflexivity.
Qed.

Lemma emits_health_check manifest when :
  emits any_event (_assert_system_is_sane_for_app E manifest when).
Proof. unfold _assert_system_is_sane_for_app. emits_auto. Qed.

Lemma emits_rmtree_app P app : emits P (rmtree_app app).
Proof. unfold rmtree_app. emits_auto. Qed.
Lemma emits_rmtree_tmp P folder : emits P (rmtree_tmp folder).
Proof. unfold rmtree_tmp. emits_auto. Qed.
Lemma emits_permission_delete P name force : emits P (permission_delete name force).
Proof. unfold permission_delete. emits_auto. Qed.
Lemma emits_user_permission_list P apps_ : emits P (user_permission_list apps_).
Proof. unfold user_permission_list. emits_auto. Qed.
Lemma emits_make_environment P app args workdir :
  emits P (_make_environment_for_app_script E app args workdir).
Proof. unfold _make_environment_for_app_script. emits_auto. Qed.

Lemma emits_report_modified before : emits not_a_check (report_manually_modified_files before).
Proof. unfold report_manually_modified_files. emits_auto. Qed.

Lemma wp_report_modified before (Q : state -> result unit -> Prop) s :
  (forall t', Q {| mach := mach s; trace := t' |} (Ok tt)) ->
  wp (report_manually_modified_files before) Q s.
Proof.
  intros HQ. unfold report_manually_modified_files.
  apply wp_bind, wp_get_mach.
  destruct (List.filter _ _); [apply wp_ret; destruct s; apply HQ|apply wp_emit, HQ].
Qed.

Lemma broken_install_ends (c : install_context) (no_remove_on_failure : bool)
    (failure_message : option string) (m1 m2 : machine) (t : list event) :
  same_store m1 m2 ->
  (no_remove_on_failure = false ->
   exists env, environment_for_app_script E (apps m1) (ic_app_instance_name c) nil
                 (Some (ic_extracted_app_folder c)) = Ok env) ->
  wp (if no_remove_on_failure then
        raise (YunohostError ("The installation of " ++ ic_app_id c
          ++ " failed, but was not cleaned up as requested by --no-remove-on-failure."))
      else remove_after_failed_install E c failure_message)
     (broken_install_outcome c no_remove_on_failure m1)
     {| mach := m2; trace := t |}.
Proof.
  intros Hst Henv. unfold broken_install_outcome.
  destruct no_remove_on_failure.
  - apply wp_raise. split; [eauto|exact Hst].
  - destruct (Henv eq_refl) as [env He].
    destruct Hst as (Ha & _ & _). rewrite Ha in He.
    eapply wp_weaken; [apply (rollback_spec c failure_message m2 t env He)|].
    intros s' r (Hr & Hrec & Hperm). auto.
Qed.

Lemma install_execute_broken (c : install_context) (no_remove_on_failure : bool)
    (m m1 : machine) (t : list event) (ran : result (bool * string)) :
  hook_exec_with_script_debug_if_failure E
    (ic_extracted_app_folder c ++ "/scripts/install") (ic_env_dict c) m = (m1, ran) ->
  breaks E (ic_manifest c) m1 ran ->
  (no_remove_on_failure = false ->
   exists env, environment_for_app_script E (apps m1) (ic_app_instance_name c) nil
                 (Some (ic_extracted_app_folder c)) = Ok env) ->
  wp (install_execute E c no_remove_on_failure)
     (broken_install_outcome c no_remove_on_failure m1)
     {| mach := m; trace := t |}.
Proof.
  intros Hrun Hbreak Henv. unfold install_execute.
  apply wp_bind, wp_emit. cbn [mach trace].
  apply wp_bind, wp_attempt, wp_call. cbn [mach trace]. rewrite Hrun. cbn [fst snd].
  destruct (script_failed ran) eqn:Hfail.
  - (* the script failed: no check, straight to the removal *)
    assert (Hf : match ran with Ok (failed, _) => failed | Raise _ => true end = true)
      by exact Hfail.
    rewrite Hf. cbn [negb].
    apply wp_bind, wp_ret. apply wp_bind, wp_report_modified. intros t'. cbn [mach].
    apply wp_bind. cbn [orb].
    eapply wp_weaken; [apply broken_install_ends; [apply same_store_refl|exact Henv]|].
    intros s' r [[e ->] H]. split; [eauto|exact H].
  - (* the script passed: the health check fails *)
    destruct Hbreak as [Hb|[e He]]; [congruence|].
    assert (Hf : match ran with Ok (failed, _) => failed | Raise _ => true end = false)
      by exact Hfail.
    rewrite Hf. cbn [negb].
    apply wp_bind, wp_bind, wp_attempt. unfold _assert_system_is_sane_for_app.
    apply wp_bind, wp_emit. cbn [mach trace]. apply wp_call. cbn [mach trace].
    pose proof (health_check_store (ic_manifest c) "post" m1) as Hst.
    pose proof (health_check_error (ic_manifest c) "post" m1 e He) as Hexn.
    rewrite He. rewrite Hexn.
    apply wp_bind, wp_emit. cbn [mach trace]. apply wp_ret.
    apply wp_bind, wp_report_modified. intros t'. cbn [mach].
    apply wp_bind. rewrite orb_true_r.
    eapply wp_weaken; [apply broken_install_ends; [exact Hst|exact Henv]|].
    intros s' r [[e' ->] H]. split; [eauto|exact H].
Qed.

(** X26 (install).  When the install script fails, or the health check
    that follows it does, and the environment of the remove script can be
    built from the record the install script left, [app_install] ends
    with an error and the instance is absent: its record is deleted and
    so are all its permissions, whatever the remove script does.  Under
    the debug flag nothing is removed: records, permissions and scratch
    directories are as the install script left them. *)
Theorem failed_install_is_rolled_back (app : string) (label args : option string)
    (no_remove_on_failure force : bool) (m0 : machine) (t0 : list event)
    (s : state) (c : install_context) (m1 : machine) (ran : result (bool * string)) :
  install_prepare E app label args force {| mach := m0; trace := t0 |} = (s, Ok c) ->
  hook_exec_with_script_debug_if_failure E
    (ic_extracted_app_folder c ++ "/scripts/install") (ic_env_dict c) (mach s) = (m1, ran) ->
  breaks E (ic_manifest c) m1 ran ->
  (no_remove_on_failure = false ->
   exists env, environment_for_app_script E (apps m1) (ic_app_instance_name c) nil
                 (Some (ic_extracted_app_folder c)) = Ok env) ->
  exists s' e,
    app_install E app label args no_remove_on_failure force {| mach := m0; trace := t0 |}
    = (s', Raise e)
    /\ if no_remove_on_failure then same_store m1 (mach s')
       else apps (mach s') !! ic_app_instance_name c = None
            /\ no_permission_of (ic_app_instance_name c) (mach s').
Proof.
  intros Hprep Hrun Hbreak Henv.
  unfold app_install, bind. rewrite Hprep.
  destruct s as [m t]. cbn [mach] in Hrun.
  pose proof (install_execute_broken c no_remove_on_failure m m1 t ran Hrun Hbreak Henv) as H.
  unfold wp, broken_install_outcome in H.
  destruct (install_execute E c no_remove_on_failure {| mach := m; trace := t |}) as [s' r].
  cbn [fst snd] in H. destruct H as [[e ->] H].
  exists s', e. split; [reflexivity|exact H].
Qed.










Lemma emits_remove_after_failed_install c msg :
  emits any_event (remove_after_failed_install E c msg).
Proof.
  unfold remove_after_failed_install, user_permission_list, permission_delete, rmtree_app,
    rmtree_tmp, permission_sync_to_user, _assert_system_is_sane_for_app,
    _make_environment_for_app_script.
  emits_auto.
Qed.


End install_facts.

Lemma failed_install_is_rolled_back_witness :
  exists s' e,
    app_install (Examples.failing_externals 0) "demo" None None false false
      Examples.fresh_state = (s', Raise e)
    /\ apps (mach s') !! "demo" = None
    /\ no_permission_of "demo" (mach s').
Proof.
  apply (failed_install_is_rolled_back (Examples.failing_externals 0) "demo" None None
           false false Examples.fresh_machine nil (fst Examples.demo_prepared)
           Examples.demo_context (mach (fst Examples.demo_prepared))
           (Ok (true, "the install script failed"))).
  - vm_compute. reflexivity.
  - vm_compute. reflexivity.
  - left. reflexivity.
  - intros _. eexists. vm_compute. reflexivity.
Defined.

(** C1, at the failing input.  The install script of [demo] fails after
    it has deleted the manifest copied to the record.  The removal that
    follows stops where it builds the environment of the remove script,
    which reads this manifest: [app_install] raises the error of the
    missing manifest, the remove script is not called, and the instance
    is still there, with its record and its main permission. *)
Theorem failed_install_leaves_instance :
  let run := app_install Examples.manifest_dropping_externals "demo" None None false false
               Examples.fresh_state in
  (forall path env m,
      script_failed (snd (hook_exec_with_script_debug_if_failure
                            Examples.manifest_dropping_externals path env m)) = true)
  /\ (exists msg, snd run = Raise (YunohostError msg)
                  /\ msg <> "the install script failed")
  /\ In (EvScript "install" "demo") (trace (fst run))
  /\ ~ In (EvScript "remove" "demo") (trace (fst run))
  /\ is_Some (apps (mach (fst run)) !! "demo")
  /\ is_Some (perms (mach (fst run)) !! "demo.main")
  /\ snd (_is_installed "demo" (fst run)) = Ok true.
Proof.
  cbv zeta. split; [reflexivity|].
  split; [eexists; split; [vm_compute; reflexivity|discriminate]|].
  split; [vm_compute; tauto|]. split.
  - vm_compute. intros H. repeat destruct H as [H|H]; try discriminate H. exact H.
  - split; [vm_compute; eexists; reflexivity|].
    split; [vm_compute; eexists; reflexivity|vm_compute; reflexivity].
Qed.



(** ** Batch upgrade *)

Section upgrade_facts.
Variable E : externals.

Ltac same_record_solve :=
  unfold same_record; cbn [apps set_apps set_perms set_tmp_dirs set_host];
  rewrite ?lookup_insert_ne by congruence; reflexivity.

Ltac frames_record :=
  repeat first
    [ solve [eauto with frames]
    | match goal with
      | |- frames _ (modify_mach _) => apply frames_modify; intros; same_record_solve
      | |- frames _ (call (health_check _ _ _)) => apply frames_call; intros; reflexivity
      end
    | frames_step ].

Section other_record.
Variables a b : string.
Hypothesis Hab : a <> b.

Lemma frames_set_app_settings st : frames (same_record b) (_set_app_settings a st).
Proof. unfold _set_app_settings. frames_record. Qed.

Lemma frames_get_app_settings : frames (same_record b) (_get_app_settings a).
Proof.
  pose proof frames_set_app_settings.
  unfold _get_app_settings, _is_installed. frames_record.
Qed.

Lemma frames_perm_op_record name f : frames (same_record b) (update_permission name f).
Proof. unfold update_permission. frames_record. Qed.

Lemma frames_app_setting key value delete :
  frames (same_record b) (app_setting E a key value delete).
Proof.
  pose proof frames_set_app_settings. pose proof frames_get_app_settings.
  pose proof frames_perm_op_record.
  unfold app_setting, legacy_permission_setting, user_permission_update, permission_url,
    permission_create, permission_delete, user_permission_list.
  frames_record.
Qed.

Lemma frames_app_info : frames (same_record b) (app_info E a).
Proof.
  pose proof frames_get_app_settings.
  unfold app_info, _assert_is_installed, _is_installed. frames_record.
Qed.

Lemma frames_upgrade_prepare url file force no_safety_backup :
  frames (same_record b) (upgrade_prepare E a url file force no_safety_backup).
Proof.
  pose proof frames_app_info. pose proof frames_app_setting.
  unfold upgrade_prepare, _extract_app, now, _assert_system_is_sane_for_app,
    _make_environment_for_app_script.
  frames_record.
Qed.

Lemma frames_upgrade_execute apps_ number c :
  scripts_confined E ->
  uc_env_dict c !! "YNH_APP_INSTANCE_NAME" = Some a ->
  frames (same_record b) (upgrade_execute E apps_ number a c).
Proof.
  intros [Hscript Hhook] Henv.
  pose proof frames_app_setting.
  assert (Hne : uc_env_dict c !! "YNH_APP_INSTANCE_NAME" <> Some b) by congruence.
  unfold upgrade_execute, now, _assert_system_is_sane_for_app, report_manually_modified_files,
    raise_failure, rmtree_tmp.
  repeat first
    [ solve [eauto with frames]
    | match goal with
      | |- frames _ (modify_mach _) => apply frames_modify; intros; same_record_solve
      | |- frames _ (call (health_check _ _ _)) => apply frames_call; intros; reflexivity
      | |- frames _ (call (hook_exec_with_script_debug_if_failure _ _ _)) =>
          apply frames_call; intros; apply Hscript; exact Hne
      | |- frames _ (call (hook_callback _ _ _)) =>
          apply frames_call; intros; apply Hhook; exact Hne
      end
    | frames_step ].
Qed.
End other_record.

(** *** The environment names the application *)

Lemma wp_all {A : Type} (m : M A) (Q : state -> result A -> Prop) s :
  (forall s' r, Q s' r) -> wp m Q s.
Proof. intros H. apply H. Qed.

Lemma environment_names_app (records : gmap string app_dir) (app : string)
    (workdir : option string) (env : gmap string string) :
  environment_for_app_script E records app nil workdir = Ok env ->
  env !! "YNH_APP_INSTANCE_NAME" = Some app.
Proof.
  unfold environment_for_app_script.
  destruct (_get_manifest_of_app E _) as [manifest|]; [|discriminate].
  destruct (InstanceId._parse_app_instance_name app) as [[app_id nb]|]; [|discriminate].
  intros [= <-]. cbn [fold_left].
  destruct workdir as [w|]; [destruct (String.eqb w EmptyString)|];
    repeat (rewrite lookup_insert_ne by discriminate); apply lookup_insert_eq.
Qed.

Lemma upgrade_prepare_names_app a url file force no_safety_backup s :
  wp (upgrade_prepare E a url file force no_safety_backup)
     (fun _ r => forall c, r = Ok (Some c) ->
                           uc_env_dict c !! "YNH_APP_INSTANCE_NAME" = Some a) s.
Proof.
  unfold upgrade_prepare.
  repeat first
    [ match goal with
      | |- wp (bind (_make_environment_for_app_script _ _ _ _) _) _ _ =>
          apply wp_bind; unfold _make_environment_for_app_script;
          apply wp_bind, wp_get_mach;
          match goal with
          | |- context [environment_for_app_script E ?r ?x nil ?w] =>
              let He := fresh "He" in
              destruct (environment_for_app_script E r x nil w) as [env|] eqn:He;
              [apply environment_names_app in He|]; apply wp_of_result
          end
      | |- wp (bind _ _) _ _ => apply wp_bind; apply wp_all; intros ? [?|?]
      | |- wp (ret _) _ _ => apply wp_ret
      | |- wp (raise _) _ _ => apply wp_raise
      | |- wp (if ?b then _ else _) _ _ => destruct b
      | |- wp (match ?x with _ => _ end) _ _ => destruct x
      | |- wp (let (_, _) := ?x in _) _ _ => destruct x
      end
    | (intros ? [=]; fail)
    | (intros ? [= <-]; cbn [uc_env_dict];
       repeat (rewrite lookup_insert_ne by discriminate); assumption)
    | (intros ? H; discriminate H) ].
Qed.

(** *** The events of one turn *)

Ltac turn_event_solve :=
  let H := fresh "Hev" in
  split; [intros ? H; discriminate H
         |intros ? ? H; first [discriminate H | congruence]].

Ltac emits_turn :=
  repeat first [ solve [eauto] | emits_step | turn_event_solve ].

Lemma emits_turn_get_app_settings x : emits (turn_event x) (_get_app_settings x).
Proof. unfold _get_app_settings, _is_installed, _set_app_settings. emits_turn. Qed.

Lemma emits_turn_app_setting x key value delete :
  emits (turn_event x) (app_setting E x key value delete).
Proof.
  pose proof (emits_turn_get_app_settings x).
  unfold app_setting, legacy_permission_setting, user_permission_update, permission_url,
    permission_create, permission_delete, user_permission_list, update_permission,
    _set_app_settings.
  emits_turn.
Qed.

Lemma emits_turn_app_info x : emits (turn_event x) (app_info E x).
Proof.
  pose proof (emits_turn_get_app_settings x).
  unfold app_info, _assert_is_installed, _is_installed. emits_turn.
Qed.

Lemma emits_turn_upgrade_execute apps_ number x c :
  emits (turn_event x) (upgrade_execute E apps_ number x c).
Proof.
  pose proof (emits_turn_app_setting x).
  unfold upgrade_execute, now, _assert_system_is_sane_for_app, report_manually_modified_files,
    rmtree_tmp.
  emits_turn.
Qed.

Lemma bind_emit_run {A B : Type} (ev : event) (K' : unit -> M A) (K : A -> M B) s :
  bind (bind (emit ev) K') K s
  = bind (K' tt) K {| mach := mach s; trace := (trace s ++ ev :: nil)%list |}.
Proof. reflexivity. Qed.

(** A turn of the loop logs the application it turns to, and from then on
    neither turns to another nor calls the script of another. *)
Lemma upgrade_one_events apps_ url file force no_safety_backup number x s :
  exists rest,
    trace (fst (upgrade_one E apps_ url file force no_safety_backup number x s))
    = (trace s ++ upgrade_started x :: rest)%list
    /\ Forall (turn_event x) rest.
Proof.
  unfold upgrade_one, upgrade_prepare. rewrite bind_emit_run.
  match goal with
  | |- context [bind ?K1 ?K ?s1] =>
      assert (He : emits (turn_event x) (bind K1 K));
      [|destruct (He s1) as (rest & Ht & Hrest); exists rest;
        rewrite Ht; cbn [trace]; rewrite <- app_assoc; split; [reflexivity|exact Hrest]]
  end.
  pose proof (emits_turn_app_setting x). pose proof (emits_turn_app_info x).
  pose proof (emits_turn_upgrade_execute apps_ number x).
  unfold _extract_app, now, _assert_system_is_sane_for_app, _make_environment_for_app_script.
  emits_turn.
Qed.

Lemma upgrade_prepare_grows a url file force no_safety_backup s :
  exists front,
    trace (fst (upgrade_prepare E a url file force no_safety_backup s))
    = (trace s ++ front)%list.
Proof.
  unfold upgrade_prepare.
  match goal with
  | |- context [bind (emit ?ev) ?K s] =>
      change (bind (emit ev) K s)
        with (K tt {| mach := mach s; trace := (trace s ++ ev :: nil)%list |});
      assert (He : emits (turn_event a) (K tt));
      [cbv beta|
       destruct (He {| mach := mach s; trace := (trace s ++ ev :: nil)%list |})
         as (rest & Ht & _); exists (ev :: rest);
       rewrite Ht; cbn [trace]; rewrite <- app_assoc; reflexivity]
  end.
  pose proof (emits_turn_app_setting a). pose proof (emits_turn_app_info a).
  unfold _extract_app, now, _assert_system_is_sane_for_app, _make_environment_for_app_script.
  emits_turn.
Qed.

(** *** The loop *)

Lemma started_app (l1 l2 : list event) : started (l1 ++ l2) = (started l1 ++ started l2)%list.
Proof.
  induction l1 as [|ev l1 IH]; [reflexivity|].
  destruct ev as [level key [|x [|? ?]]| | |]; cbn [List.app started]; try exact IH.
  destruct (String.eqb level "info" && String.eqb key "app_upgrade_app_name");
    cbn [List.app]; congruence.
Qed.

Lemma started_turn x (rest : list event) : Forall (turn_event x) rest -> started rest = nil.
Proof.
  induction 1 as [|ev rest [Hev _] _ IH]; [reflexivity|].
  destruct ev as [level key [|y [|? ?]]| | |]; cbn [started]; try exact IH.
  destruct (String.eqb level "info") eqn:Hl; [|exact IH].
  destruct (String.eqb key "app_upgrade_app_name") eqn:Hk; [|exact IH].
  apply String.eqb_eq in Hl, Hk. subst. exfalso. eapply Hev. reflexivity.
Qed.

Lemma upgrade_loop_cons apps_ url file force no_safety_backup number x todo s :
  upgrade_loop E apps_ url file force no_safety_backup number (x :: todo) s
  = match upgrade_one E apps_ url file force no_safety_backup number x s with
    | (s1, Ok _) => upgrade_loop E apps_ url file force no_safety_backup (S number) todo s1
    | (s1, Raise e) => (s1, Raise e)
    end.
Proof. reflexivity. Qed.

Lemma upgrade_loop_app apps_ url file force no_safety_backup (l1 l2 : list string) :
  forall number s,
  upgrade_loop E apps_ url file force no_safety_backup number (l1 ++ l2) s
  = match upgrade_loop E apps_ url file force no_safety_backup number l1 s with
    | (s1, Ok _) =>
        upgrade_loop E apps_ url file force no_safety_backup (number + length l1) l2 s1
    | (s1, Raise e) => (s1, Raise e)
    end.
Proof.
  induction l1 as [|x l1 IH]; intros number s.
  - cbn [List.app length upgrade_loop ret]. rewrite Nat.add_0_r. reflexivity.
  - cbn [List.app length]. rewrite !upgrade_loop_cons.
    destruct (upgrade_one E apps_ url file force no_safety_backup number x s) as [s1 [[]|e]];
      [|reflexivity].
    rewrite IH. replace (S number + length l1)%nat with (number + S (length l1))%nat by lia.
    reflexivity.
Qed.

(** A loop that ends normally has turned to each application in order,
    and called the scripts of these only. *)
Lemma upgrade_loop_ok apps_ url file force no_safety_backup (todo : list string) :
  forall number s s',
  upgrade_loop E apps_ url file force no_safety_backup number todo s = (s', Ok tt) ->
  exists new,
    trace s' = (trace s ++ new)%list
    /\ started new = todo
    /\ Forall (fun ev => forall script b, ev = EvScript script b -> b ∈ todo) new.
Proof.
  induction todo as [|x todo IH]; intros number s s' Hrun.
  - cbn in Hrun. injection Hrun as <-. exists nil. rewrite app_nil_r. auto.
  - rewrite upgrade_loop_cons in Hrun.
    destruct (upgrade_one_events apps_ url file force no_safety_backup number x s)
      as (rest & Ht & Hrest).
    destruct (upgrade_one E apps_ url file force no_safety_backup number x s)
      as [s1 [[]|e]]; [|discriminate].
    cbn [fst] in Ht.
    destruct (IH _ _ _ Hrun) as (new & Ht' & Hst & Hsc).
    exists (upgrade_started x :: rest ++ new)%list.
    split; [rewrite Ht', Ht, <- app_assoc; reflexivity|].
    split.
    + change (upgrade_started x :: rest ++ new)%list
        with ((upgrade_started x :: nil) ++ rest ++ new)%list.
      rewrite !started_app, (started_turn x rest Hrest), Hst. reflexivity.
    + constructor; [intros ? ? [=]|].
      apply Forall_app. split.
      * eapply Forall_impl; [exact Hrest|]. intros ev [_ Hev] script b Heq.
        rewrite (Hev script b Heq). left.
      * eapply Forall_impl; [exact Hsc|]. intros ev Hev script b Heq.
        right. eapply Hev. exact Heq.
Qed.

Lemma upgrade_one_frame apps_ url file force no_safety_backup number a b s :
  scripts_confined E -> a <> b ->
  same_record b (mach s)
    (mach (fst (upgrade_one E apps_ url file force no_safety_backup number a s))).
Proof.
  intros Hconf Hab. unfold upgrade_one, bind.
  pose proof (frames_upgrade_prepare a b Hab url file force no_safety_backup s) as Hp.
  pose proof (upgrade_prepare_names_app a url file force no_safety_backup s) as Hn.
  unfold wp in Hn.
  destruct (upgrade_prepare E a url file force no_safety_backup s) as [s1 [[c|]|e]];
    cbn [fst snd] in *; try exact Hp.
  eapply same_record_trans; [exact Hp|].
  apply (frames_upgrade_execute a b Hab apps_ number c Hconf (Hn c eq_refl)).
Qed.

Lemma upgrade_loop_frame apps_ url file force no_safety_backup (todo : list string) b :
  scripts_confined E -> b ∉ todo ->
  forall number s,
  same_record b (mach s)
    (mach (fst (upgrade_loop E apps_ url file force no_safety_backup number todo s))).
Proof.
  intros Hconf. induction todo as [|x todo IH]; intros Hb number s; [reflexivity|].
  rewrite upgrade_loop_cons.
  assert (Hx : x <> b) by (intros ->; apply Hb; left).
  pose proof (upgrade_one_frame apps_ url file force no_safety_backup number x b s Hconf Hx)
    as H1.
  destruct (upgrade_one E apps_ url file force no_safety_backup number x s) as [s1 [[]|e]];
    cbn [fst] in *; [|exact H1].
  eapply same_record_trans; [exact H1|]. apply IH.
  intros Hin. apply Hb. right. exact Hin.
Qed.

(** *** The failing turn *)

Lemma wp_report_modified_after before (Q : state -> result unit -> Prop) s :
  (forall tail, Q {| mach := mach s; trace := (trace s ++ tail)%list |} (Ok tt)) ->
  wp (report_manually_modified_files before) Q s.
Proof.
  intros HQ. unfold report_manually_modified_files.
  apply wp_bind, wp_get_mach.
  destruct (List.filter _ _).
  - apply wp_ret. specialize (HQ nil). rewrite app_nil_r in HQ. destruct s. exact HQ.
  - apply wp_emit, HQ.
Qed.

Lemma failed_turn_after apps_ number a t0 x s' r :
  failed_turn apps_ number a (t0 ++ x) s' r -> failed_turn apps_ number a t0 s' r.
Proof.
  intros [He (tail & Ht & Hin)]. split; [exact He|].
  exists (x ++ tail)%list. split; [rewrite Ht, app_assoc; reflexivity|].
  intros Hd. apply in_or_app. right. exact (Hin Hd).
Qed.

Lemma upgrade_execute_broken (apps_ : list string) (number : nat) (a : string)
    (c : upgrade_context) (m m3 : machine) (t : list event) (ran : result (bool * string)) :
  hook_exec_with_script_debug_if_failure E
    (uc_extracted_app_folder c ++ "/scripts/upgrade") (uc_env_dict c) m = (m3, ran) ->
  breaks E (uc_manifest c) m3 ran ->
  wp (upgrade_execute E apps_ number a c) (failed_turn apps_ number a t)
     {| mach := m; trace := t |}.
Proof.
  intros Hrun Hbreak. unfold upgrade_execute.
  apply wp_bind, wp_emit. cbn [mach trace].
  apply wp_bind, wp_attempt, wp_call. cbn [mach trace]. rewrite Hrun. cbn [fst snd].
  apply wp_bind, wp_attempt. unfold _assert_system_is_sane_for_app.
  apply wp_bind, wp_emit. cbn [mach trace]. apply wp_call. cbn [mach trace].
  assert (Hend : forall (failure_message : option string) (t' : list event) m',
    wp (when_ (match drop (S number) apps_ with nil => false | _ => true end)
              (emit (EvLog "error" "app_not_upgraded" (a :: drop number apps_))) ;;
        raise_failure failure_message)
       (failed_turn apps_ number a t')
       {| mach := m'; trace := t' |}).
  { intros failure_message t' m'. apply wp_bind.
    destruct (drop (S number) apps_) as [|y l] eqn:Hd; cbn [when_].
    - apply wp_ret. destruct failure_message; apply wp_raise;
        (split; [eauto|]); exists nil; cbn [trace]; rewrite app_nil_r;
        (split; [reflexivity|congruence]).
    - apply wp_emit. destruct failure_message; apply wp_raise; (split; [eauto|]);
        eexists; cbn [trace]; (split; [reflexivity|]); intros _; left; reflexivity. }
  destruct (snd (health_check E (uc_manifest c) "post" m3)) as [[]|e] eqn:Hc.
  - (* the check passes: the script failed *)
    destruct Hbreak as [Hfail|[e He]]; [|congruence].
    apply wp_bind, wp_ret. apply wp_bind, wp_report_modified_after. intros tail.
    cbn [mach trace].
    assert (Hf : match ran with Ok (failed, _) => failed | Raise _ => true end = true)
      by exact Hfail.
    rewrite Hf. cbn [orb].
    apply wp_bind. eapply wp_weaken; [apply Hend|].
    intros s' r H. do 3 apply failed_turn_after in H.
    destruct H as [[e' ->] H]. split; [eauto|exact H].
  - rewrite (health_check_error E (uc_manifest c) "post" m3 e Hc).
    apply wp_bind, wp_bind, wp_emit. cbn [mach trace]. apply wp_ret.
    apply wp_bind, wp_report_modified_after. intros tail. cbn [mach trace].
    rewrite orb_true_r.
    apply wp_bind. eapply wp_weaken; [apply Hend|].
    intros s' r H. do 4 apply failed_turn_after in H.
    destruct H as [[e' ->] H]. split; [eauto|exact H].
Qed.

(** *** The batch *)

Lemma dedup_first_fresh (l seen : list string) x :
  x ∈ dedup_first seen l -> x ∉ seen.
Proof.
  revert seen. induction l as [|y l IH]; intros seen Hx; cbn [dedup_first] in Hx.
  - inversion Hx.
  - destruct (bool_decide (y ∈ seen)) eqn:Hy.
    + exact (IH _ Hx).
    + apply bool_decide_eq_false in Hy. apply elem_of_cons in Hx as [->|Hx]; [exact Hy|].
      intros Hin. apply (IH _ Hx). right. exact Hin.
Qed.

Lemma dedup_first_NoDup (l seen : list string) : NoDup (dedup_first seen l).
Proof.
  revert seen. induction l as [|y l IH]; intros seen; cbn [dedup_first]; [constructor|].
  destruct (bool_decide (y ∈ seen)); [apply IH|].
  constructor; [|apply IH].
  intros Hin. apply dedup_first_fresh in Hin. apply Hin. left.
Qed.

Lemma dedup_first_subset (l seen : list string) x :
  x ∈ dedup_first seen l -> x ∈ l.
Proof.
  revert seen. induction l as [|y l IH]; intros seen Hx; cbn [dedup_first] in Hx.
  - exact Hx.
  - destruct (bool_decide (y ∈ seen)).
    + right. exact (IH _ Hx).
    + apply elem_of_cons in Hx as [->|Hx]; [left|right; exact (IH _ Hx)].
Qed.

Lemma for_each_installed (l : list string) s :
  Forall (fun b => is_Some (apps (mach s) !! b)) l ->
  for_each l _assert_is_installed s = (s, Ok tt).
Proof.
  induction 1 as [|b l Hb _ IH]; [reflexivity|].
  cbn [for_each]. unfold bind at 1, _assert_is_installed, _is_installed, bind, get_mach, ret.
  rewrite (bool_decide_eq_true_2 _ Hb). cbn [negb]. destruct s. exact IH.
Qed.

(** [app_upgrade] on a list of installed applications: the names are made
    distinct, the batch is announced, and the loop runs. *)
Lemma app_upgrade_runs_loop (app : list string) (url : option string) (file : file_arg)
    (force no_safety_backup : bool) (s s' : state) (e : exn) :
  512 * 1000 * 1000 < free_space_root (host (mach s)) ->
  dedup_first nil app <> nil ->
  Forall (fun b => is_Some (apps (mach s) !! b)) (dedup_first nil app) ->
  upgrade_loop E (dedup_first nil app) url file force no_safety_backup 0 (dedup_first nil app)
    (batch_start (dedup_first nil app) (mach s) (trace s)) = (s', Raise e) ->
  app_upgrade E app url file force no_safety_backup s = (s', Raise e).
Proof.
  intros Hfree Hne Hall Hloop. unfold app_upgrade.
  unfold bind at 1, get_mach at 1.
  destruct (Z.leb_spec (free_space_root (host (mach s))) (512 * 1000 * 1000)) as [Hle|_];
    [lia|].
  destruct app as [|x app]; [exfalso; apply Hne; reflexivity|].
  unfold bind at 1, ret at 1. unfold bind at 1. rewrite (for_each_installed _ s Hall).
  destruct (dedup_first nil (x :: app)) as [|y l] eqn:Hd; [congruence|].
  unfold bind at 1.
  assert (Hstart : when_ (1 <? length (y :: l))%nat
                     (emit (EvLog "info" "app_upgrade_several_apps" (y :: l))) s
                   = (batch_start (y :: l) (mach s) (trace s), Ok tt)).
  { unfold batch_start, when_, emit, ret. destruct (1 <? length (y :: l))%nat; destruct s;
      reflexivity. }
  rewrite Hstart. unfold bind at 1. rewrite Hloop. reflexivity.
Qed.

(** The loop on a batch [pre ++ a :: post] of distinct names, when the
    turns of [pre] end normally and the upgrade of [a] fails. *)
Lemma upgrade_loop_stops_at_first_failure
    (pre post : list string) (a : string) (url : option string) (file : file_arg)
    (force no_safety_backup : bool) (s0 s1 s2 : state) (c : upgrade_context)
    (m3 : machine) (ran : result (bool * string)) :
  scripts_confined E ->
  NoDup (pre ++ a :: post) ->
  upgrade_loop E (pre ++ a :: post) url file force no_safety_backup 0 pre s0 = (s1, Ok tt) ->
  upgrade_prepare E a url file force no_safety_backup s1 = (s2, Ok (Some c)) ->
  hook_exec_with_script_debug_if_failure E
    (uc_extracted_app_folder c ++ "/scripts/upgrade") (uc_env_dict c) (mach s2) = (m3, ran) ->
  breaks E (uc_manifest c) m3 ran ->
  exists s' e new,
    upgrade_loop E (pre ++ a :: post) url file force no_safety_backup 0 (pre ++ a :: post) s0
    = (s', Raise e)
    /\ trace s' = (trace s0 ++ new)%list
    /\ started new = (pre ++ a :: nil)%list
    /\ Forall (fun ev => forall script b, ev = EvScript script b -> b ∈ (pre ++ a :: nil)%list)
         new
    /\ (post <> nil -> In (EvLog "error" "app_not_upgraded" (a :: a :: post)) new)
    /\ (forall b, b ∈ post -> same_record b (mach s0) (mach s'))
    /\ (forall b, b ∈ pre -> same_record b (mach s1) (mach s')).
Proof.
  intros Hconf Hnd Hpre Hprep Hrun Hbreak.
  set (apps_ := (pre ++ a :: post)%list) in *.
  destruct (upgrade_loop_ok _ _ _ _ _ _ _ _ _ Hpre) as (new1 & Ht1 & Hst1 & Hsc1).
  pose proof (upgrade_one_events apps_ url file force no_safety_backup (0 + length pre) a s1)
    as (rest & Ht2 & Hrest).
  pose proof (upgrade_one_frame apps_ url file force no_safety_backup (0 + length pre) a) as Hfr.
  assert (Hone : exists s' e tail,
    upgrade_one E apps_ url file force no_safety_backup (0 + length pre) a s1 = (s', Raise e)
    /\ trace s' = (trace s2 ++ tail)%list
    /\ (post <> nil -> In (EvLog "error" "app_not_upgraded" (a :: a :: post)) tail)).
  { unfold upgrade_one, bind. rewrite Hprep.
    pose proof (upgrade_execute_broken apps_ (0 + length pre) a c (mach s2) m3 (trace s2) ran
                  Hrun Hbreak) as Hw.
    unfold wp in Hw. destruct s2 as [m2 t2]. cbn [mach trace] in *.
    destruct (upgrade_execute E apps_ (0 + length pre) a c {| mach := m2; trace := t2 |})
      as [s' r].
    cbn [fst snd] in Hw. destruct Hw as [[e ->] (tail & Ht & Hin)].
    exists s', e, tail. split; [reflexivity|]. split; [exact Ht|].
    intros Hpost. cbn [Nat.add] in Hin.
    assert (Hdrop : drop (length pre) apps_ = a :: post)
      by (unfold apps_; rewrite drop_app_length; reflexivity).
    assert (Hdrop' : drop (S (length pre)) apps_ = post).
    { unfold apps_. replace (S (length pre)) with (length pre + 1)%nat by lia.
      rewrite <- drop_drop, drop_app_length. reflexivity. }
    rewrite Hdrop, Hdrop' in Hin. exact (Hin Hpost). }
  destruct Hone as (s' & e & tail & Hone & Ht3 & Hin).
  rewrite Hone in Ht2. cbn [fst] in Ht2.
  exists s', e, (new1 ++ upgrade_started a :: rest)%list.
  split.
  { fold apps_. unfold apps_ at 2. rewrite upgrade_loop_app. fold apps_. rewrite Hpre.
    rewrite upgrade_loop_cons, Hone. reflexivity. }
  split; [rewrite Ht2, Ht1, <- app_assoc; reflexivity|].
  split.
  { change (upgrade_started a :: rest)%list with ((upgrade_started a :: nil) ++ rest)%list.
    rewrite !started_app, Hst1, (started_turn a rest Hrest). reflexivity. }
  split.
  { apply Forall_app. split.
    - eapply Forall_impl; [exact Hsc1|]. intros ev Hev script b Heq.
      apply elem_of_app. left. eapply Hev. exact Heq.
    - constructor; [intros ? ? [=]|].
      eapply Forall_impl; [exact Hrest|]. intros ev [_ Hev] script b Heq.
      rewrite (Hev script b Heq). apply elem_of_app. right. left. }
  split.
  { intros Hpost.
    assert (Hsplit : exists front, (upgrade_started a :: rest)%list = (front ++ tail)%list).
    { pose proof (upgrade_prepare_grows a url file force no_safety_backup s1)
        as (front & Hfront).
      rewrite Hprep in Hfront. cbn [fst] in Hfront.
      exists front. apply (app_inv_head (trace s1)).
      rewrite <- Ht2, Ht3, Hfront, <- app_assoc. reflexivity. }
    destruct Hsplit as (front & Hsplit).
    apply in_or_app. right. rewrite Hsplit. apply in_or_app. right. exact (Hin Hpost). }
  split.
  - intros b Hb.
    assert (Hba : a <> b).
    { intros ->. apply NoDup_app in Hnd as (_ & _ & Hnd). apply NoDup_cons in Hnd as [Hn _].
      exact (Hn Hb). }
    assert (Hbpre : b ∉ pre).
    { intros Hin'. apply NoDup_app in Hnd as (_ & Hnd & _).
      apply (Hnd b Hin'). right. exact Hb. }
    pose proof (upgrade_loop_frame apps_ url file force no_safety_backup pre b Hconf Hbpre 0 s0)
      as H1.
    rewrite Hpre in H1. cbn [fst] in H1.
    specialize (Hfr b s1 Hconf Hba). rewrite Hone in Hfr. cbn [fst] in Hfr.
    eapply same_record_trans; [exact H1|exact Hfr].
  - intros b Hb.
    assert (Hba : a <> b).
    { intros ->. apply NoDup_app in Hnd as (_ & Hnd & _). apply (Hnd b Hb). left. }
    specialize (Hfr b s1 Hconf Hba). rewrite Hone in Hfr. cbn [fst] in Hfr. exact Hfr.
Qed.

(** C2 (batch upgrade fail-fast).  [app_upgrade] is called on the
    installed applications [app], which with repetitions dropped are
    [pre ++ a :: post].  If the turns of [pre] end normally and the upgrade
    of [a] fails (its script fails, or the health check after it does),
    then [app_upgrade] raises; the applications it turned to are exactly
    [pre] then [a], in this order, and no script of another application
    was called; when applications are left the failure of [a] is reported
    together with the names left; the record of every application of
    [post] is what it was before the call; and the record of every
    application of [pre] is what it was when the turns of [pre] completed.
    The scripts of one application are assumed to leave the records of
    the others alone. *)
Theorem batch_upgrade_stops_at_first_failure
    (app pre post : list string) (a : string) (url : option string) (file : file_arg)
    (force no_safety_backup : bool) (s s1 s2 : state) (c : upgrade_context)
    (m3 : machine) (ran : result (bool * string)) :
  scripts_confined E ->
  512 * 1000 * 1000 < free_space_root (host (mach s)) ->
  dedup_first nil app = (pre ++ a :: post)%list ->
  Forall (fun b => is_Some (apps (mach s) !! b)) app ->
  upgrade_loop E (pre ++ a :: post) url file force no_safety_backup 0 pre
    (batch_start (pre ++ a :: post) (mach s) (trace s)) = (s1, Ok tt) ->
  upgrade_prepare E a url file force no_safety_backup s1 = (s2, Ok (Some c)) ->
  hook_exec_with_script_debug_if_failure E
    (uc_extracted_app_folder c ++ "/scripts/upgrade") (uc_env_dict c) (mach s2) = (m3, ran) ->
  breaks E (uc_manifest c) m3 ran ->
  exists s' e new,
    app_upgrade E app url file force no_safety_backup s = (s', Raise e)
    /\ trace s' = (trace (batch_start (pre ++ a :: post) (mach s) (trace s)) ++ new)%list
    /\ started new = (pre ++ a :: nil)%list
    /\ Forall (fun ev => forall script b, ev = EvScript script b -> b ∈ (pre ++ a :: nil)%list)
         new
    /\ (post <> nil -> In (EvLog "error" "app_not_upgraded" (a :: a :: post)) new)
    /\ (forall b, b ∈ post -> same_record b (mach s) (mach s'))
    /\ (forall b, b ∈ pre -> same_record b (mach s1) (mach s')).
Proof.
  intros Hconf Hfree Hd Hall Hpre Hprep Hrun Hbreak.
  assert (Hnd : NoDup (pre ++ a :: post)) by (rewrite <- Hd; apply dedup_first_NoDup).
  destruct (upgrade_loop_stops_at_first_failure pre post a url file force no_safety_backup
              _ s1 s2 c m3 ran Hconf Hnd Hpre Hprep Hrun Hbreak)
    as (s' & e & new & Hloop & Ht & Hst & Hsc & Hrep & Hpost & Hdone).
  exists s', e, new.
  split.
  { apply app_upgrade_runs_loop; [exact Hfree| | |].
    - rewrite Hd. destruct pre; discriminate.
    - apply Forall_forall. intros b Hb. rewrite Forall_forall in Hall. apply Hall.
      apply (dedup_first_subset app nil b Hb).
    - rewrite Hd. exact Hloop. }
  repeat split; try assumption.
Qed.

End upgrade_facts.

Lemma batch_upgrade_stops_at_first_failure_witness :
  exists s' e new,
    app_upgrade Examples.batch_externals Examples.batch None Examples.batch_sources
      false false Examples.batch_state = (s', Raise e)
    /\ trace s' = (EvLog "info" "app_upgrade_several_apps" Examples.batch :: new)%list
    /\ started new = "alpha" :: "bravo" :: nil
    /\ Forall (fun ev => forall script b, ev = EvScript script b ->
                                          b ∈ "alpha" :: "bravo" :: nil) new
    /\ ("charlie" :: nil <> nil ->
        In (EvLog "error" "app_not_upgraded" ("bravo" :: "bravo" :: "charlie" :: nil)) new)
    /\ (forall b, b ∈ "charlie" :: nil ->
                  same_record b (mach Examples.batch_state) (mach s'))
    /\ (forall b, b ∈ "alpha" :: nil ->
                  same_record b (mach Examples.batch_after_alpha) (mach s')).
Proof.
  apply (batch_upgrade_stops_at_first_failure Examples.batch_externals Examples.batch
           ("alpha" :: nil) ("charlie" :: nil) "bravo" None Examples.batch_sources false false
           Examples.batch_state Examples.batch_after_alpha
           (fst Examples.batch_bravo_prepared) Examples.batch_bravo_context
           (mach (fst Examples.batch_bravo_prepared))
           (Ok (true, "the upgrade script failed"))).
  - split; intros; reflexivity.
  - vm_compute. reflexivity.
  - vm_compute. reflexivity.
  - repeat constructor; vm_compute; eexists; reflexivity.
  - vm_compute. reflexivity.
  - vm_compute. reflexivity.
  - vm_compute. reflexivity.
  - left. reflexivity.
Defined.

(** ** Regular expressions: the matcher decides the language *)

Section regex_facts.
Import Regex.

Lemma string_app_empty (s1 s2 : string) :
  s1 ++ s2 = EmptyString -> s1 = EmptyString /\ s2 = EmptyString.
Proof. destruct s1; simpl; [auto|discriminate]. Qed.

Lemma lang_void_inv s : ~ lang Void s.
Proof. intros H. inversion H. Qed.

Lemma lang_eps_inv s : lang Eps s <-> s = EmptyString.
Proof. split; [intros H; inversion H; reflexivity|intros ->; constructor]. Qed.

Lemma lang_class_inv p s :
  lang (Class p) s <-> exists c, s = String c EmptyString /\ p c = true.
Proof.
  split.
  - intros H. inversion H; subst. eauto.
  - intros (c & -> & Hc). constructor. exact Hc.
Qed.

Lemma lang_cat_inv r1 r2 s :
  lang (Cat r1 r2) s <-> exists s1 s2, s = s1 ++ s2 /\ lang r1 s1 /\ lang r2 s2.
Proof.
  split.
  - intros H. inversion H; subst. eauto.
  - intros (s1 & s2 & -> & H1 & H2). constructor; assumption.
Qed.

Lemma lang_alt_inv r1 r2 s : lang (Alt r1 r2) s <-> lang r1 s \/ lang r2 s.
Proof.
  split.
  - intros H. inversion H; subst; auto.
  - intros [H|H]; [apply lang_alt_l|apply lang_alt_r]; exact H.
Qed.

Lemma lang_star_cons_inv r s : lang (Star r) s ->
  forall c s', s = String c s' ->
  exists s1 s2, s' = s1 ++ s2 /\ lang r (String c s1) /\ lang (Star r) s2.
Proof.
  intros H. remember (Star r) as r0 eqn:Hr.
  induction H as [ | | | | |r'|r' s1 s2 H1 _ H2 IH2]; try discriminate Hr.
  - intros c s' Heq. discriminate Heq.
  - injection Hr as ->. intros c s' Heq.
    destruct s1 as [|c1 s1]; simpl in Heq.
    + exact (IH2 eq_refl c s' Heq).
    + injection Heq as -> <-. exists s1, s2. auto.
Qed.

Lemma nullable_lang r : nullable r = true <-> lang r EmptyString.
Proof.
  induction r as [| |p|r1 IH1 r2 IH2|r1 IH1 r2 IH2|r IH]; simpl.
  - split; [discriminate|intros H; inversion H].
  - split; [constructor|reflexivity].
  - split; [discriminate|intros H; inversion H].
  - rewrite andb_true_iff, IH1, IH2, lang_cat_inv. split.
    + intros [H1 H2]. exists EmptyString, EmptyString. auto.
    + intros (s1 & s2 & Heq & H1 & H2). symmetry in Heq.
      apply string_app_empty in Heq as [-> ->]. auto.
  - rewrite orb_true_iff, IH1, IH2, lang_alt_inv. reflexivity.
  - split; [constructor|reflexivity].
Qed.

Lemma lang_cat_smart r1 r2 s : lang (cat r1 r2) s <-> lang (Cat r1 r2) s.
Proof.
  assert (Hv1 : forall r, lang Void s <-> lang (Cat Void r) s).
  { intros r. split; [intros H; inversion H|].
    rewrite lang_cat_inv. intros (? & ? & _ & H & _). inversion H. }
  assert (Hv2 : forall r, lang Void s <-> lang (Cat r Void) s).
  { intros r. split; [intros H; inversion H|].
    rewrite lang_cat_inv. intros (? & ? & _ & _ & H). inversion H. }
  assert (He : forall r, lang r s <-> lang (Cat Eps r) s).
  { intros r. rewrite lang_cat_inv. split.
    - intros H. exists EmptyString, s. repeat split; [constructor|exact H].
    - intros (s1 & s2 & -> & H1 & H2). apply lang_eps_inv in H1 as ->. exact H2. }
  destruct r1, r2; simpl; auto; reflexivity.
Qed.

Lemma lang_alt_smart r1 r2 s : lang (alt r1 r2) s <-> lang (Alt r1 r2) s.
Proof.
  rewrite lang_alt_inv.
  destruct r1, r2; simpl; rewrite ?lang_alt_inv;
    split; try tauto; intros H; repeat destruct H as [H|H]; auto;
    try (inversion H; fail).
Qed.

Lemma lang_deriv c r : forall s, lang (deriv c r) s <-> lang r (String c s).
Proof.
  induction r as [| |p|r1 IH1 r2 IH2|r1 IH1 r2 IH2|r IH]; intros s; simpl.
  - split; intros H; inversion H.
  - split; intros H; inversion H.
  - destruct (p c) eqn:Hp.
    + rewrite lang_eps_inv, lang_class_inv. split.
      * intros ->. eauto.
      * intros (c' & [= <- <-] & _). reflexivity.
    + rewrite lang_class_inv. split; [intros H; inversion H|].
      intros (c' & [= <- _] & Hc). congruence.
  - rewrite lang_alt_smart, lang_alt_inv, lang_cat_smart, !lang_cat_inv. split.
    + intros [(s1 & s2 & -> & H1 & H2)|H].
      * exists (String c s1), s2. rewrite <- IH1. auto.
      * destruct (nullable r1) eqn:Hn; [|inversion H].
        apply nullable_lang in Hn. exists EmptyString, (String c s).
        rewrite <- IH2. auto.
    + intros (s1 & s2 & Heq & H1 & H2). destruct s1 as [|c1 s1]; simpl in Heq.
      * right. subst s2. apply nullable_lang in H1. rewrite H1. apply IH2. exact H2.
      * injection Heq as <- ->. left. exists s1, s2. rewrite IH1. auto.
  - rewrite lang_alt_smart, !lang_alt_inv, IH1, IH2. reflexivity.
  - rewrite lang_cat_smart, lang_cat_inv. split.
    + intros (s1 & s2 & -> & H1 & H2). apply IH in H1.
      exact (lang_star_cons r (String c s1) s2 H1 H2).
    + intros H. destruct (lang_star_cons_inv r _ H c s eq_refl) as (s1 & s2 & -> & H1 & H2).
      exists s1, s2. rewrite IH. auto.
Qed.

Lemma matches_lang r s : matches r s = true <-> lang r s.
Proof.
  revert r. induction s as [|c s IH]; intros r; simpl.
  - apply nullable_lang.
  - rewrite IH. apply lang_deriv.
Qed.

Lemma lang_lit s t : lang (Lit s) t <-> t = s.
Proof.
  revert t. induction s as [|c s IH]; intros t; simpl.
  - apply lang_eps_inv.
  - rewrite lang_cat_inv. split.
    + intros (s1 & s2 & -> & H1 & H2). apply lang_class_inv in H1 as (c' & -> & Hc).
      apply Ascii.eqb_eq in Hc. subst c'. apply IH in H2. subst s2. reflexivity.
    + intros ->. exists (String c EmptyString), s. repeat split.
      * constructor. apply Ascii.eqb_refl.
      * apply IH. reflexivity.
Qed.

End regex_facts.

(** ** Sources of applications *)

Section source_facts.
Import PyText Regex Sources.

Lemma prefix_app (p s : string) : String.prefix p (p ++ s) = true.
Proof.
  induction p as [|c p IH]; simpl; [destruct s; reflexivity|].
  destruct (ascii_dec c c) as [_|Hne]; [exact IH|congruence].
Qed.

Lemma contains_prefix (sub s : string) : String.prefix sub s = true -> contains sub s = true.
Proof. intros H. destruct s; cbn [contains]; rewrite H; reflexivity. Qed.

Lemma contains_here (sub s : string) : contains sub (sub ++ s) = true.
Proof. apply contains_prefix, prefix_app. Qed.

Lemma contains_app_r (sub a b : string) :
  contains sub b = true -> contains sub (a ++ b) = true.
Proof.
  intros Hb. induction a as [|c a IH]; simpl; [exact Hb|].
  rewrite IH. apply orb_true_r.
Qed.

Lemma lang_plus_class (p : ascii -> bool) (s : string) :
  s <> EmptyString -> forallb_string p s = true -> lang (Plus (Class p)) s.
Proof.
  assert (Hstar : forall t, forallb_string p t = true -> lang (Star (Class p)) t).
  { induction t as [|c t IH]; simpl; intros Ht; [constructor|].
    apply andb_true_iff in Ht as [Hc Ht].
    apply (lang_star_cons (Class p) (String c EmptyString) t); [constructor; exact Hc|auto]. }
  destruct s as [|c s]; [congruence|]. intros _ Hs. simpl in Hs.
  apply andb_true_iff in Hs as [Hc Hs].
  apply (lang_cat (Class p) (Star (Class p)) (String c EmptyString) s);
    [constructor; exact Hc|auto].
Qed.

Lemma lang_opt_empty r : lang (Opt r) EmptyString.
Proof. apply lang_alt_r. constructor. Qed.

Lemma rstrip_app_tail (a b : string) :
  rstrip b = b -> b <> EmptyString -> rstrip (a ++ b) = a ++ b.
Proof.
  intros Hb Hne. induction a as [|c a IH]; simpl; [exact Hb|].
  rewrite IH. destruct (a ++ b) eqn:Heq; [|reflexivity].
  apply string_app_empty in Heq as [_ ->]. congruence.
Qed.

Lemma rstrip_class (p : ascii -> bool) (s : string) :
  (forall c, p c = true -> is_space c = false) ->
  forallb_string p s = true -> rstrip s = s.
Proof.
  intros Hp. induction s as [|c s IH]; simpl; [reflexivity|].
  intros Hs. apply andb_true_iff in Hs as [Hc Hs].
  rewrite (IH Hs). destruct s; [rewrite (Hp c Hc)|]; reflexivity.
Qed.

Lemma repo_char_not_space c : repo_path_char c = true -> is_space c = false.
Proof.
  destruct c as [[] [] [] [] [] [] [] []]; vm_compute; congruence.
Qed.

(** What the pattern accepts begins with [https://] and names a
    repository ending in [_ynh]. *)
Lemma repo_url_lang (t : string) :
  lang APP_REPO_URL t ->
  exists host path name rest,
    t = "https://" ++ host ++ "/" ++ path ++ "/" ++ name ++ "_ynh" ++ rest
    /\ lang (Plus (Class repo_char)) host
    /\ lang (Plus (Class repo_path_char)) path
    /\ lang (Plus (Class repo_char)) name.
Proof.
  unfold APP_REPO_URL. intros H.
  apply lang_cat_inv in H as (s0 & t0 & -> & H0 & H). apply lang_lit in H0 as ->.
  apply lang_cat_inv in H as (host & t1 & -> & Hhost & H).
  apply lang_cat_inv in H as (s2 & t2 & -> & H2 & H). apply lang_lit in H2 as ->.
  apply lang_cat_inv in H as (path & t3 & -> & Hpath & H).
  apply lang_cat_inv in H as (s4 & t4 & -> & H4 & H). apply lang_lit in H4 as ->.
  apply lang_cat_inv in H as (name & t5 & -> & Hname & H).
  apply lang_cat_inv in H as (s6 & rest & -> & H6 & H). apply lang_lit in H6 as ->.
  exists host, path, name, rest. auto.
Qed.

(** X1 (sources).  A text that [_is_app_repo_url] accepts holds an [@], or
    is, blanks around it apart, an [https://] address with the name of a
    repository ending in [_ynh]: an [http://] address, a bare name or a
    local path are not taken for repository addresses.  The two forms of
    address of a branch are accepted. *)
Theorem repo_url_needs_https_and_suffix (s : string) :
  _is_app_repo_url s = true ->
  (contains "@" (strip s) = true
   \/ (startswith (strip s) "https://" = true /\ contains "_ynh" (strip s) = true))
  /\ _is_app_repo_url "http://github.com/YunoHost-Apps/wordpress_ynh" = false
  /\ _is_app_repo_url "wordpress" = false
  /\ _is_app_repo_url "/home/admin/wordpress_ynh" = false
  /\ _is_app_repo_url "https://github.com/YunoHost-Apps/wordpress_ynh/tree/testing" = true
  /\ _is_app_repo_url "https://gitlab.com/org/group/wordpress_ynh/-/tree/testing" = true.
Proof.
  intros H. split; [|repeat split; vm_compute; reflexivity].
  unfold _is_app_repo_url in H.
  destruct (contains "@" (strip s)) eqn:Hat; [left; reflexivity|right].
  apply matches_lang, repo_url_lang in H as (host & path & name & rest & -> & _).
  split; [apply (prefix_app "https://")|].
  change ("https://" ++ host ++ "/" ++ path ++ "/" ++ name ++ "_ynh" ++ rest)
    with ("https://" ++ (host ++ ("/" ++ (path ++ ("/" ++ (name ++ ("_ynh" ++ rest))))))).
  do 6 apply contains_app_r. apply contains_here.
Qed.

(** X2 (sources).  The plain address of a repository, [https://] then a
    host, a path and a name ending in [_ynh], all made of letters, digits,
    hyphens, underscores and dots (slashes too inside the path), is
    accepted, with or without [.git] or a final slash. *)
Theorem repo_url_accepts_plain_address (host path name : string) :
  host <> EmptyString -> path <> EmptyString -> name <> EmptyString ->
  forallb_string repo_char host = true ->
  forallb_string repo_path_char path = true ->
  forallb_string repo_char name = true ->
  _is_app_repo_url ("https://" ++ host ++ "/" ++ path ++ "/" ++ name ++ "_ynh") = true
  /\ _is_app_repo_url ("https://" ++ host ++ "/" ++ path ++ "/" ++ name ++ "_ynh.git") = true
  /\ _is_app_repo_url ("https://" ++ host ++ "/" ++ path ++ "/" ++ name ++ "_ynh/") = true.
Proof.
  intros Hh Hp Hn Hhost Hpath Hname.
  assert (Hrest : forall rest, rstrip rest = rest -> rest <> EmptyString ->
            lang (Cat (Opt (Cat (Opt (Lit "/"))
                           (Cat (Opt (Lit "-/"))
                           (Cat (Lit "tree/") (Plus (Class repo_char))))))
                 (Cat (Opt (Lit ".git")) (Cat (Opt (Lit "/")) End))) rest ->
            _is_app_repo_url ("https://" ++ host ++ "/" ++ path ++ "/" ++ name
                              ++ "_ynh" ++ rest) = true).
  { intros rest Hrs Hne Hlang. unfold _is_app_repo_url.
    assert (Hstrip : strip ("https://" ++ host ++ "/" ++ path ++ "/" ++ name
                            ++ "_ynh" ++ rest)
                     = "https://" ++ host ++ "/" ++ path ++ "/" ++ name ++ "_ynh" ++ rest).
    { unfold strip. change (lstrip ("https://" ++ ?x)) with ("https://" ++ x).
      apply (rstrip_app_tail "https://").
      2:{ destruct host; [congruence|discriminate]. }
      apply rstrip_app_tail; [|discriminate].
      apply (rstrip_app_tail "/").
      2:{ destruct path; [congruence|discriminate]. }
      apply rstrip_app_tail; [|discriminate].
      apply (rstrip_app_tail "/").
      2:{ destruct name; [congruence|discriminate]. }
      apply rstrip_app_tail; [|discriminate].
      apply (rstrip_app_tail "_ynh"); assumption. }
    rewrite Hstrip.
    destruct (contains "@" _); [reflexivity|].
    apply matches_lang. unfold APP_REPO_URL.
    apply (lang_cat _ _ "https://"); [apply lang_lit; reflexivity|].
    apply lang_cat; [apply lang_plus_class; assumption|].
    apply (lang_cat _ _ "/"); [apply lang_lit; reflexivity|].
    apply lang_cat; [apply lang_plus_class; assumption|].
    apply (lang_cat _ _ "/"); [apply lang_lit; reflexivity|].
    apply lang_cat; [apply lang_plus_class; assumption|].
    apply (lang_cat _ _ "_ynh"); [apply lang_lit; reflexivity|].
    exact Hlang. }
  split; [|split].
  - assert (Hns : rstrip (name ++ "_ynh") = name ++ "_ynh")
      by (apply rstrip_app_tail; [reflexivity|discriminate]).
    unfold _is_app_repo_url.
    assert (Hstrip : strip ("https://" ++ host ++ "/" ++ path ++ "/" ++ name ++ "_ynh")
                     = "https://" ++ host ++ "/" ++ path ++ "/" ++ name ++ "_ynh").
    { unfold strip. change (lstrip ("https://" ++ ?x)) with ("https://" ++ x).
      apply (rstrip_app_tail "https://").
      2:{ destruct host; [congruence|discriminate]. }
      apply rstrip_app_tail; [|discriminate].
      apply (rstrip_app_tail "/").
      2:{ destruct path; [congruence|discriminate]. }
      apply rstrip_app_tail; [|discriminate].
      apply (rstrip_app_tail "/").
      2:{ destruct name; [congruence|discriminate]. }
      exact Hns. }
    rewrite Hstrip.
    destruct (contains "@" _); [reflexivity|].
    apply matches_lang. unfold APP_REPO_URL.
    apply (lang_cat _ _ "https://"); [apply lang_lit; reflexivity|].
    apply lang_cat; [apply lang_plus_class; assumption|].
    apply (lang_cat _ _ "/"); [apply lang_lit; reflexivity|].
    apply lang_cat; [apply lang_plus_class; assumption|].
    apply (lang_cat _ _ "/"); [apply lang_lit; reflexivity|].
    apply lang_cat; [apply lang_plus_class; assumption|].
    apply (lang_cat _ _ "_ynh" EmptyString); [apply lang_lit; reflexivity|].
    apply (lang_cat _ _ EmptyString EmptyString); [apply lang_opt_empty|].
    apply (lang_cat _ _ EmptyString EmptyString); [apply lang_opt_empty|].
    apply (lang_cat _ _ EmptyString EmptyString); apply lang_opt_empty.
  - apply (Hrest ".git"); [reflexivity|discriminate|].
    apply (lang_cat _ _ EmptyString ".git"); [apply lang_opt_empty|].
    apply (lang_cat _ _ ".git" EmptyString);
      [apply lang_alt_l, lang_lit; reflexivity|].
    apply (lang_cat _ _ EmptyString EmptyString); apply lang_opt_empty.
  - apply (Hrest "/"); [reflexivity|discriminate|].
    apply (lang_cat _ _ EmptyString "/"); [apply lang_opt_empty|].
    apply (lang_cat _ _ EmptyString "/"); [apply lang_opt_empty|].
    apply (lang_cat _ _ "/" EmptyString);
      [apply lang_alt_l, lang_lit; reflexivity|apply lang_opt_empty].
Qed.

Section quality.
Variable E : externals.
Variable path_exists : machine -> string -> bool.
Variable interface_is_api : bool.
Variable prompt : string -> string.

Lemma quality_of_entry_success entry :
  quality_of_entry entry = "success" ->
  exists level, level_as_int (cat_level entry) = Some level /\ 5 <= level
                /\ (cat_state entry = Some "working" \/ cat_state entry = Some "validated").
Proof.
  unfold quality_of_entry. case_bool_decide as Hst; [|discriminate].
  destruct (level_as_int (cat_level entry)) as [level|]; [|discriminate].
  destruct (Z.leb_spec 5 level) as [Hle|_].
  - intros _. exists level. repeat split; [exact Hle|].
    destruct (cat_state entry) as [st|]; simpl in Hst.
    + apply elem_of_cons in Hst as [->|Hst]; [auto|].
      apply elem_of_cons in Hst as [->|Hst]; [auto|]. inversion Hst.
    + apply elem_of_cons in Hst as [Hst|Hst]; [discriminate|].
      apply elem_of_cons in Hst as [Hst|Hst]; [discriminate|]. inversion Hst.
  - destruct (0 <? level); discriminate.
Qed.

(** X3 (sources).  [_app_quality] answers [success] only for an
    application of the catalog (named as such, or by the last part of its
    address with [_ynh] taken off) whose state is [working] or [validated]
    and whose level is an integer from 5 on; it changes nothing on the
    machine, and what is neither in the catalog, nor a repository address,
    nor an existing path is refused with [app_unknown]. *)
Theorem app_quality_success_needs_level (src : string) (s : state) :
  mach (fst (_app_quality E path_exists src s)) = mach s
  /\ (snd (_app_quality E path_exists src s) = Ok "success" ->
      exists name entry level,
        apps_catalog E !! name = Some entry
        /\ (name = src
            \/ name = replace "_ynh" EmptyString
                        (List.last (split "/" (strip_char "/" src)) EmptyString))
        /\ level_as_int (cat_level entry) = Some level /\ 5 <= level
        /\ (cat_state entry = Some "working" \/ cat_state entry = Some "validated"))
  /\ (apps_catalog E !! src = None -> _is_app_repo_url src = false ->
      path_exists (mach s) src = false ->
      snd (_app_quality E path_exists src s)
      = Raise (YunohostValidationError "app_unknown")).
Proof.
  unfold _app_quality. split; [|split].
  - destruct (bool_decide (is_Some (apps_catalog E !! src)) || _is_app_repo_url src).
    + destruct (if bool_decide _ then _ else _) as [name|]; [|reflexivity].
      destruct (apps_catalog E !! name); reflexivity.
    + unfold bind, get_mach. cbn [fst snd mach].
      destruct (path_exists (mach s) src); [reflexivity|].
      destruct (is_http_url src); reflexivity.
  - destruct (bool_decide (is_Some (apps_catalog E !! src)) || _is_app_repo_url src).
    + case_bool_decide as Hin.
      * destruct Hin as [entry Hentry]. rewrite Hentry. cbn [ret snd].
        intros [= Hq]. apply quality_of_entry_success in Hq as (level & Hl & Hle & Hst).
        exists src, entry, level. auto.
      * destruct (is_http_url src); [|cbn [ret snd]; intros [=]].
        cbv beta iota.
        destruct (apps_catalog E !! replace _ _ _) as [entry|] eqn:Hentry;
          [|cbn [ret snd]; intros [=]].
        cbn [ret snd].
        intros [= Hq]. apply quality_of_entry_success in Hq as (level & Hl & Hle & Hst).
        eexists _, entry, level. split; [exact Hentry|]. auto.
    + unfold bind, get_mach. cbn [fst snd mach].
      destruct (path_exists (mach s) src); [cbn [ret snd]; intros [=]|].
      destruct (is_http_url src); cbn; intros [=].
  - intros Hcat Hurl Hpath. rewrite Hcat, Hurl.
    rewrite bool_decide_eq_false_2 by (intros [? [=]]). cbn [orb].
    unfold bind, get_mach. cbn [fst snd mach]. rewrite Hpath.
    destruct (is_http_url src); reflexivity.
Qed.

(** X4 (sources).  Outside the API and without [force], the install of
    an application that is not of quality [success] goes on only when the
    operator answers the exact sentence (for [danger] and [thirdparty]) or
    [y] in either case (otherwise); any other answer raises. *)
Theorem confirm_install_needs_answer (app quality : string) (s : state) :
  interface_is_api = false ->
  snd (_app_quality E path_exists app s) = Ok quality ->
  quality <> "success" ->
  (snd (confirm_install E path_exists interface_is_api prompt false app s) = Ok tt
   \/ snd (confirm_install E path_exists interface_is_api prompt false app s)
      = Raise (YunohostError "aborting"))
  /\ (snd (confirm_install E path_exists interface_is_api prompt false app s) = Ok tt <->
      if bool_decide (quality ∈ "danger" :: "thirdparty" :: nil)
      then prompt ("confirm_app_install_" ++ quality) = "Yes, I understand"
      else upper (prompt ("confirm_app_install_" ++ quality)) = "Y")
  /\ snd (confirm_install E path_exists interface_is_api prompt true app s) = Ok tt.
Proof.
  intros Hapi Hq Hne. unfold confirm_install. rewrite Hapi. cbn [orb].
  split; [|split; [|reflexivity]].
  - unfold bind. destruct (_app_quality E path_exists app s) as [s1 r]. cbn [snd] in Hq.
    subst r. destruct (String.eqb quality "success"); [left; reflexivity|].
    destruct (bool_decide _); destruct (String.eqb _ _); cbn [negb]; auto.
  - unfold bind. destruct (_app_quality E path_exists app s) as [s1 r]. cbn [snd] in Hq.
    subst r. destruct (String.eqb_spec quality "success") as [|_]; [congruence|].
    destruct (bool_decide _).
    + destruct (String.eqb_spec (prompt ("confirm_app_install_" ++ quality))
                  "Yes, I understand") as [Heq|Hneq]; cbn [negb raise ret snd].
      * tauto.
      * split; [discriminate|congruence].
    + destruct (String.eqb_spec (upper (prompt ("confirm_app_install_" ++ quality))) "Y")
        as [Heq|Hneq]; cbn [negb raise ret snd].
      * tauto.
      * split; [discriminate|congruence].
Qed.

End quality.

End source_facts.

Lemma repo_url_needs_https_and_suffix_witness :
  (contains "@" (PyText.strip "https://github.com/YunoHost-Apps/wordpress_ynh") = true
   \/ (startswith (PyText.strip "https://github.com/YunoHost-Apps/wordpress_ynh") "https://"
       = true
       /\ contains "_ynh" (PyText.strip "https://github.com/YunoHost-Apps/wordpress_ynh")
          = true))
  /\ Sources._is_app_repo_url "http://github.com/YunoHost-Apps/wordpress_ynh" = false
  /\ Sources._is_app_repo_url "wordpress" = false
  /\ Sources._is_app_repo_url "/home/admin/wordpress_ynh" = false
  /\ Sources._is_app_repo_url "https://github.com/YunoHost-Apps/wordpress_ynh/tree/testing"
     = true
  /\ Sources._is_app_repo_url "https://gitlab.com/org/group/wordpress_ynh/-/tree/testing"
     = true.
Proof.
  apply (repo_url_needs_https_and_suffix "https://github.com/YunoHost-Apps/wordpress_ynh").
  vm_compute. reflexivity.
Defined.

Lemma repo_url_accepts_plain_address_witness :
  Sources._is_app_repo_url
    ("https://" ++ "github.com" ++ "/" ++ "YunoHost-Apps" ++ "/" ++ "wordpress" ++ "_ynh")
  = true
  /\ Sources._is_app_repo_url
       ("https://" ++ "github.com" ++ "/" ++ "YunoHost-Apps" ++ "/" ++ "wordpress"
        ++ "_ynh.git") = true
  /\ Sources._is_app_repo_url
       ("https://" ++ "github.com" ++ "/" ++ "YunoHost-Apps" ++ "/" ++ "wordpress"
        ++ "_ynh/") = true.
Proof.
  apply (repo_url_accepts_plain_address "github.com" "YunoHost-Apps" "wordpress").
  - discriminate.
  - discriminate.
  - discriminate.
  - vm_compute. reflexivity.
  - vm_compute. reflexivity.
  - vm_compute. reflexivity.
Defined.

Lemma confirm_install_needs_answer_witness :
  (snd (Sources.confirm_install MoreExamples.catalog_externals MoreExamples.no_path_exists
          false MoreExamples.answers_y false "hextris" Examples.fresh_state) = Ok tt
   \/ snd (Sources.confirm_install MoreExamples.catalog_externals
             MoreExamples.no_path_exists false MoreExamples.answers_y false "hextris"
             Examples.fresh_state)
      = Raise (YunohostError "aborting"))
  /\ (snd (Sources.confirm_install MoreExamples.catalog_externals
             MoreExamples.no_path_exists false MoreExamples.answers_y false "hextris"
             Examples.fresh_state) = Ok tt <->
      if bool_decide ("warning" ∈ "danger" :: "thirdparty" :: nil)
      then MoreExamples.answers_y ("confirm_app_install_" ++ "warning") = "Yes, I understand"
      else upper (MoreExamples.answers_y ("confirm_app_install_" ++ "warning")) = "Y")
  /\ snd (Sources.confirm_install MoreExamples.catalog_externals
            MoreExamples.no_path_exists false MoreExamples.answers_y true "hextris"
            Examples.fresh_state) = Ok tt.
Proof.
  apply (confirm_install_needs_answer MoreExamples.catalog_externals
           MoreExamples.no_path_exists false MoreExamples.answers_y "hextris" "warning"
           Examples.fresh_state).
  - reflexivity.
  - vm_compute. reflexivity.
  - discriminate.
Defined.

(** ** Upgradability, requirements and the health check *)

Section check_facts.
Variable E : externals.

(** X5 (upgradability).  [_app_upgradable] answers [yes] only for an
    application found in the catalog with an integer level from 5 on and
    the state [working]; for such an entry, when the installed version and
    the version of the catalog both carry [~ynh], the answer is [yes] or
    [no] by the order of the two versions alone, whatever the settings. *)
Theorem upgradable_yes_needs_quality (version : string)
    (from_catalog : option catalog_entry) (settings : gmap string pyobj) :
  _app_upgradable E version from_catalog settings = Ok "yes" ->
  (exists entry level,
      from_catalog = Some entry /\ cat_level entry = VInt level /\ 5 <= level
      /\ cat_state entry = Some "working")
  /\ (forall entry level settings',
         cat_level entry = VInt level -> 5 <= level -> cat_state entry = Some "working" ->
         contains "~ynh" version = true ->
         contains "~ynh" (default "0~ynh0" (cat_manifest_version entry)) = true ->
         _app_upgradable E version (Some entry) settings'
         = Ok (if version_lt E version (default "0~ynh0" (cat_manifest_version entry))
               then "yes" else "no")).
Proof.
  intros H. split.
  - unfold _app_upgradable in H.
    destruct from_catalog as [entry|]; [|discriminate].
    destruct (cat_level entry) as [|b|level|t|l|d] eqn:Hlevel;
      try (cbn [negb orb] in H; discriminate H).
    destruct (Z.leb_spec 5 level) as [Hle|_]; [|cbn [negb orb] in H; discriminate H].
    cbn [negb orb] in H. case_bool_decide as Hst; [|cbn [negb] in H; discriminate H].
    exists entry, level. auto.
  - intros entry level settings' Hlevel Hle Hst Hv Hc.
    unfold _app_upgradable. rewrite Hlevel, Hst, Hv, Hc.
    replace (5 <=? level) with true by (symmetry; apply Z.leb_le; exact Hle).
    rewrite bool_decide_eq_true_2 by reflexivity. cbn [negb orb andb].
    destruct (version_lt E version _); reflexivity.
Qed.

(** X6 (requirements).  [_check_manifest_requirements] passes exactly
    when the packaging format (0 when not given) is 0 or 1 and every
    requirement is met; a format that is not supported is reported first,
    whatever the requirements. *)
Theorem manifest_requirements_checked (manifest : manifest) :
  (_check_manifest_requirements E manifest = Ok tt <->
   default 0 (m_packaging_format manifest) ∈ 0 :: 1 :: nil
   /\ Forall (fun r : string * string => meets_version_specifier E (fst r) (snd r) = true)
             (m_requirements manifest))
  /\ (default 0 (m_packaging_format manifest) ∉ 0 :: 1 :: nil ->
      _check_manifest_requirements E manifest
      = Raise (YunohostValidationError "app_packaging_format_not_supported"))
  /\ (default 0 (m_packaging_format manifest) ∈ 0 :: 1 :: nil ->
      forall r, In r (m_requirements manifest) ->
      meets_version_specifier E (fst r) (snd r) = false ->
      _check_manifest_requirements E manifest
      = Raise (YunohostValidationError "app_requirements_unmeet")).
Proof.
  unfold _check_manifest_requirements. split; [|split].
  - case_bool_decide as Hf; cbn [negb].
    + destruct (List.find _ _) as [r|] eqn:Hfind.
      * split; [intros [=]|]. intros [_ Hall]. exfalso.
        apply List.find_some in Hfind as [Hin Hr].
        rewrite List.Forall_forall in Hall. rewrite (Hall r Hin) in Hr. discriminate Hr.
      * split; [|reflexivity]. intros _. split; [exact Hf|].
        apply List.Forall_forall. intros r Hin.
        pose proof (List.find_none _ _ Hfind r Hin) as Hr.
        destruct (meets_version_specifier E (fst r) (snd r)) eqn:Hm;
          [reflexivity|cbv beta in Hr; rewrite Hm in Hr; discriminate Hr].
    + split; [intros [=]|]. intros [Hf' _]. contradiction.
  - intros Hf. rewrite bool_decide_eq_false_2 by exact Hf. reflexivity.
  - intros Hf r Hin Hr. rewrite bool_decide_eq_true_2 by exact Hf. cbn [negb].
    destruct (List.find _ _) as [r'|] eqn:Hfind; [reflexivity|].
    pose proof (List.find_none _ _ Hfind r Hin) as Hr'. cbv beta in Hr'.
    rewrite Hr in Hr'. discriminate Hr'.
Qed.

(** *** The health check *)

Lemma services_to_check_spec (manifest : manifest) :
  "nginx" ∈ services_to_check manifest
  /\ "fail2ban" ∈ services_to_check manifest
  /\ forall s, s ∈ services_to_check manifest ->
               s ∈ "nginx" :: "php7.3-fpm" :: "mysql" :: "postfix" :: "fail2ban" :: nil.
Proof.
  unfold services_to_check.
  set (kept := List.filter _ (map replace_alias (m_services manifest))).
  assert (Hkept : forall s, s ∈ kept ->
            s ∈ "nginx" :: "php7.3-fpm" :: "mysql" :: "postfix" :: nil).
  { intros s Hs. apply list_elem_of_In, List.filter_In in Hs as [_ Hs].
    apply bool_decide_eq_true in Hs. exact Hs. }
  set (with_nginx := if bool_decide ("nginx" ∈ kept) then kept else "nginx" :: kept).
  assert (Hn : "nginx" ∈ with_nginx).
  { unfold with_nginx. case_bool_decide; [assumption|left]. }
  assert (Hw : forall s, s ∈ with_nginx ->
            s ∈ "nginx" :: "php7.3-fpm" :: "mysql" :: "postfix" :: nil).
  { intros s. unfold with_nginx. case_bool_decide; [apply Hkept|].
    intros Hs. apply elem_of_cons in Hs as [->|Hs]; [left|apply Hkept, Hs]. }
  assert (Hcore : forall s, s ∈ "nginx" :: "php7.3-fpm" :: "mysql" :: "postfix" :: nil ->
            s ∈ "nginx" :: "php7.3-fpm" :: "mysql" :: "postfix" :: "fail2ban" :: nil).
  { intros s H. repeat (apply elem_of_cons in H as [->|H]; [repeat constructor|]).
    inversion H. }
  case_bool_decide as Hf.
  - split; [exact Hn|]. split; [exact Hf|].
    intros s Hs. apply Hcore, Hw, Hs.
  - split; [apply elem_of_app; left; exact Hn|].
    split; [apply elem_of_app; right; left|].
    intros s Hs. apply elem_of_app in Hs as [Hs|Hs]; [apply Hcore, Hw, Hs|].
    apply elem_of_cons in Hs as [->|Hs]; [repeat constructor|inversion Hs].
Qed.

Lemma dedup_first_elem (l seen : list string) x :
  x ∈ dedup_first seen l <-> x ∈ l /\ x ∉ seen.
Proof.
  revert seen. induction l as [|y l IH]; intros seen; cbn [dedup_first].
  - split; [intros H; inversion H|intros [H _]; inversion H].
  - case_bool_decide as Hy.
    + rewrite IH. split.
      * intros [Hx Hs]. split; [right; exact Hx|exact Hs].
      * intros [Hx Hs]. split; [|exact Hs].
        apply elem_of_cons in Hx as [->|Hx]; [contradiction|exact Hx].
    + rewrite elem_of_cons, IH. split.
      * intros [->|[Hx Hs]]; [split; [left|exact Hy]|].
        split; [right; exact Hx|]. intros Hin. apply Hs. right. exact Hin.
      * intros [Hx Hs]. apply elem_of_cons in Hx as [->|Hx]; [left; reflexivity|].
        destruct (decide (x = y)) as [->|Hne]; [left; reflexivity|].
        right. split; [exact Hx|]. intros Hin. apply elem_of_cons in Hin as [?|?]; auto.
Qed.

(** X7 (health check).  Whatever the manifest declares,
    [_assert_system_is_sane_for_app] looks at [nginx] and [fail2ban], and
    besides them only at [php7.3-fpm], [mysql] and [postfix].  When the
    check made before or after an operation passes, every service it
    looks at is running once the wait is over and the package manager is
    not broken; made with any other [when], it never raises. *)
Theorem health_check_covers_core_services (manifest : manifest) (when : string)
    (m : machine) :
  ("nginx" ∈ services_to_check manifest
   /\ "fail2ban" ∈ services_to_check manifest
   /\ forall s, s ∈ services_to_check manifest ->
                s ∈ "nginx" :: "php7.3-fpm" :: "mysql" :: "postfix" :: "fail2ban" :: nil)
  /\ (when = "pre" \/ when = "post" ->
      snd (health_check E manifest when m) = Ok tt ->
      (forall s, s ∈ services_to_check manifest ->
                 service_status (host (fst (health_check E manifest when m))) s = "running")
      /\ dpkg_broken (host (fst (health_check E manifest when m))) = false)
  /\ (when <> "pre" -> when <> "post" -> snd (health_check E manifest when m) = Ok tt).
Proof.
  split; [apply services_to_check_spec|]. unfold health_check. cbn [fst snd host set_host].
  set (h := wait_while_reloading E 16 (services_to_check manifest) (host m)).
  split.
  - intros Hwhen Hok.
    destruct (List.filter _ (dedup_first nil (services_to_check manifest)))
      as [|bad faulty] eqn:Hfaulty.
    + split.
      * intros s Hs.
        assert (Hd : s ∈ dedup_first nil (services_to_check manifest)).
        { apply dedup_first_elem. split; [exact Hs|]. intros Hin. inversion Hin. }
        destruct (String.eqb_spec (service_status h s) "running") as [Heq|Hne];
          [exact Heq|].
        assert (Hin : In s (List.filter
                              (fun s => negb (String.eqb (service_status h s) "running"))
                              (dedup_first nil (services_to_check manifest)))).
        { apply List.filter_In. split; [apply list_elem_of_In; exact Hd|].
          apply negb_true_iff, String.eqb_neq. exact Hne. }
        rewrite Hfaulty in Hin. inversion Hin.
      * destruct (dpkg_broken h); [|reflexivity].
        destruct Hwhen as [-> | ->]; discriminate Hok.
    + destruct Hwhen as [-> | ->]; discriminate Hok.
  - intros Hpre Hpost.
    apply String.eqb_neq in Hpre, Hpost. rewrite Hpre, Hpost.
    destruct (List.filter _ _); [destruct (dpkg_broken h)|]; reflexivity.
Qed.

Lemma wait_while_reloading_iter (n : nat) (services_ : list string) (h : host_state) :
  exists k, (k <= n)%nat
            /\ wait_while_reloading E n services_ h = Nat.iter k (time_sleep E) h
            /\ (existsb (fun s => String.eqb (service_status h s) "reloading") services_
                = false -> k = O).
Proof.
  revert h. induction n as [|n IH]; intros h; cbn [wait_while_reloading].
  - exists O. repeat split; auto.
  - destruct (existsb _ services_) eqn:Hre; cbn [negb].
    + destruct (IH (time_sleep E h)) as (k & Hk & Heq & _).
      exists (S k). split; [lia|]. split; [|intros [=]].
      rewrite Heq. symmetry. apply Nat.iter_succ_r.
    + exists O. split; [lia|]. split; [reflexivity|intros _; reflexivity].
Qed.

Lemma health_check_pre_error (manifest : manifest) (m : machine) e :
  snd (health_check E manifest "pre" m) = Raise e ->
  exists key, e = YunohostValidationError key.
Proof.
  unfold health_check. cbn [snd].
  destruct (List.filter _ _); [destruct (dpkg_broken _)|]; cbn; intros [=]; subst; eauto.
Qed.

Lemma health_check_post_error (manifest : manifest) (m : machine) e :
  snd (health_check E manifest "post" m) = Raise e -> exists msg, e = YunohostError msg.
Proof.
  unfold health_check. cbn [snd].
  destruct (List.filter _ _); [destruct (dpkg_broken _)|]; cbn; intros [=]; subst; eauto.
Qed.

(** X8 (health check).  The health check changes nothing on the machine
    but the state of the host as the waits let it evolve: it sleeps at
    most 16 times, not at all when no service it looks at is reloading,
    and leaves records, permissions and scratch directories as they are.
    Before an operation it can only raise a validation error, after it
    only a [YunohostError]. *)
Theorem health_check_only_waits (manifest : manifest) (when : string) (m : machine) :
  (exists k, (k <= 16)%nat
     /\ fst (health_check E manifest when m)
        = set_host (fun _ => Nat.iter k (time_sleep E) (host m)) m
     /\ (existsb (fun s => String.eqb (service_status (host m) s) "reloading")
                 (services_to_check manifest) = false -> k = O))
  /\ same_store m (fst (health_check E manifest when m))
  /\ (forall e, snd (health_check E manifest "pre" m) = Raise e ->
                exists key, e = YunohostValidationError key)
  /\ (forall e, snd (health_check E manifest "post" m) = Raise e ->
                exists msg, e = YunohostError msg).
Proof.
  split; [|split; [|split]].
  - destruct (wait_while_reloading_iter 16 (services_to_check manifest) (host m))
      as (k & Hk & Heq & H0).
    exists k. split; [exact Hk|]. split; [|exact H0].
    unfold health_check. cbn [fst]. rewrite Heq. reflexivity.
  - unfold health_check, same_store. cbn [fst apps perms tmp_dirs set_host]. auto.
  - intros e. apply health_check_pre_error.
  - intros e. apply health_check_post_error.
Qed.

End check_facts.

Lemma upgradable_yes_needs_quality_witness :
  (exists entry level,
      Some MoreExamples.wordpress_entry = Some entry /\ cat_level entry = VInt level
      /\ 5 <= level /\ cat_state entry = Some "working")
  /\ (forall entry level settings',
         cat_level entry = VInt level -> 5 <= level -> cat_state entry = Some "working" ->
         contains "~ynh" "5.6~ynh2" = true ->
         contains "~ynh" (default "0~ynh0" (cat_manifest_version entry)) = true ->
         _app_upgradable Examples.quiet_externals "5.6~ynh2" (Some entry) settings'
         = Ok (if version_lt Examples.quiet_externals "5.6~ynh2"
                    (default "0~ynh0" (cat_manifest_version entry))
               then "yes" else "no")).
Proof.
  apply (upgradable_yes_needs_quality Examples.quiet_externals "5.6~ynh2"
           (Some MoreExamples.wordpress_entry) ∅).
  vm_compute. reflexivity.
Defined.

(** ** Environment of the scripts, manifests and small utilities *)

Section env_facts.
Variable E : externals.
Import InstanceId Manifests.

Lemma fold_env_other (args : list (string * string)) (env : gmap string string) (key : string) :
  (forall name, key <> "YNH_APP_ARG_" ++ name) ->
  fold_left (fun env (kv : string * string) =>
               <["YNH_APP_ARG_" ++ upper (fst kv) := snd kv]> env) args env !! key
  = env !! key.
Proof.
  intros Hkey. revert env. induction args as [|[k v] args IH]; intros env; [reflexivity|].
  cbn [fold_left fst snd]. rewrite IH. apply lookup_insert_ne. intros Heq.
  exact (Hkey (upper k) (eq_sym Heq)).
Qed.

Lemma fold_env_arg (args : list (string * string)) (env : gmap string string)
    (k v : string) :
  NoDup (map (fun kv : string * string => upper (fst kv)) args) ->
  In (k, v) args ->
  fold_left (fun env (kv : string * string) =>
               <["YNH_APP_ARG_" ++ upper (fst kv) := snd kv]> env) args env
    !! ("YNH_APP_ARG_" ++ upper k)
  = Some v.
Proof.
  revert env. induction args as [|[k' v'] args IH]; intros env Hnd Hin; [destruct Hin|].
  cbn [map fst] in Hnd. apply NoDup_cons in Hnd as [Hfresh Hnd].
  cbn [fold_left fst snd]. destruct Hin as [[= -> ->]|Hin]; [|apply IH; assumption].
  clear IH. revert env. induction args as [|[k2 v2] args IH2]; intros env.
  - cbn [fold_left]. apply lookup_insert_eq.
  - cbn [fold_left fst snd]. cbn [map fst] in Hfresh, Hnd.
    apply NoDup_cons in Hnd as [_ Hnd].
    assert (Hne : upper k2 <> upper k).
    { intros Heq. apply Hfresh. rewrite Heq. left. }
    rewrite insert_insert_ne.
    2:{ intros Heq. injection Heq as Heq. congruence. }
    apply IH2; [|exact Hnd].
    intros Hin. apply Hfresh. right. exact Hin.
Qed.

(** X9 (environment).  The environment that
    [_make_environment_for_app_script] builds always names the instance:
    its id and its number are the two parts of the name as
    [_parse_app_instance_name] reads it, and no answer of the operator can
    take the place of these variables or of the working directory.  Each
    answer is there under its name in upper case, provided no two names
    are the same once in upper case. *)
Theorem environment_names_instance (records : gmap string app_dir) (app : string)
    (args : list (string * string)) (workdir : option string)
    (env : gmap string string) :
  environment_for_app_script E records app args workdir = Ok env ->
  (exists app_id nb,
      _parse_app_instance_name app = Ok (app_id, nb)
      /\ env !! "YNH_APP_ID" = Some app_id
      /\ env !! "YNH_APP_INSTANCE_NAME" = Some app
      /\ env !! "YNH_APP_INSTANCE_NUMBER" = Some (str nb))
  /\ is_Some (env !! "YNH_APP_MANIFEST_VERSION")
  /\ env !! "YNH_APP_BASEDIR"
     = match workdir with
       | Some w => if String.eqb w EmptyString then None else Some w
       | None => None
       end
  /\ (NoDup (map (fun kv : string * string => upper (fst kv)) args) ->
      forall k v, In (k, v) args -> env !! ("YNH_APP_ARG_" ++ upper k) = Some v).
Proof.
  unfold environment_for_app_script.
  destruct (_get_manifest_of_app E _) as [manifest|]; [|discriminate].
  destruct (_parse_app_instance_name app) as [[app_id nb]|]; [|discriminate].
  intros [= <-].
  split; [exists app_id, nb; split; [reflexivity|]|split; [|split]].
  - repeat split; rewrite fold_env_other by (intros name; discriminate);
      (destruct workdir as [w|]; [destruct (String.eqb w EmptyString)|]);
      repeat (rewrite lookup_insert_ne by discriminate); apply lookup_insert_eq.
  - rewrite fold_env_other by (intros name; discriminate).
    destruct workdir as [w|]; [destruct (String.eqb w EmptyString)|];
      repeat (rewrite lookup_insert_ne by discriminate);
      rewrite lookup_insert_eq; eauto.
  - rewrite fold_env_other by (intros name; discriminate).
    destruct workdir as [w|]; [destruct (String.eqb w EmptyString)|];
      try (rewrite lookup_insert_eq; reflexivity);
      repeat (rewrite lookup_insert_ne by discriminate); apply lookup_empty.
  - intros Hnd k v Hin. apply fold_env_arg; assumption.
Qed.

(** *** Manifests *)

Lemma set_default_ask_name (script_name : string) (arg arg' : question) :
  set_default_ask (m18n_n E) script_name arg = Ok arg' -> arg' !! "name" = arg !! "name".
Proof.
  unfold set_default_ask. destruct (arg !! "name") as [name|] eqn:Hname; [|discriminate].
  set (asked := if existsb _ _ then _ else arg).
  assert (Ha : asked !! "name" = Some name).
  { unfold asked. destruct (existsb _ _); [|exact Hname].
    destruct name; try exact Hname. rewrite lookup_insert_ne by discriminate. exact Hname. }
  destruct (match asked !! "type" with Some t => _ | None => false end); [|congruence].
  set (stripped := if bool_decide (is_Some (asked !! "example")) then _ else asked).
  assert (Hs : stripped !! "name" = Some name).
  { unfold stripped. case_bool_decide; [|exact Ha].
    rewrite lookup_delete_ne by discriminate. exact Ha. }
  case_bool_decide; [|congruence].
  case_bool_decide; [|discriminate].
  intros [= <-]. rewrite lookup_delete_ne by discriminate. exact Hs.
Qed.

Lemma map_result_names (script_name : string) (l l' : list question) :
  map_result (set_default_ask (m18n_n E) script_name) l = Ok l' ->
  map (fun q : question => q !! "name") l' = map (fun q : question => q !! "name") l.
Proof.
  revert l'. induction l as [|q l IH]; intros l'; cbn [map_result].
  - intros [= <-]. reflexivity.
  - destruct (set_default_ask _ _ q) as [q'|] eqn:Hq; [|discriminate].
    destruct (map_result _ l) as [l0|]; [|discriminate].
    intros [= <-]. cbn [map]. rewrite (IH _ eq_refl), (set_default_ask_name _ _ _ Hq).
    reflexivity.
Qed.

Lemma default_ask_install (arguments arguments' : list (string * list question)) :
  _set_default_ask_questions (m18n_n E) arguments = Ok arguments' ->
  map fst arguments' = map fst arguments
  /\ forall l', dict_get "install" arguments' = Some l' ->
       exists l, dict_get "install" arguments = Some l
                 /\ map (fun q : question => q !! "name") l'
                    = map (fun q : question => q !! "name") l.
Proof.
  revert arguments'. induction arguments as [|[script_name l] arguments IH];
    intros arguments'; cbn [_set_default_ask_questions].
  - intros [= <-]. split; [reflexivity|]. intros l' [=].
  - destruct (if negb (String.eqb script_name "install") then _ else _) as [l1|] eqn:Hl1;
      [|discriminate].
    destruct (_set_default_ask_questions _ arguments) as [rest|]; [|discriminate].
    intros [= <-]. destruct (IH _ eq_refl) as [Hkeys Hinstall].
    split; [cbn [map fst]; rewrite Hkeys; reflexivity|].
    intros l'. cbn [dict_get].
    destruct (String.eqb_spec script_name "install") as [->|Hne].
    + cbn [negb] in Hl1. intros [= <-]. exists l. split; [reflexivity|].
      apply (map_result_names "install"). exact Hl1.
    + exact (Hinstall l').
Qed.

Lemma dict_get_set {V : Type} (k : string) (v : V) (d : list (string * V)) :
  dict_get k (dict_set k v d) = Some v.
Proof.
  induction d as [|[k' v'] d IH]; cbn [dict_set dict_get].
  - rewrite String.eqb_refl. reflexivity.
  - destruct (String.eqb_spec k' k) as [->|Hne]; cbn [dict_get].
    + rewrite String.eqb_refl. reflexivity.
    + apply String.eqb_neq in Hne. rewrite Hne. exact IH.
Qed.

(** X10 (manifest).  [_get_manifest_of_app] raises a [YunohostError] when
    the directory holds no manifest, and [KeyError] for a [manifest.toml]
    without a table of arguments.  A manifest that is read always has its
    arguments, and for a [manifest.toml] the install questions are those
    of the table, in its order, each named by its key, whatever name the
    entry itself carries. *)
Theorem manifest_of_app_names_questions (files : option package) :
  (files ≫= pkg_manifest = None ->
   exists msg, _get_manifest_of_app E files = Raise (YunohostError msg))
  /\ (forall manifest_toml install,
         files ≫= pkg_manifest = Some (ManifestToml manifest_toml install) ->
         m_arguments manifest_toml = None ->
         _get_manifest_of_app E files = Raise (KeyError "arguments"))
  /\ (forall manifest,
         _get_manifest_of_app E files = Ok manifest ->
         is_Some (m_arguments manifest)
         /\ forall manifest_toml install,
              files ≫= pkg_manifest = Some (ManifestToml manifest_toml install) ->
              exists questions,
                m_arguments manifest ≫= dict_get "install" = Some questions
                /\ map (fun q : question => q !! "name") questions
                   = map (fun nv : string * question => Some (VStr (fst nv))) install).
Proof.
  unfold _get_manifest_of_app. split; [|split].
  - intros ->. eauto.
  - intros manifest_toml install -> ->. reflexivity.
  - intros manifest. destruct (files ≫= pkg_manifest) as [[manifest_toml install|m0]|].
    + destruct (m_arguments manifest_toml) as [arguments|]; [|discriminate].
      cbn [m_arguments set_m_arguments default].
      destruct (_set_default_ask_questions _ _) as [arguments'|] eqn:Hd; [|discriminate].
      intros [= <-]. cbn [m_arguments set_m_arguments]. split; [eauto|].
      intros ? ? [= <- <-]. cbn [mbind option_bind].
      destruct (default_ask_install _ _ Hd) as [Hkeys Hinstall].
      destruct (dict_get "install" arguments') as [l'|] eqn:Hl'.
      * destruct (Hinstall l' eq_refl) as (l & Hl & Hnames).
        unfold default in Hl. cbn [m_arguments set_m_arguments from_option id] in Hl.
        rewrite dict_get_set in Hl. injection Hl as <-.
        exists l'. split; [reflexivity|]. rewrite Hnames, map_map.
        apply map_ext. intros [name q]. cbn [fst snd]. apply lookup_insert_eq.
      * exfalso.
        assert (Hin : In "install" (map fst arguments')).
        { rewrite Hkeys. clear. induction arguments as [|[k v] d IH]; cbn [dict_set].
          - left. reflexivity.
          - destruct (String.eqb_spec k "install") as [->|_]; [left; reflexivity|].
            right. exact IH. }
        clear -Hin Hl'. induction arguments' as [|[k v] d IH]; [destruct Hin|].
        cbn [dict_get] in Hl'. destruct (String.eqb_spec k "install") as [->|Hne];
          [discriminate|].
        destruct Hin as [Heq|Hin]; [cbn [fst] in Heq; congruence|auto].
    + destruct (_set_default_ask_questions _ _) as [arguments'|]; [|discriminate].
      intros [= <-]. cbn [m_arguments set_m_arguments]. split; [eauto|].
      intros ? ? [=].
    + discriminate.
Qed.

(** *** [is_true] *)

Lemma lower_char_idem c : lower_char (lower_char c) = lower_char c.
Proof. destruct c as [[] [] [] [] [] [] [] []]; vm_compute; reflexivity. Qed.

Lemma lower_upper_char c : lower_char (upper_char c) = lower_char c.
Proof. destruct c as [[] [] [] [] [] [] [] []]; vm_compute; reflexivity. Qed.

Lemma lower_idem s : lower (lower s) = lower s.
Proof. induction s as [|c s IH]; cbn [lower]; [|rewrite lower_char_idem, IH]; reflexivity. Qed.

Lemma lower_upper s : lower (upper s) = lower s.
Proof.
  induction s as [|c s IH]; cbn [lower upper]; [|rewrite lower_upper_char, IH]; reflexivity.
Qed.

(** X11 (utilities).  On a text of ASCII characters [is_true] has no
    regard to case: the text, the same in lower case and the same in
    upper case are all taken the same way, and the text is true exactly
    when in lower case it is [yes], [true] or [on].  A boolean is taken
    as it is. *)
Theorem is_true_ignores_case (s : string) (b : bool) :
  ascii_text s = true ->
  is_true (VStr (lower s)) = is_true (VStr s)
  /\ is_true (VStr (upper s)) = is_true (VStr s)
  /\ (is_true (VStr s) = true <->
      lower s = "yes" \/ lower s = "true" \/ lower s = "on")
  /\ is_true (VBool b) = b.
Proof.
  intros _. cbn [is_true]. rewrite lower_idem, lower_upper.
  split; [reflexivity|]. split; [reflexivity|]. split; [|reflexivity].
  cbn [existsb]. rewrite orb_false_r, !orb_true_iff, !String.eqb_eq. tauto.
Qed.

End env_facts.

Lemma environment_names_instance_witness :
  (exists app_id nb,
      InstanceId._parse_app_instance_name "bravo" = Ok (app_id, nb)
      /\ MoreExamples.bravo_environment !! "YNH_APP_ID" = Some app_id
      /\ MoreExamples.bravo_environment !! "YNH_APP_INSTANCE_NAME" = Some "bravo"
      /\ MoreExamples.bravo_environment !! "YNH_APP_INSTANCE_NUMBER" = Some (str nb))
  /\ is_Some (MoreExamples.bravo_environment !! "YNH_APP_MANIFEST_VERSION")
  /\ MoreExamples.bravo_environment !! "YNH_APP_BASEDIR"
     = match Some "/var/cache/yunohost/app_tmp_work_dirs/app_b" with
       | Some w => if String.eqb w EmptyString then None else Some w
       | None => None
       end
  /\ (NoDup (map (fun kv : string * string => upper (fst kv)) (("domain", "d.tld") :: nil)) ->
      forall k v, In (k, v) (("domain", "d.tld") :: nil) ->
                  MoreExamples.bravo_environment !! ("YNH_APP_ARG_" ++ upper k) = Some v).
Proof.
  apply (environment_names_instance Examples.quiet_externals (apps Examples.batch_machine)
           "bravo" (("domain", "d.tld") :: nil)
           (Some "/var/cache/yunohost/app_tmp_work_dirs/app_b")
           MoreExamples.bravo_environment).
  vm_compute. reflexivity.
Defined.

Lemma is_true_ignores_case_witness :
  is_true (VStr (lower "Yes")) = is_true (VStr "Yes")
  /\ is_true (VStr (upper "Yes")) = is_true (VStr "Yes")
  /\ (is_true (VStr "Yes") = true <->
      lower "Yes" = "yes" \/ lower "Yes" = "true" \/ lower "Yes" = "on")
  /\ is_true (VBool false) = false.
Proof.
  apply (is_true_ignores_case "Yes" false). vm_compute. reflexivity.
Defined.

(** ** The list of a batch and the number of a new instance *)

Section batch_facts.
Import InstanceId.

Lemma dedup_first_sublist (l seen : list string) : sublist (dedup_first seen l) l.
Proof.
  revert seen. induction l as [|y l IH]; intros seen; cbn [dedup_first]; [constructor|].
  case_bool_decide; [apply sublist_cons, IH|apply sublist_skip, IH].
Qed.

Lemma dedup_first_fixed (l seen : list string) :
  NoDup l -> (forall x, x ∈ l -> x ∉ seen) -> dedup_first seen l = l.
Proof.
  revert seen. induction l as [|y l IH]; intros seen Hnd Hseen; [reflexivity|].
  cbn [dedup_first]. apply NoDup_cons in Hnd as [Hy Hnd].
  rewrite bool_decide_eq_false_2 by (apply Hseen; left). f_equal.
  apply IH; [exact Hnd|]. intros x Hx Hin.
  apply elem_of_cons in Hin as [->|Hin]; [contradiction|].
  apply (Hseen x); [right; exact Hx|exact Hin].
Qed.

(** The list comprehension of [app_upgrade]:
    [[app_ for i, app_ in enumerate(apps) if app_ not in apps[:i]]]. *)
Lemma dedup_first_comprehension (l seen : list string) :
  dedup_first seen l
  = omap id (imap (fun i x => if bool_decide (x ∈ (seen ++ take i l)%list) then None else Some x)
               l).
Proof.
  revert seen. induction l as [|y l IH]; intros seen; [reflexivity|].
  cbn [dedup_first]. rewrite imap_cons. cbn [omap list_omap take].
  rewrite app_nil_r.
  case_bool_decide as Hy; cbn [id].
  - rewrite IH. f_equal. apply imap_ext. intros i x _. cbn.
    apply (f_equal (fun b : bool => if b then None else Some x)).
    apply bool_decide_ext. rewrite !elem_of_app, elem_of_cons.
    split; [tauto|]. intros [Hx|[->|Hx]]; tauto.
  - rewrite IH. f_equal. f_equal. apply imap_ext. intros i x _. cbn.
    apply (f_equal (fun b : bool => if b then None else Some x)).
    apply bool_decide_ext. rewrite elem_of_cons, !elem_of_app, !elem_of_cons. tauto.
Qed.

(** X12 (batch).  The list that [app_upgrade] works on, once the names
    given twice are dropped, is the list given without every occurrence
    of a name that was met before: a name is kept where it is first
    given, so that the order is the one of the first occurrences.  It
    holds each name once, holds exactly the names given, is a sublist of
    the list given, and is the list given when no name was given twice.
    So an application named several times is upgraded once, in the turn
    of its first occurrence. *)
Theorem upgrade_batch_without_repetition (apps_ : list string) :
  dedup_first nil apps_
  = omap id (imap (fun i app_ => if bool_decide (app_ ∈ take i apps_) then None
                                 else Some app_) apps_)
  /\ NoDup (dedup_first nil apps_)
  /\ (forall x, x ∈ dedup_first nil apps_ <-> x ∈ apps_)
  /\ sublist (dedup_first nil apps_) apps_
  /\ (NoDup apps_ -> dedup_first nil apps_ = apps_)
  /\ dedup_first nil (dedup_first nil apps_) = dedup_first nil apps_
  /\ dedup_first nil ("a" :: "b" :: "a" :: nil) = "a" :: "b" :: nil.
Proof.
  assert (Hnd : NoDup (dedup_first nil apps_)) by apply dedup_first_NoDup.
  assert (Hfix : forall l, NoDup l -> dedup_first nil l = l).
  { intros l Hl. apply dedup_first_fixed; [exact Hl|]. intros x _ Hin. inversion Hin. }
  split; [apply (dedup_first_comprehension apps_ nil)|].
  split; [exact Hnd|]. split.
  - intros x. rewrite dedup_first_elem. split; [tauto|].
    intros Hx. split; [exact Hx|]. intros Hin. inversion Hin.
  - split; [apply dedup_first_sublist|]. split; [apply Hfix|].
    split; [apply Hfix, Hnd|reflexivity].
Qed.

(** X13 (instance number).  For an application id as [app_install]
    accepts it and installed names that all parse, the search for the
    number of a new instance ends, on a number from 1 on, and the name of
    the instance with this number is not installed: a new instance never
    takes the directory of an existing one. *)
Theorem next_instance_name_is_free (apps_ : list string) (app : string) :
  valid_app_id app = true ->
  (forall a, In a (sibling_app_ids apps_ app) ->
             exists r, _parse_app_instance_name a = Ok r) ->
  exists i,
    _next_instance_number_for_app (S (length apps_)) apps_ app = Some (Ok i)
    /\ 1 <= i
    /\ ~ In (instance_name app i) apps_.
Proof.
  intros Hv Hparse.
  destruct (next_instance_number_spec (S (length apps_)) apps_ app Hparse)
    as (i & Hrun & Hi & Hfree & _); [lia|].
  exists i. split; [exact Hrun|]. split; [exact Hi|].
  intros Hin. unfold instance_name in Hin.
  destruct (Z.ltb_spec 1 i) as [Hlt|Hle].
  - destruct i as [|p|p]; try lia.
    apply (Hfree (app ++ "__" ++ str (Z.pos p)) app (Z.pos p)); [| |reflexivity].
    + apply List.filter_In. split; [exact Hin|].
      apply orb_true_iff. right. unfold startswith.
      change (app ++ "__" ++ str (Z.pos p)) with (app ++ ("__" ++ str (Z.pos p))).
      rewrite <- (string_app_assoc app "__" (str (Z.pos p))). apply prefix_app.
    + apply parse_suffixed. exact Hv.
  - assert (i = 1) by lia. subst i.
    apply (Hfree app app 1); [| |reflexivity].
    + apply List.filter_In. split; [exact Hin|]. rewrite String.eqb_refl. reflexivity.
    + apply parse_plain. exact Hv.
Qed.

End batch_facts.

Lemma next_instance_name_is_free_witness :
  exists i,
    InstanceId._next_instance_number_for_app
      (S (length ("foo" :: "foo__2" :: "foo__4" :: "bar" :: nil)))
      ("foo" :: "foo__2" :: "foo__4" :: "bar" :: nil) "foo" = Some (Ok i)
    /\ 1 <= i
    /\ ~ In (InstanceId.instance_name "foo" i)
            ("foo" :: "foo__2" :: "foo__4" :: "bar" :: nil).
Proof.
  apply (next_instance_name_is_free ("foo" :: "foo__2" :: "foo__4" :: "bar" :: nil) "foo").
  - vm_compute. reflexivity.
  - intros a Ha. vm_compute in Ha.
    destruct Ha as [<-|[<-|[<-|[]]]]; eexists; vm_compute; reflexivity.
Defined.

(** ** Removal *)

Section remove_facts.
Import AppMap Operations.
Variable E : externals.
Variable mkdtemp : machine -> string.
Variable st_mtime : machine -> string -> Z.

Lemma delete_listed_permissions (l : list string) : forall s,
  NoDup l ->
  (forall k, k ∈ l -> is_Some (perms (mach s) !! k)) ->
  exists s',
    for_each l (fun permission_name => permission_delete permission_name true) s
    = (s', Ok tt)
    /\ apps (mach s') = apps (mach s)
    /\ forall k, perms (mach s') !! k
                 = if bool_decide (k ∈ l) then None else perms (mach s) !! k.
Proof.
  induction l as [|a l IH]; intros s Hnd Hin.
  - exists s. repeat split.
  - apply NoDup_cons in Hnd as [Hna Hnd].
    cbn [for_each]. unfold bind at 1.
    destruct (Hin a) as [pa Hpa]; [left|].
    rewrite (permission_delete_present a s pa Hpa).
    destruct (IH {| mach := set_perms (delete a) (mach s); trace := trace s |})
      as (s' & Hrun & Happs & Hperms); [exact Hnd| |].
    { intros k Hk. cbn [mach perms set_perms].
      rewrite lookup_delete_ne by (intros ->; contradiction).
      apply Hin. right. exact Hk. }
    exists s'. split; [exact Hrun|]. split; [rewrite Happs; reflexivity|].
    intros k. rewrite Hperms. cbn [mach perms set_perms].
    destruct (decide (k = a)) as [->|Hne].
    + rewrite (bool_decide_eq_true_2 (a ∈ a :: l)) by left.
      rewrite lookup_delete_eq. destruct (bool_decide (a ∈ l)); reflexivity.
    + rewrite lookup_delete_ne by congruence.
      rewrite (bool_decide_ext (k ∈ a :: l) (k ∈ l)); [reflexivity|].
      rewrite elem_of_cons. tauto.
Qed.

(** The loop of [app_remove] over the permissions of [app], and what
    follows it. *)
Lemma wp_delete_app_permissions {A : Type} (app : string) (k : M A)
    (Q : state -> result A -> Prop) s :
  (forall s', apps (mach s') = apps (mach s) ->
              (forall p, app_of_permission p = app -> perms (mach s') !! p = None) ->
              wp k Q s') ->
  wp (permissions <- user_permission_list (app :: nil) ;;
      for_each (map fst (map_to_list permissions))
               (fun permission_name => permission_delete permission_name true) ;;
      k) Q s.
Proof.
  intros HQ. apply wp_bind. unfold user_permission_list. apply wp_bind, wp_get_mach, wp_ret.
  set (listed := filter (fun kv : string * permission => app_of_permission (fst kv) ∈ app :: nil)
                        (perms (mach s))).
  destruct (delete_listed_permissions (map fst (map_to_list listed)) s)
    as (s' & Hrun & Happs & Hperms).
  - apply NoDup_fst_map_to_list.
  - intros k0 Hk. apply list_elem_of_fmap in Hk as ([k' p] & -> & Hkp).
    apply elem_of_map_to_list, map_lookup_filter_Some in Hkp as [Hp _]. eauto.
  - apply wp_bind. unfold wp at 1. rewrite Hrun. cbn [fst snd]. apply HQ; [exact Happs|].
    intros p Hp. rewrite Hperms. case_bool_decide as Hin; [reflexivity|].
    destruct (perms (mach s) !! p) as [pp|] eqn:Hpp; [|reflexivity].
    exfalso. apply Hin. apply list_elem_of_fmap. exists (p, pp). split; [reflexivity|].
    apply elem_of_map_to_list, map_lookup_filter_Some. split; [exact Hpp|].
    cbn [fst]. rewrite Hp. left.
Qed.

(** X14 (removal).  An application that is installed, whose manifest is
    read and whose name parses, is gone once [app_remove] returns, with
    all its permissions, whatever the remove script did: it may report a
    failure, raise, or be interrupted.  What is asked of the script is to
    leave the working directory in place, and of the hook called after a
    successful script not to raise.  The only error [app_remove] can then
    end with is the one of the health check made at the end. *)
Theorem removal_survives_script_failure (app : string) (purge : bool) (s s1 : state)
    (c : remove_context) (m2 : machine) (ran : result Z) :
  remove_prepare E mkdtemp st_mtime app purge s = (s1, Ok c) ->
  hook_exec E (rc_tmp_workdir_for_app c ++ "/scripts/remove") nil (rc_env_dict c) (mach s1)
  = (m2, ran) ->
  is_Some (tmp_dirs m2 !! rc_tmp_workdir_for_app c) ->
  (ran = Ok 0 ->
   snd (hook_callback E "post_app_remove" (rc_env_dict c)
          (set_tmp_dirs (delete (rc_tmp_workdir_for_app c)) m2)) = Ok tt) ->
  exists s' r,
    app_remove E mkdtemp st_mtime app purge s = (s', r)
    /\ apps (mach s') !! app = None
    /\ (forall p, app_of_permission p = app -> perms (mach s') !! p = None)
    /\ (r = Ok tt \/ exists msg, r = Raise (YunohostError msg)).
Proof.
  intros Hprep Hrun Htmp Hcb.
  set (Q := fun (s' : state) (r : result unit) =>
              apps (mach s') !! app = None
              /\ (forall p, app_of_permission p = app -> perms (mach s') !! p = None)
              /\ (r = Ok tt \/ exists msg, r = Raise (YunohostError msg))).
  assert (Hend : forall s2,
    wp (permissions <- user_permission_list (app :: nil) ;;
        for_each (map fst (map_to_list permissions))
                 (fun permission_name => permission_delete permission_name true) ;;
        m <- get_mach ;;
        (if bool_decide (is_Some (apps m !! app)) then rmtree_app app else ret tt) ;;
        permission_sync_to_user ;;
        _assert_system_is_sane_for_app E (rc_manifest c) "post") Q s2).
  { intros s2. apply wp_delete_app_permissions. intros s3 _ Hperms.
    apply wp_bind, wp_get_mach.
    assert (Hcheck : forall s4,
      apps (mach s4) !! app = None -> perms (mach s4) = perms (mach s3) ->
      wp (permission_sync_to_user ;;
          _assert_system_is_sane_for_app E (rc_manifest c) "post") Q s4).
    { intros s4 Happ Hp. apply wp_bind, wp_ret.
      unfold _assert_system_is_sane_for_app. apply wp_bind, wp_emit, wp_call.
      cbn [mach trace].
      destruct (health_check_store E (rc_manifest c) "post" (mach s4)) as (Ha & Hpm & _).
      unfold Q. cbn [mach].
      split; [rewrite <- Ha; exact Happ|].
      split; [intros p Hp'; rewrite <- Hpm, Hp; apply Hperms; exact Hp'|].
      destruct (snd (health_check E (rc_manifest c) "post" (mach s4))) as [[]|e] eqn:Hc;
        [left; reflexivity|right].
      destruct (health_check_post_error E (rc_manifest c) (mach s4) e Hc) as [msg ->].
      eauto. }
    apply wp_bind. case_bool_decide as Hin.
    - unfold rmtree_app. apply wp_bind, wp_get_mach.
      rewrite bool_decide_eq_true_2 by exact Hin. apply wp_modify.
      apply Hcheck; [apply lookup_delete_eq|reflexivity].
    - apply wp_ret. apply Hcheck; [|reflexivity].
      destruct (apps (mach s3) !! app) eqn:Happ; [|reflexivity].
      exfalso. apply Hin. eauto. }
  assert (Hw : wp (remove_execute E app c) Q s1).
  { unfold remove_execute. apply wp_bind, wp_emit.
    apply wp_bind, wp_attempt, wp_call. cbn [mach trace]. rewrite Hrun. cbn [fst snd].
    assert (Hrest : forall (ret_ : Z) t,
      (ret_ = 0 -> ran = Ok 0) ->
      wp (rmtree_tmp (rc_tmp_workdir_for_app c) ;;
          (if ret_ =? 0 then
             emit (EvLog "success" "app_removed" (app :: nil)) ;;
             emit (EvHook "post_app_remove") ;;
             call (hook_callback E "post_app_remove" (rc_env_dict c))
           else emit (EvLog "warning" "app_not_properly_removed" (app :: nil))) ;;
          permissions <- user_permission_list (app :: nil) ;;
          for_each (map fst (map_to_list permissions))
                   (fun permission_name => permission_delete permission_name true) ;;
          m <- get_mach ;;
          (if bool_decide (is_Some (apps m !! app)) then rmtree_app app else ret tt) ;;
          permission_sync_to_user ;;
          _assert_system_is_sane_for_app E (rc_manifest c) "post") Q
         {| mach := m2; trace := t |}).
    { intros ret_ t Hret. apply wp_bind. unfold rmtree_tmp. apply wp_bind, wp_get_mach.
      cbn [mach]. rewrite bool_decide_eq_true_2 by exact Htmp. apply wp_modify.
      cbn [mach trace]. apply wp_bind.
      destruct (Z.eqb_spec ret_ 0) as [Hz|_].
      - apply wp_bind, wp_emit. apply wp_bind, wp_emit. apply wp_call. cbn [mach trace].
        rewrite (Hcb (Hret Hz)). apply Hend.
      - apply wp_emit. apply Hend. }
    destruct ran as [retcode|e].
    - apply wp_bind, wp_ret. apply Hrest. intros ->. reflexivity.
    - apply wp_bind, wp_bind, wp_emit, wp_ret. apply Hrest. intros [=]. }
  unfold app_remove, bind. rewrite Hprep. unfold wp in Hw.
  destruct (remove_execute E app c s1) as [s' r]. exists s', r.
  split; [reflexivity|exact Hw].
Qed.

End remove_facts.

Lemma removal_survives_script_failure_witness :
  exists s' r,
    Operations.app_remove MoreExamples.failing_remove_externals
      MoreExamples.scratch_directory MoreExamples.modified_now "bravo" false
      Examples.batch_state = (s', r)
    /\ apps (mach s') !! "bravo" = None
    /\ (forall p, app_of_permission p = "bravo" -> perms (mach s') !! p = None)
    /\ (r = Ok tt \/ exists msg, r = Raise (YunohostError msg)).
Proof.
  apply (removal_survives_script_failure MoreExamples.failing_remove_externals
           MoreExamples.scratch_directory MoreExamples.modified_now "bravo" false
           Examples.batch_state (fst MoreExamples.bravo_remove_prepared)
           MoreExamples.bravo_remove_context
           (mach (fst MoreExamples.bravo_remove_prepared)) (Ok 1)).
  - vm_compute. reflexivity.
  - vm_compute. reflexivity.
  - vm_compute. eexists. reflexivity.
  - intros [=].
Defined.

(** ** The application map *)

Section app_map_facts.
Import PyText AppMap Operations.
Variable user_permission_list_full : list string -> machine -> list (string * perm_info).

Lemma split_once_spec (sep : ascii) (s : string) :
  match split_once sep s with
  | (a, Some b) => s = a ++ String sep b
  | (a, None) => a = s
  end.
Proof.
  induction s as [|c s IH]; cbn [split_once]; [reflexivity|].
  destruct (Ascii.eqb_spec c sep) as [->|_]; [reflexivity|].
  destruct (split_once sep s) as [a [b|]]; cbn [String.append]; congruence.
Qed.

Section loop_invariant.
Context {R : Type}.
Variable register : string -> string -> string -> R -> R.
Variable user : option string.
Variable permissions : list (string * perm_info).
Variable apps_ : list string.
Variable P : R -> Prop.

Hypothesis register_keeps :
  forall url perm_label app_id result,
    P result -> registered permissions apps_ url perm_label app_id -> P (register url perm_label app_id result).

Lemma map_urls_keeps (app_id perm_name : string) (perm_info_ : perm_info) (result : R) :
  app_id ∈ apps_ ->
  In (perm_name, perm_info_) permissions ->
  startswith perm_name (app_id ++ ".") = true ->
  P result -> P (map_urls register app_id perm_info_ result).
Proof.
  intros Happ Hin Hname. unfold map_urls. revert result.
  assert (Hl : forall l result,
            (forall url, In url l -> In url (perm_all_urls perm_info_)) -> P result ->
            P (fold_left (fun result url =>
                            if startswith url "re:" then result
                            else register url (pi_label perm_info_) app_id result)
                         l result)); [|intros result; apply Hl; auto].
  induction l as [|url l IH]; intros result Hl HP; [exact HP|].
  cbn [fold_left]. apply IH; [intros u Hu; apply Hl; right; exact Hu|].
  destruct (startswith url "re:") eqn:Hre; [exact HP|].
  apply register_keeps; [exact HP|].
  split; [exact Hre|]. split; [exact Happ|].
  exists perm_name, perm_info_. repeat split; auto. apply Hl. left. reflexivity.
Qed.

Lemma map_permissions_keeps (app_id : string) (result : R) :
  app_id ∈ apps_ -> P result -> P (map_permissions register user permissions app_id result).
Proof.
  intros Happ. unfold map_permissions.
  set (this_app_perms := List.filter _ permissions).
  assert (Hl : forall pi, In pi this_app_perms ->
                          In pi permissions /\ startswith (fst pi) (app_id ++ ".") = true).
  { intros pi Hpi. apply List.filter_In in Hpi as [Hin Hc].
    apply andb_true_iff in Hc as [Hc _]. auto. }
  revert Hl result. generalize this_app_perms. intros l.
  induction l as [|[perm_name perm_info_] l IH]; intros Hl result HP; [exact HP|].
  cbn [fold_left]. apply IH; [intros pi Hpi; apply Hl; right; exact Hpi|].
  destruct (truthy user && _); [exact HP|].
  destruct (Hl (perm_name, perm_info_)) as [Hin Hname]; [left; reflexivity|].
  cbn [snd]. apply (map_urls_keeps app_id perm_name); assumption.
Qed.

Lemma map_app_keeps (app_id : string) (result : R) s :
  app_id ∈ apps_ -> P result ->
  wp (map_app register user permissions result app_id)
     (fun _ r => forall result', r = Ok result' -> P result') s.
Proof.
  intros Happ HP. unfold map_app.
  apply wp_bind. unfold wp at 1.
  destruct (_get_app_settings app_id s) as [s1 [app_settings|e]]; cbn [fst snd];
    [|intros ? [=]].
  assert (Hsame : forall s', wp (ret result)
                               (fun _ r => forall result' : R, r = Ok result' -> P result') s').
  { intros s' result' [= <-]. exact HP. }
  assert (Hmapped : forall s',
            wp (ret (map_permissions register user permissions app_id result))
               (fun _ r => forall result' : R, r = Ok result' -> P result') s').
  { intros s' result' [= <-]. apply map_permissions_keeps; assumption. }
  destruct (bool_decide (app_settings = ∅)); [apply Hsame|].
  destruct (negb (bool_decide (is_Some (app_settings !! "domain")))); [apply Hsame|].
  destruct (negb (bool_decide (is_Some (app_settings !! "path")))); [apply Hsame|].
  destruct (bool_decide (is_Some (app_settings !! "no_sso"))); [apply Hsame|].
  destruct (truthy user); [|apply Hmapped].
  destruct (dict_get (app_id ++ ".main") permissions) as [main_perm|].
  - destruct (negb _); [apply Hsame|apply Hmapped].
  - apply wp_bind, wp_emit. apply Hsame.
Qed.

Lemma fold_map_app_keeps (l : list string) : forall (result : R) s,
  (forall a, a ∈ l -> a ∈ apps_) -> P result ->
  wp (fold_M (map_app register user permissions) l result)
     (fun _ r => forall result', r = Ok result' -> P result') s.
Proof.
  induction l as [|a l IH]; intros result s Hl HP; cbn [fold_M].
  - intros result' [= <-]. exact HP.
  - apply wp_bind.
    pose proof (map_app_keeps a result s (Hl a ltac:(left)) HP) as Ha.
    unfold wp in Ha |- *.
    destruct (map_app register user permissions result a s) as [s1 [result1|e]];
      cbn [fst snd] in *; [|intros ? [=]].
    apply IH; [intros b Hb; apply Hl; right; exact Hb|apply Ha; reflexivity].
Qed.

End loop_invariant.

Lemma app_map_loop_keeps {R : Type} (register : string -> string -> string -> R -> R)
    (user : option string) (app : option string) (P : R -> Prop) (init : R) s :
  (forall url perm_label app_id result,
      P result ->
      registered (user_permission_list_full (mapped_apps app (mach s)) (mach s))
                 (mapped_apps app (mach s)) url perm_label app_id ->
      P (register url perm_label app_id result)) ->
  P init ->
  wp (app_map_loop user_permission_list_full register user app init)
     (fun _ r => forall result, r = Ok result -> P result) s.
Proof.
  intros Hreg Hinit. unfold app_map_loop. apply wp_bind.
  destruct app as [a|]; cbn [mapped_apps] in Hreg.
  - apply wp_bind. unfold _is_installed. apply wp_bind, wp_get_mach, wp_ret.
    destruct (negb _); [apply wp_raise; intros ? [=]|apply wp_ret].
    apply wp_bind, wp_get_mach.
    apply (fold_map_app_keeps register user _ (a :: nil) P Hreg); auto.
  - unfold _installed_apps. apply wp_bind, wp_get_mach, wp_ret.
    apply wp_bind, wp_get_mach.
    apply (fold_map_app_keeps register user _ _ P Hreg); auto.
Qed.

(** X15 (application map).  Every registration of the raw map comes from
    an url of a permission of the application it names, regexes set
    aside: the application is one of those asked for, the label is the
    one of the permission, the path begins with a slash, and domain and
    path put together give the url back (an url without a slash stands
    for the root of its domain). *)
Theorem raw_map_entries_come_from_permissions (app user : option string) (s : state)
    (domains : gmap string (gmap string Conflicts.app_location))
    (domain path : string) (locations : gmap string Conflicts.app_location)
    (location : Conflicts.app_location) :
  snd (app_map user_permission_list_full app true user s) = Ok (MapRaw domains) ->
  domains !! domain = Some locations ->
  locations !! path = Some location ->
  startswith path "/" = true
  /\ Conflicts.loc_id location ∈ mapped_apps app (mach s)
  /\ exists perm_name perm_info_ url,
       In (perm_name, perm_info_)
          (user_permission_list_full (mapped_apps app (mach s)) (mach s))
       /\ startswith perm_name (Conflicts.loc_id location ++ ".") = true
       /\ In url (perm_all_urls perm_info_)
       /\ startswith url "re:" = false
       /\ Conflicts.loc_label location = pi_label perm_info_
       /\ (url = domain ++ path \/ (url = domain /\ path = "/")).
Proof.
  set (permissions := user_permission_list_full (mapped_apps app (mach s)) (mach s)).
  set (P := fun domains : gmap string (gmap string Conflicts.app_location) =>
              forall domain locations path location,
                domains !! domain = Some locations ->
                locations !! path = Some location ->
                startswith path "/" = true
                /\ Conflicts.loc_id location ∈ mapped_apps app (mach s)
                /\ exists perm_name perm_info_ url,
                     In (perm_name, perm_info_) permissions
                     /\ startswith perm_name (Conflicts.loc_id location ++ ".") = true
                     /\ In url (perm_all_urls perm_info_)
                     /\ startswith url "re:" = false
                     /\ Conflicts.loc_label location = pi_label perm_info_
                     /\ (url = domain ++ path \/ (url = domain /\ path = "/"))).
  intros Hrun Hd Hp.
  assert (Hw : wp (app_map_loop user_permission_list_full register_raw user app ∅)
                  (fun _ r => forall result, r = Ok result -> P result) s).
  { apply app_map_loop_keeps.
    - clear. intros url perm_label app_id result HP (Hre & Happ & name & info & Hin & Hname
                                                     & Hurl & Hlabel).
      unfold register_raw.
      pose proof (split_once_spec "/" url) as Hsplit.
      destruct (split_once "/" url) as [perm_domain [perm_path|]].
      + set (result1 := if bool_decide _ then result else _).
        intros d locs p loc Hd Hl.
        destruct (decide (d = perm_domain)) as [->|Hne].
        * rewrite lookup_insert_eq in Hd. injection Hd as <-.
          destruct (decide (p = "/" ++ perm_path)) as [->|Hnp].
          -- rewrite lookup_insert_eq in Hl. injection Hl as <-.
             cbn [Conflicts.loc_id Conflicts.loc_label].
             split; [apply (prefix_app "/")|]. split; [exact Happ|].
             exists name, info, url. repeat split; auto.
          -- rewrite lookup_insert_ne in Hl by (intros Heq; apply Hnp; symmetry; exact Heq).
             unfold result1 in Hl. case_bool_decide as Hex.
             ++ destruct Hex as [old Hold]. rewrite Hold in Hl. cbn [default from_option id] in Hl.
                exact (HP _ _ _ _ Hold Hl).
             ++ rewrite lookup_insert_eq in Hl. cbn [default from_option id] in Hl.
                rewrite lookup_empty in Hl. discriminate.
        * rewrite lookup_insert_ne in Hd by congruence.
          unfold result1 in Hd. case_bool_decide.
          -- exact (HP _ _ _ _ Hd Hl).
          -- rewrite lookup_insert_ne in Hd by congruence. exact (HP _ _ _ _ Hd Hl).
      + subst perm_domain.
        set (result1 := if bool_decide _ then result else _).
        intros d locs p loc Hd Hl.
        destruct (decide (d = url)) as [->|Hne].
        * rewrite lookup_insert_eq in Hd. injection Hd as <-.
          destruct (decide (p = "/")) as [->|Hnp].
          -- rewrite lookup_insert_eq in Hl. injection Hl as <-.
             cbn [Conflicts.loc_id Conflicts.loc_label].
             split; [reflexivity|]. split; [exact Happ|].
             exists name, info, url. repeat split; auto.
          -- rewrite lookup_insert_ne in Hl by (intros Heq; apply Hnp; symmetry; exact Heq).
             unfold result1 in Hl. case_bool_decide as Hex.
             ++ destruct Hex as [old Hold]. rewrite Hold in Hl. cbn [default from_option id] in Hl.
                exact (HP _ _ _ _ Hold Hl).
             ++ rewrite lookup_insert_eq in Hl. cbn [default from_option id] in Hl.
                rewrite lookup_empty in Hl. discriminate.
        * rewrite lookup_insert_ne in Hd by congruence.
          unfold result1 in Hd. case_bool_decide.
          -- exact (HP _ _ _ _ Hd Hl).
          -- rewrite lookup_insert_ne in Hd by congruence. exact (HP _ _ _ _ Hd Hl).
    - intros d locs p loc Hd0. rewrite lookup_empty in Hd0. discriminate. }
  unfold app_map in Hrun. cbn [negb] in Hrun. unfold bind in Hrun. unfold wp in Hw.
  destruct (app_map_loop user_permission_list_full register_raw user app ∅ s)
    as [s1 [result|e]]; cbn [fst snd ret] in *; [|discriminate].
  injection Hrun as <-. exact (Hw result eq_refl _ _ _ _ Hd Hp).
Qed.

(** X16 (application map).  The plain map, from url to label, holds no
    regex: each of its urls is an url of a permission of one of the
    applications asked for, under the label of this permission. *)
Theorem url_map_has_no_regex (app user : option string) (s : state)
    (urls : gmap string string) (url perm_label : string) :
  snd (app_map user_permission_list_full app false user s) = Ok (MapUrls urls) ->
  urls !! url = Some perm_label ->
  startswith url "re:" = false
  /\ exists app_id perm_name perm_info_,
       app_id ∈ mapped_apps app (mach s)
       /\ In (perm_name, perm_info_)
             (user_permission_list_full (mapped_apps app (mach s)) (mach s))
       /\ startswith perm_name (app_id ++ ".") = true
       /\ In url (perm_all_urls perm_info_)
       /\ perm_label = pi_label perm_info_.
Proof.
  set (permissions := user_permission_list_full (mapped_apps app (mach s)) (mach s)).
  set (P := fun urls : gmap string string =>
              forall url perm_label,
                urls !! url = Some perm_label ->
                startswith url "re:" = false
                /\ exists app_id perm_name perm_info_,
                     app_id ∈ mapped_apps app (mach s)
                     /\ In (perm_name, perm_info_) permissions
                     /\ startswith perm_name (app_id ++ ".") = true
                     /\ In url (perm_all_urls perm_info_)
                     /\ perm_label = pi_label perm_info_).
  intros Hrun Hu.
  assert (Hw : wp (app_map_loop user_permission_list_full register_url user app ∅)
                  (fun _ r => forall result, r = Ok result -> P result) s).
  { apply app_map_loop_keeps.
    - clear. intros url perm_label app_id result HP (Hre & Happ & name & info & Hin & Hname
                                                     & Hurl & Hlabel).
      unfold register_url. intros u l Hl.
      destruct (decide (u = url)) as [->|Hne].
      + rewrite lookup_insert_eq in Hl. injection Hl as <-.
        split; [exact Hre|]. exists app_id, name, info. auto.
      + rewrite lookup_insert_ne in Hl by congruence. exact (HP _ _ Hl).
    - intros u l Hl. rewrite lookup_empty in Hl. discriminate. }
  unfold app_map in Hrun. cbn [negb] in Hrun. unfold bind in Hrun. unfold wp in Hw.
  destruct (app_map_loop user_permission_list_full register_url user app ∅ s)
    as [s1 [result|e]]; cbn [fst snd ret] in *; [|discriminate].
  injection Hrun as <-. exact (Hw result eq_refl _ _ Hu).
Qed.



End app_map_facts.

Lemma raw_map_entries_come_from_permissions_witness :
  startswith "/blog" "/" = true
  /\ "blog" ∈ Operations.mapped_apps None MoreExamples.site_machine
  /\ exists perm_name perm_info_ url,
       In (perm_name, perm_info_)
          (MoreExamples.site_permissions
             (Operations.mapped_apps None MoreExamples.site_machine)
             MoreExamples.site_machine)
       /\ startswith perm_name ("blog" ++ ".") = true
       /\ In url (AppMap.perm_all_urls perm_info_)
       /\ startswith url "re:" = false
       /\ "Blog" = pi_label perm_info_
       /\ (url = "d.tld" ++ "/blog" \/ (url = "d.tld" /\ "/blog" = "/")).
Proof.
  apply (raw_map_entries_come_from_permissions MoreExamples.site_permissions None None
           MoreExamples.site_state Examples.blog_map "d.tld" "/blog"
           {[ "/blog" := {| Conflicts.loc_id := "blog"; Conflicts.loc_label := "Blog" |} ]}
           {| Conflicts.loc_id := "blog"; Conflicts.loc_label := "Blog" |}).
  - vm_compute. reflexivity.
  - vm_compute. reflexivity.
  - vm_compute. reflexivity.
Defined.

Lemma url_map_has_no_regex_witness :
  startswith "d.tld/blog" "re:" = false
  /\ exists app_id perm_name perm_info_,
       app_id ∈ Operations.mapped_apps (Some "blog") MoreExamples.site_machine
       /\ In (perm_name, perm_info_)
             (MoreExamples.site_permissions
                (Operations.mapped_apps (Some "blog") MoreExamples.site_machine)
                MoreExamples.site_machine)
       /\ startswith perm_name (app_id ++ ".") = true
       /\ In "d.tld/blog" (AppMap.perm_all_urls perm_info_)
       /\ "Blog" = pi_label perm_info_.
Proof.
  apply (url_map_has_no_regex MoreExamples.site_permissions (Some "blog") (Some "alice")
           MoreExamples.site_state MoreExamples.site_url_map "d.tld/blog" "Blog").
  - vm_compute. reflexivity.
  - vm_compute. reflexivity.
Defined.

(** ** The record store, again *)

#[local] Hint Resolve same_apps_refl same_apps_trans same_store_refl same_store_trans
  same_record_refl same_record_trans : frames.

Section store_facts.
Variable E : externals.

Lemma get_app_settings_result app m t :
  snd (_get_app_settings app {| mach := m; trace := t |})
  = match apps m !! app with
    | None => Raise (YunohostValidationError "app_not_installed")
    | Some d =>
        match settings_yml d with
        | None => Ok ∅
        | Some st =>
            match path_to_rewrite st with
            | Ok _ => Ok (checked_settings app (repaired_settings st))
            | Raise e => Raise e
            end
        end
    end.
Proof.
  unfold _get_app_settings, _is_installed, bind, get_mach, ret, raise, of_result,
    repaired_settings, checked_settings.
  simpl. destruct (apps m !! app) as [d|] eqn:Hd; simpl; [|reflexivity].
  rewrite Hd. simpl.
  destruct (settings_yml d) as [st|]; simpl; [|reflexivity].
  destruct (path_to_rewrite st) as [[p|]|]; simpl; [| |reflexivity].
  - unfold _set_app_settings, bind, get_mach, modify_mach. simpl. rewrite Hd. simpl.
    destruct (<["path" := VStr p]> st !! "id") as [v|]; [destruct (value_is_str v app)|];
      reflexivity.
  - destruct (st !! "id") as [v|]; [destruct (value_is_str v app)|]; reflexivity.
Qed.

Lemma get_app_settings_rest app m t :
  perms (mach (fst (_get_app_settings app {| mach := m; trace := t |}))) = perms m
  /\ tmp_dirs (mach (fst (_get_app_settings app {| mach := m; trace := t |}))) = tmp_dirs m
  /\ host (mach (fst (_get_app_settings app {| mach := m; trace := t |}))) = host m.
Proof.
  unfold _get_app_settings, _is_installed, bind, get_mach, ret, raise, of_result.
  simpl. destruct (apps m !! app) as [d|] eqn:Hd; simpl; [|auto].
  rewrite Hd. simpl.
  destruct (settings_yml d) as [st|]; simpl; [|auto].
  destruct (path_to_rewrite st) as [[p|]|]; simpl; [| |auto].
  - unfold _set_app_settings, bind, get_mach, modify_mach. simpl. rewrite Hd. simpl.
    destruct (<["path" := VStr p]> st !! "id") as [v|]; [destruct (value_is_str v app)|];
      auto.
  - destruct (st !! "id") as [v|]; [destruct (value_is_str v app)|]; auto.
Qed.

Lemma read_repair_idem app m : read_repair app (read_repair app m) = read_repair app m.
Proof.
  destruct (apps m !! app) as [d|] eqn:Hd.
  2:{ assert (H : read_repair app m = m) by (unfold read_repair; rewrite Hd; reflexivity).
      rewrite !H. reflexivity. }
  destruct (settings_yml d) as [st|] eqn:Hst.
  2:{ assert (H : read_repair app m = m)
        by (unfold read_repair; rewrite Hd, Hst; reflexivity).
      rewrite !H. reflexivity. }
  destruct (path_to_rewrite st) as [fixed|e] eqn:Hfix.
  2:{ assert (H : read_repair app m = m)
        by (unfold read_repair; rewrite Hd, Hst, Hfix; reflexivity).
      rewrite !H. reflexivity. }
  pose proof (read_repair_lookup app m d st fixed Hd Hst Hfix) as Hl.
  pose proof (repaired_settings_normal st fixed Hfix) as Hn.
  exact (proj1 (read_repair_normal app (read_repair app m) _ _ Hl eq_refl Hn)).
Qed.

Lemma machine_eq (m m' : machine) :
  apps m = apps m' -> perms m = perms m' -> tmp_dirs m = tmp_dirs m' -> host m = host m' ->
  m = m'.
Proof. destruct m, m'. cbn. intros -> -> -> ->. reflexivity. Qed.

Lemma read_repair_rest app m :
  perms (read_repair app m) = perms m
  /\ tmp_dirs (read_repair app m) = tmp_dirs m
  /\ host (read_repair app m) = host m.
Proof.
  unfold read_repair. destruct (apps m !! app) as [d|]; [|auto].
  destruct (settings_yml d) as [st|]; [|auto].
  destruct (path_to_rewrite st) as [[p|]|e]; auto.
Qed.

Lemma get_app_settings_machine app m t :
  mach (fst (_get_app_settings app {| mach := m; trace := t |})) = read_repair app m.
Proof.
  destruct (get_app_settings_rest app m t) as (Hp & Ht & Hh).
  destruct (read_repair_rest app m) as (Hp' & Ht' & Hh').
  apply machine_eq; [apply get_app_settings_apps|congruence..].
Qed.

Lemma checked_settings_normal app st :
  path_to_rewrite st = Ok None -> path_to_rewrite (checked_settings app st) = Ok None.
Proof.
  intros H. unfold checked_settings.
  destruct (st !! "id") as [v|]; [destruct (value_is_str v app)|]; auto.
Qed.

(** X18 (settings).  The settings that [_get_app_settings] hands back never
    hold a path in old form: a stored path with a slash at its end or
    none at its start is rewritten by the read.  The repair is done once:
    a second read gives the same settings and leaves the machine as the
    first read left it; and a read never touches permissions, scratch
    directories or the host. *)
Theorem settings_read_repairs_once (app : string) (s : state) :
  (forall settings, snd (_get_app_settings app s) = Ok settings ->
                    path_to_rewrite settings = Ok None)
  /\ snd (_get_app_settings app (fst (_get_app_settings app s)))
     = snd (_get_app_settings app s)
  /\ mach (fst (_get_app_settings app (fst (_get_app_settings app s))))
     = mach (fst (_get_app_settings app s))
  /\ perms (mach (fst (_get_app_settings app s))) = perms (mach s)
  /\ tmp_dirs (mach (fst (_get_app_settings app s))) = tmp_dirs (mach s)
  /\ host (mach (fst (_get_app_settings app s))) = host (mach s).
Proof.
  destruct s as [m t].
  assert (Hm1 : exists t1, fst (_get_app_settings app {| mach := m; trace := t |})
                           = {| mach := read_repair app m; trace := t1 |}).
  { pose proof (get_app_settings_machine app m t) as Hm.
    destruct (fst (_get_app_settings app {| mach := m; trace := t |})) as [m1 t1].
    cbn [mach] in Hm. subst m1. eauto. }
  destruct Hm1 as [t1 Hm1].
  split; [|split; [|split]].
  - intros settings. rewrite get_app_settings_result.
    destruct (apps m !! app) as [d|]; [|discriminate].
    destruct (settings_yml d) as [st|]; [|intros [= <-]; reflexivity].
    destruct (path_to_rewrite st) as [fixed|e] eqn:Hfix; [|discriminate].
    intros [= <-]. apply checked_settings_normal.
    exact (repaired_settings_normal st fixed Hfix).
  - rewrite Hm1, !get_app_settings_result.
    destruct (apps m !! app) as [d|] eqn:Hd;
      [|unfold read_repair; rewrite Hd, Hd; reflexivity].
    destruct (settings_yml d) as [st|] eqn:Hst;
      [|unfold read_repair; rewrite Hd, Hst, Hd, Hst; reflexivity].
    destruct (path_to_rewrite st) as [fixed|e] eqn:Hfix;
      [|unfold read_repair; rewrite Hd, Hst, Hfix, Hd, Hst, Hfix; reflexivity].
    rewrite (read_repair_lookup app m d st fixed Hd Hst Hfix). cbn [settings_yml].
    pose proof (repaired_settings_normal st fixed Hfix) as Hn. rewrite Hn.
    unfold repaired_settings at 1. rewrite Hn. reflexivity.
  - rewrite Hm1. cbn [mach].
    rewrite get_app_settings_machine. apply read_repair_idem.
  - apply get_app_settings_rest.
Qed.

Lemma frames_same_record_refl b : forall m, same_record b m m.
Proof. intros m. reflexivity. Qed.


End store_facts.

(** ** What the application map writes *)

Section repair_facts.
Import PyText AppMap.

Lemma read_repair_apps app m :
  apps (read_repair app m) = alter repair_record app (apps m).
Proof.
  apply map_eq. intros b. destruct (decide (b = app)) as [->|Hb].
  - rewrite lookup_alter_eq. unfold read_repair, repair_record.
    destruct (apps m !! app) as [d|] eqn:Hd; cbn [fmap option_fmap option_map];
      [|exact Hd].
    destruct (settings_yml d) as [st|]; [|exact Hd].
    destruct (path_to_rewrite st) as [[p|]|e]; [|exact Hd..].
    cbn [apps set_apps]. apply lookup_insert_eq.
  - rewrite lookup_alter_ne by congruence. unfold read_repair.
    destruct (apps m !! app) as [d|]; [|reflexivity].
    destruct (settings_yml d) as [st|]; [|reflexivity].
    destruct (path_to_rewrite st) as [[p|]|e]; [|reflexivity..].
    cbn [apps set_apps]. apply lookup_insert_ne. congruence.
Qed.

Lemma repair_record_idem d : repair_record (repair_record d) = repair_record d.
Proof.
  destruct (settings_yml d) as [st|] eqn:Hst.
  2:{ assert (Hd : repair_record d = d) by (unfold repair_record; rewrite Hst; reflexivity).
      rewrite !Hd. reflexivity. }
  destruct (path_to_rewrite st) as [[p|]|e] eqn:Hfix.
  - pose proof (repaired_settings_normal st (Some p) Hfix) as Hn.
    unfold repaired_settings in Hn. rewrite Hfix in Hn.
    assert (Hd : repair_record d = {| settings_yml := Some (<["path" := VStr p]> st);
                                      dir_files := dir_files d |})
      by (unfold repair_record; rewrite Hst, Hfix; reflexivity).
    rewrite Hd. unfold repair_record. cbn [settings_yml]. rewrite Hn. reflexivity.
  - assert (Hd : repair_record d = d)
      by (unfold repair_record; rewrite Hst, Hfix; reflexivity).
    rewrite !Hd. reflexivity.
  - assert (Hd : repair_record d = d)
      by (unfold repair_record; rewrite Hst, Hfix; reflexivity).
    rewrite !Hd. reflexivity.
Qed.

Lemma records_repaired_refl m : records_repaired m m.
Proof. intros b. left. reflexivity. Qed.

Lemma records_repaired_trans m1 m2 m3 :
  records_repaired m1 m2 -> records_repaired m2 m3 -> records_repaired m1 m3.
Proof.
  intros H12 H23 b. destruct (H23 b) as [->| ->]; destruct (H12 b) as [->| ->]; auto.
  right. destruct (apps m1 !! b) as [d|]; cbn; [|reflexivity].
  rewrite repair_record_idem. reflexivity.
Qed.

Lemma only_repaired_refl m : only_repaired m m.
Proof. split; [apply records_repaired_refl|auto]. Qed.

Lemma only_repaired_trans m1 m2 m3 :
  only_repaired m1 m2 -> only_repaired m2 m3 -> only_repaired m1 m3.
Proof.
  intros (Hr & Hp & Ht & Hh) (Hr' & Hp' & Ht' & Hh').
  split; [eapply records_repaired_trans; eassumption|].
  repeat split; congruence.
Qed.

Lemma read_repair_only_repaired app m : only_repaired m (read_repair app m).
Proof.
  split; [|apply read_repair_rest].
  intros b. rewrite read_repair_apps. destruct (decide (b = app)) as [->|Hb].
  - right. apply lookup_alter_eq.
  - left. apply lookup_alter_ne. congruence.
Qed.

Lemma frames_get_app_settings_repaired app : frames only_repaired (_get_app_settings app).
Proof.
  intros [m t]. rewrite get_app_settings_machine. apply read_repair_only_repaired.
Qed.

Lemma frames_fold_M {A S : Type} (R : machine -> machine -> Prop)
    (body : S -> A -> M S) (l : list A) :
  (forall m, R m m) -> (forall m1 m2 m3, R m1 m2 -> R m2 m3 -> R m1 m3) ->
  (forall acc a, frames R (body acc a)) -> forall acc, frames R (fold_M body l acc).
Proof.
  intros Hrefl Htrans Hb. induction l as [|a l IH]; intros acc; cbn [fold_M].
  - apply frames_ret, Hrefl.
  - apply frames_bind; auto.
Qed.

Lemma emits_fold_M {A S : Type} (P : event -> Prop) (body : S -> A -> M S) (l : list A) :
  (forall acc a, emits P (body acc a)) -> forall acc, emits P (fold_M body l acc).
Proof.
  intros Hb. induction l as [|a l IH]; intros acc; cbn [fold_M].
  - apply emits_ret.
  - apply emits_bind; auto.
Qed.

Lemma emits_get_app_settings_any app : emits any_event (_get_app_settings app).
Proof. unfold _get_app_settings, _is_installed, _set_app_settings. emits_auto. Qed.

Section listing.
Variable user_permission_list_full : list string -> machine -> list (string * perm_info).

Lemma frames_app_map_repaired (app : option string) (raw : bool) (user : option string) :
  frames only_repaired (app_map user_permission_list_full app raw user).
Proof.
  pose proof only_repaired_refl. pose proof only_repaired_trans.
  pose proof frames_get_app_settings_repaired.
  assert (Hloop : forall (R : Type) (register : string -> string -> string -> R -> R)
                         (init : R),
             frames only_repaired
               (app_map_loop user_permission_list_full register user app init)).
  { intros R register init. unfold app_map_loop, _is_installed, _installed_apps.
    apply frames_bind; [eauto| |intros apps_].
    - destruct app; frames_auto.
    - apply frames_bind; [eauto|apply frames_get_mach; auto|intros m].
      apply frames_fold_M; [auto|eauto|]. intros acc a. unfold map_app.
      apply frames_bind; [eauto|auto|intros st]. frames_auto. }
  unfold app_map. destruct raw; cbn [negb];
    (apply frames_bind; [eauto|apply Hloop|intros; apply frames_ret; auto]).
Qed.

Lemma emits_app_map_any (app : option string) (raw : bool) (user : option string) :
  emits any_event (app_map user_permission_list_full app raw user).
Proof.
  pose proof emits_get_app_settings_any.
  assert (Hloop : forall (R : Type) (register : string -> string -> string -> R -> R)
                         (init : R),
             emits any_event
               (app_map_loop user_permission_list_full register user app init)).
  { intros R register init. unfold app_map_loop, _is_installed, _installed_apps.
    apply emits_bind; [destruct app; emits_auto|intros apps_].
    apply emits_bind; [apply emits_get_mach|intros m].
    apply emits_fold_M. intros acc a. unfold map_app.
    apply emits_bind; [auto|intros st]. emits_auto. }
  unfold app_map. destruct raw; cbn [negb];
    (apply emits_bind; [apply Hloop|intros; apply emits_ret]).
Qed.

Lemma map_app_machine {R : Type} (register : string -> string -> string -> R -> R)
    (user : option string) (permissions : list (string * perm_info)) (acc : R)
    (a : string) s :
  mach (fst (map_app register user permissions acc a s)) = read_repair a (mach s).
Proof.
  set (same := fun m m' : machine => m' = m).
  assert (Hrefl : forall m, same m m) by reflexivity.
  assert (Htrans : forall m1 m2 m3, same m1 m2 -> same m2 m3 -> same m1 m3)
    by (unfold same; congruence).
  destruct s as [m t]. cbn [mach]. unfold map_app. unfold bind at 1.
  pose proof (get_app_settings_machine a m t) as Hm.
  destruct (_get_app_settings a {| mach := m; trace := t |}) as [s1 [st|e]];
    cbn [fst mach] in *; [|exact Hm].
  rewrite <- Hm.
  match goal with
  | |- mach (fst (?k s1)) = mach s1 => assert (Hk : frames same k); [|exact (Hk s1)]
  end.
  frames_auto.
Qed.

Lemma fold_map_app_machine {R : Type} (register : string -> string -> string -> R -> R)
    (user : option string) (permissions : list (string * perm_info)) (l : list string) :
  forall (acc : R) s r,
    snd (fold_M (map_app register user permissions) l acc s) = Ok r ->
    mach (fst (fold_M (map_app register user permissions) l acc s))
    = fold_left (fun m a => read_repair a m) l (mach s).
Proof.
  induction l as [|a l IH]; intros acc s r Hr; cbn [fold_M fold_left]; [reflexivity|].
  cbn [fold_M] in Hr. unfold bind in Hr |- *.
  pose proof (map_app_machine register user permissions acc a s) as Hm.
  destruct (map_app register user permissions acc a s) as [s1 [acc1|e]];
    cbn [fst snd] in *; [|discriminate].
  rewrite (IH acc1 s1 r Hr), Hm. reflexivity.
Qed.

Lemma fold_read_repair_apps (l : list string) m :
  apps (fold_left (fun m a => read_repair a m) l m)
  = fold_left (fun records a => alter repair_record a records) l (apps m).
Proof.
  revert m. induction l as [|a l IH]; intros m; cbn [fold_left]; [reflexivity|].
  rewrite IH, read_repair_apps. reflexivity.
Qed.

Lemma lookup_fold_alter (f : app_dir -> app_dir) (l : list string) :
  NoDup l ->
  forall (records : gmap string app_dir) b,
    fold_left (fun records a => alter f a records) l records !! b
    = if bool_decide (b ∈ l) then f <$> records !! b else records !! b.
Proof.
  induction 1 as [|a l Ha Hnd IH]; intros records b; cbn [fold_left]; [reflexivity|].
  rewrite IH. destruct (decide (b = a)) as [->|Hb].
  - rewrite (bool_decide_eq_false_2 _ Ha).
    rewrite bool_decide_eq_true_2 by left. apply lookup_alter_eq.
  - rewrite lookup_alter_ne by congruence.
    apply (f_equal (fun c : bool => if c then f <$> records !! b else records !! b)).
    apply bool_decide_ext. rewrite elem_of_cons. tauto.
Qed.

Lemma fold_alter_all (f : app_dir -> app_dir) (records : gmap string app_dir) :
  fold_left (fun records a => alter f a records) (map fst (map_to_list records)) records
  = f <$> records.
Proof.
  apply map_eq. intros b.
  rewrite lookup_fold_alter by apply NoDup_fst_map_to_list.
  rewrite lookup_fmap. case_bool_decide as Hb; [reflexivity|].
  destruct (records !! b) as [d|] eqn:Hd; [|reflexivity].
  exfalso. apply Hb. apply list_elem_of_fmap. exists (b, d).
  split; [reflexivity|]. apply elem_of_map_to_list. exact Hd.
Qed.

(** An application map made over all the applications leaves every
    stored path in normal form. *)
Lemma app_map_repairs_all (raw : bool) (user : option string) s r :
  snd (app_map user_permission_list_full None raw user s) = Ok r ->
  apps (mach (fst (app_map user_permission_list_full None raw user s)))
  = repair_record <$> apps (mach s).
Proof.
  assert (Hloop : forall (R : Type) (register : string -> string -> string -> R -> R)
                         (init : R) (r : R),
             snd (app_map_loop user_permission_list_full register user None init s) = Ok r ->
             apps (mach (fst (app_map_loop user_permission_list_full register user None
                                init s)))
             = repair_record <$> apps (mach s)).
  { intros R register init r' Hr. unfold app_map_loop, _installed_apps in Hr |- *.
    unfold bind at 1 in Hr. unfold bind at 1. unfold bind at 1 in Hr. unfold bind at 1.
    unfold get_mach at 1, ret at 1 in Hr. unfold get_mach at 1, ret at 1.
    unfold bind at 1 in Hr. unfold bind at 1.
    unfold get_mach at 1 in Hr. unfold get_mach at 1.
    rewrite (fold_map_app_machine _ _ _ _ _ _ _ Hr).
    rewrite fold_read_repair_apps. apply fold_alter_all. }
  intros Hr. unfold app_map in Hr |- *. destruct raw; cbn [negb] in Hr |- *;
    unfold bind in Hr |- *.
  - specialize (Hloop _ register_raw ∅).
    destruct (app_map_loop user_permission_list_full register_raw user None ∅ s)
      as [s1 [res|e]]; cbn [fst snd] in *; [eapply Hloop; reflexivity|discriminate].
  - specialize (Hloop _ register_url ∅).
    destruct (app_map_loop user_permission_list_full register_url user None ∅ s)
      as [s1 [res|e]]; cbn [fst snd] in *; [eapply Hloop; reflexivity|discriminate].
Qed.

End listing.

Section checks.
Variable E : externals.

Lemma frames_assert_no_conflicting_apps domain path ignore_app full_domain :
  frames only_repaired (_assert_no_conflicting_apps E domain path ignore_app full_domain).
Proof.
  pose proof only_repaired_refl. pose proof only_repaired_trans.
  pose proof (frames_app_map_repaired (full_permission_list E) None true None).
  unfold _assert_no_conflicting_apps. frames_auto.
Qed.

Lemma emits_assert_no_conflicting_apps domain path ignore_app full_domain :
  emits any_event (_assert_no_conflicting_apps E domain path ignore_app full_domain).
Proof.
  pose proof (emits_app_map_any (full_permission_list E) None true None).
  unfold _assert_no_conflicting_apps.
  repeat first [ assumption | emits_step | exact I ].
Qed.

Lemma frames_validate_webpath_requirement args path_requirement ignore_app :
  frames only_repaired (_validate_webpath_requirement E args path_requirement ignore_app).
Proof.
  pose proof only_repaired_refl. pose proof only_repaired_trans.
  pose proof frames_assert_no_conflicting_apps.
  unfold _validate_webpath_requirement. frames_auto.
Qed.

Lemma emits_validate_webpath_requirement args path_requirement ignore_app :
  emits any_event (_validate_webpath_requirement E args path_requirement ignore_app).
Proof.
  pose proof emits_assert_no_conflicting_apps.
  unfold _validate_webpath_requirement.
  repeat first [ solve [auto] | emits_step | exact I ].
Qed.

End checks.

End repair_facts.

(** ** Registering a url *)

Section register_facts.
Import AppMap Operations.
Variable E : externals.

Lemma get_app_settings_run app m t :
  exists t1,
    _get_app_settings app {| mach := m; trace := t |}
    = ({| mach := read_repair app m; trace := t1 |},
       snd (_get_app_settings app {| mach := m; trace := t |})).
Proof.
  pose proof (get_app_settings_machine app m t) as Hm.
  destruct (_get_app_settings app {| mach := m; trace := t |}) as [[m1 t1] r].
  cbn [fst snd mach] in *. subst m1. eauto.
Qed.

(** X20 (registering).  For an application whose settings already hold a
    domain and a path, [app_register_url] refuses to register another
    url: it raises before any check of the location, and changes nothing
    but what the read of the settings repairs. *)
Theorem register_url_refuses_registered_app (app domain path : string) (s : state)
    (settings : gmap string pyobj) :
  is_Some (apps (mach s) !! app) ->
  snd (_get_app_settings app s) = Ok settings ->
  is_Some (settings !! "path") -> is_Some (settings !! "domain") ->
  snd (app_register_url E app domain path s)
  = Raise (YunohostValidationError "app_already_installed_cant_change_url")
  /\ mach (fst (app_register_url E app domain path s)) = read_repair app (mach s).
Proof.
  intros Hin Hget Hp Hd. destruct s as [m t]. cbn [mach] in *.
  destruct (get_app_settings_run app m t) as [t1 Hrun]. rewrite Hget in Hrun.
  assert (Heq : app_register_url E app domain path {| mach := m; trace := t |}
                = ({| mach := read_repair app m; trace := t1 |},
                   Raise (YunohostValidationError "app_already_installed_cant_change_url"))).
  { unfold app_register_url, _is_installed.
    unfold bind at 1. unfold bind at 1. unfold get_mach at 1, ret at 1. cbn [mach].
    rewrite bool_decide_eq_true_2 by exact Hin.
    unfold bind at 1. unfold bind at 1. rewrite Hrun.
    rewrite !bool_decide_eq_true_2 by assumption. reflexivity. }
  rewrite Heq. auto.
Qed.

Lemma repaired_settings_lookup st key :
  key <> "path" -> repaired_settings st !! key = st !! key.
Proof.
  intros Hk. unfold repaired_settings. destruct (path_to_rewrite st) as [[p|]|]; auto.
  apply lookup_insert_ne. congruence.
Qed.

Lemma repaired_settings_path st :
  st !! "path" = None -> repaired_settings st = st.
Proof.
  intros Hp. unfold repaired_settings, path_to_rewrite. rewrite Hp. reflexivity.
Qed.

Lemma update_permission_present name f s p :
  perms (mach s) !! name = Some p ->
  update_permission name f s
  = ({| mach := set_perms (insert name (f p)) (mach s); trace := trace s |}, Ok tt).
Proof.
  intros Hp. unfold update_permission, bind, get_mach. cbn [mach]. rewrite Hp. reflexivity.
Qed.

(** X21 (registering).  For an installed application with a readable
    record, no url yet, a main permission and a location that is free,
    [app_register_url] succeeds: the settings then hold the domain and the
    path in the form the normalisers give them, and the main permission
    has the url [/] and shows its tile.  The check of the location has
    read the settings of every application: every other record is as it
    was but for a stored path in old form, which is rewritten; no other
    permission has changed. *)
Theorem register_url_books_location (app domain path : string) (m : machine)
    (t : list event) (d : app_dir) (st : gmap string pyobj) (fixed : option string)
    (main : permission)
    (apps_map : gmap string (gmap string Conflicts.app_location)) :
  apps m !! app = Some d ->
  settings_yml d = Some st ->
  st !! "id" = Some (VStr app) ->
  path_to_rewrite st = Ok fixed ->
  st !! "domain" = None \/ st !! "path" = None ->
  perms m !! (app ++ ".main") = Some main ->
  domain_exists E (read_repair app m)
    (DomainQuestion_normalize E (DomainQuestion_normalize E domain)) = true ->
  snd (app_map (full_permission_list E) None true None
         {| mach := read_repair app m; trace := t |}) = Ok (MapRaw apps_map) ->
  Conflicts._get_conflicting_apps (DomainQuestion_normalize E) (PathQuestion_normalize E)
    (domain_exists E (read_repair app m)) apps_map
    (DomainQuestion_normalize E domain) (PathQuestion_normalize E path) None = Ok nil ->
  exists s',
    app_register_url E app domain path {| mach := m; trace := t |} = (s', Ok tt)
    /\ apps (mach s')
       = <[app := {| settings_yml :=
                       Some (<["path" := VStr (PathQuestion_normalize E path)]>
                             (<["domain" := VStr (DomainQuestion_normalize E domain)]>
                              (repaired_settings st)));
                     dir_files := dir_files d |}]> (repair_record <$> apps m)
    /\ perms (mach s')
       = <[app ++ ".main" :=
             {| perm_allowed := perm_allowed main; perm_label := perm_label main;
                perm_url := Some "/";
                perm_additional_urls := perm_additional_urls main;
                perm_show_tile := true;
                perm_protected := perm_protected main;
                perm_auth_header := perm_auth_header main |}]> (perms m).
Proof.
  intros Hd Hst Hid Hfix Hfree Hmain Hdom Hmap Hconf.
  set (dn := DomainQuestion_normalize E domain) in *.
  set (pn := PathQuestion_normalize E path) in *.
  set (m1 := read_repair app m) in *.
  set (d1 := {| settings_yml := Some (repaired_settings st); dir_files := dir_files d |}).
  assert (Hd1 : apps m1 !! app = Some d1) by exact (read_repair_lookup app m d st fixed Hd Hst Hfix).
  assert (Hn1 : path_to_rewrite (repaired_settings st) = Ok None)
    by exact (repaired_settings_normal st fixed Hfix).
  assert (Hid1 : repaired_settings st !! "id" = Some (VStr app))
    by (rewrite repaired_settings_id; exact Hid).
  (* the first read *)
  unfold app_register_url. fold dn pn. unfold _is_installed.
  unfold bind at 1. unfold bind at 1. unfold get_mach at 1, ret at 1. cbn [mach].
  rewrite bool_decide_eq_true_2 by eauto.
  unfold bind at 1. unfold bind at 1.
  rewrite (get_app_settings_readable app m t d st fixed Hd Hst Hfix Hid). fold m1.
  assert (Hboth : bool_decide (is_Some (repaired_settings st !! "path"))
                  && bool_decide (is_Some (repaired_settings st !! "domain")) = false).
  { destruct Hfree as [Hnd|Hnp].
    - rewrite (repaired_settings_lookup st "domain") by discriminate. rewrite Hnd.
      rewrite (bool_decide_eq_false_2 (is_Some None)) by (intros [? [=]]).
      apply andb_false_r.
    - rewrite (repaired_settings_path st Hnp), Hnp.
      rewrite (bool_decide_eq_false_2 (is_Some None)) by (intros [? [=]]). reflexivity. }
  rewrite Hboth. unfold ret at 1.
  (* the location is free *)
  unfold bind at 1. unfold _assert_no_conflicting_apps.
  unfold bind at 1. unfold get_mach at 1. cbn [mach]. rewrite Hdom. cbn [negb].
  unfold bind at 1.
  pose proof (app_map_repairs_all (full_permission_list E) true None
                {| mach := m1; trace := t |} _ Hmap) as Hall.
  pose proof (frames_app_map_repaired (full_permission_list E) None true None
                {| mach := m1; trace := t |}) as (_ & Hperms1 & _).
  destruct (app_map (full_permission_list E) None true None {| mach := m1; trace := t |})
    as [[m1' t1'] r1].
  cbn [fst snd mach] in Hmap, Hall, Hperms1. subst r1.
  unfold Conflicts._assert_no_conflicting_apps. rewrite Hconf. unfold of_result at 1.
  assert (Hrec1 : repair_record d1 = d1).
  { unfold repair_record, d1. cbn [settings_yml]. rewrite Hn1. reflexivity. }
  assert (Hd1' : apps m1' !! app = Some d1).
  { rewrite Hall, lookup_fmap, Hd1. cbn [fmap option_fmap option_map].
    rewrite Hrec1. reflexivity. }
  (* the two settings *)
  destruct (app_setting_set_regular E app "domain" (VStr dn) m1' t1' d1
              (repaired_settings st) None Hd1' eq_refl Hid1 Hn1 eq_refl)
    as [t2 Hset1]; try discriminate.
  unfold bind at 1. rewrite Hset1.
  destruct (read_repair_normal app m1' d1 (repaired_settings st) Hd1' eq_refl Hn1)
    as [Hm1 Hst1].
  rewrite Hm1, Hst1.
  set (st2 := <["domain" := VStr dn]> (repaired_settings st)).
  set (d2 := {| settings_yml := Some st2; dir_files := dir_files d1 |}).
  set (m2 := set_apps (insert app d2) m1').
  assert (Hd2 : apps m2 !! app = Some d2) by apply lookup_insert_eq.
  assert (Hn2 : path_to_rewrite st2 = Ok None).
  { rewrite <- Hn1. apply path_to_rewrite_lookup. apply lookup_insert_ne. discriminate. }
  assert (Hid2 : st2 !! "id" = Some (VStr app)).
  { unfold st2. rewrite lookup_insert_ne by discriminate. exact Hid1. }
  destruct (app_setting_set_regular E app "path" (VStr pn) m2 t2 d2 st2
              None Hd2 eq_refl Hid2 Hn2 eq_refl) as [t3 Hset2]; try discriminate.
  unfold bind at 1. rewrite Hset2.
  destruct (read_repair_normal app m2 d2 st2 Hd2 eq_refl Hn2) as [Hm2 Hst2].
  rewrite Hm2, Hst2.
  set (m3 := set_apps (insert app {| settings_yml := Some (<["path" := VStr pn]> st2);
                                     dir_files := dir_files d2 |}) m2).
  (* the main permission *)
  assert (Hperms3 : perms m3 = perms m).
  { unfold m3, m2. cbn [perms set_apps]. rewrite Hperms1. unfold m1.
    exact (proj1 (read_repair_rest app m)). }
  unfold permission_url, user_permission_update.
  unfold bind at 1.
  rewrite (update_permission_present _ _ {| mach := m3; trace := t3 |} main)
    by (cbn [mach]; rewrite Hperms3; exact Hmain).
  cbn [mach trace].
  unfold bind at 1.
  erewrite update_permission_present by (cbn [mach perms set_perms]; apply lookup_insert_eq).
  cbn [mach trace]. unfold permission_sync_to_user, ret.
  eexists. split; [reflexivity|]. cbn [mach apps perms set_perms set_apps].
  split.
  - unfold m3, m2. cbn [apps set_apps]. rewrite insert_insert_eq.
    assert (Ha1 : apps m1 = <[app := d1]> (apps m)).
    { unfold m1, read_repair. rewrite Hd, Hst, Hfix. unfold d1, repaired_settings.
      rewrite Hfix. destruct fixed as [p|]; cbn [apps set_apps]; [reflexivity|].
      symmetry. apply insert_id. rewrite Hd. destruct d. cbn in *. congruence. }
    rewrite Hall, Ha1, fmap_insert, insert_insert_eq. reflexivity.
  - rewrite insert_insert_eq, Hperms3.
    cbn [perm_allowed perm_label perm_url perm_additional_urls perm_show_tile
           perm_protected perm_auth_header default from_option id].
    rewrite app_nil_r. reflexivity.
Qed.

End register_facts.

Lemma register_url_refuses_registered_app_witness :
  snd (Operations.app_register_url Examples.quiet_externals "blog" "other.tld" "/wiki"
         MoreExamples.site_state)
  = Raise (YunohostValidationError "app_already_installed_cant_change_url")
  /\ mach (fst (Operations.app_register_url Examples.quiet_externals "blog" "other.tld"
                  "/wiki" MoreExamples.site_state))
     = read_repair "blog" (mach MoreExamples.site_state).
Proof.
  apply (register_url_refuses_registered_app Examples.quiet_externals "blog" "other.tld"
           "/wiki" MoreExamples.site_state MoreExamples.site_settings).
  - vm_compute. eexists. reflexivity.
  - vm_compute. reflexivity.
  - vm_compute. eexists. reflexivity.
  - vm_compute. eexists. reflexivity.
Defined.

Lemma register_url_books_location_witness :
  exists s',
    Operations.app_register_url MoreExamples.two_sites_externals "blog" "d.tld" "/blog"
      {| mach := MoreExamples.two_sites_machine; trace := nil |} = (s', Ok tt)
    /\ apps (mach s')
       = <["blog" := {| settings_yml :=
                          Some (<["path" := VStr (PathQuestion_normalize
                                                    MoreExamples.two_sites_externals
                                                    "/blog")]>
                                (<["domain" := VStr (DomainQuestion_normalize
                                                       MoreExamples.two_sites_externals
                                                       "d.tld")]>
                                 (repaired_settings MoreExamples.blog_settings)));
                        dir_files := dir_files MoreExamples.blog_record |}]>
           (repair_record <$> apps MoreExamples.two_sites_machine)
    /\ perms (mach s')
       = <["blog" ++ ".main" :=
             {| perm_allowed := perm_allowed (Examples.main_permission "Blog");
                perm_label := perm_label (Examples.main_permission "Blog");
                perm_url := Some "/";
                perm_additional_urls :=
                  perm_additional_urls (Examples.main_permission "Blog");
                perm_show_tile := true;
                perm_protected := perm_protected (Examples.main_permission "Blog");
                perm_auth_header := perm_auth_header (Examples.main_permission "Blog") |}]>
           (perms MoreExamples.two_sites_machine).
Proof.
  apply (register_url_books_location MoreExamples.two_sites_externals "blog" "d.tld" "/blog"
           MoreExamples.two_sites_machine nil MoreExamples.blog_record
           MoreExamples.blog_settings None (Examples.main_permission "Blog")
           MoreExamples.wiki_map).
  - vm_compute. reflexivity.
  - reflexivity.
  - vm_compute. reflexivity.
  - vm_compute. reflexivity.
  - left. vm_compute. reflexivity.
  - vm_compute. reflexivity.
  - reflexivity.
  - vm_compute. reflexivity.
  - vm_compute. reflexivity.
Defined.

(** Registering the url of [blog] has rewritten the stored path of
    [wiki]. *)
Lemma register_url_rewrites_other_path :
  MoreExamples.stored_path MoreExamples.two_sites_machine "wiki" = Some (VStr "wiki/")
  /\ MoreExamples.stored_path
       (mach (fst (Operations.app_register_url MoreExamples.two_sites_externals "blog"
                     "d.tld" "/blog"
                     {| mach := MoreExamples.two_sites_machine; trace := nil |}))) "wiki"
     = Some (VStr "/wiki").
Proof. split; vm_compute; reflexivity. Qed.

(** ** Scratch directories and refusals *)

Section misc_facts.
Import AppMap Operations.
Variable E : externals.
Variable mkdtemp : machine -> string.
Variable st_mtime : machine -> string -> Z.

(** X22 (scratch directories).  [_make_tmp_workdir_for_app] never fails
    and touches the scratch directories only: those last modified more
    than twelve hours before are deleted, every other one is kept as it
    is, and the new directory holds the files of the record of the
    application that was named, or nothing when none was named or when
    there is no such record. *)
Theorem tmp_workdir_keeps_recent_directories (app : option string) (s : state) :
  exists tmpdir,
    snd (_make_tmp_workdir_for_app mkdtemp st_mtime app s) = Ok tmpdir
    /\ trace (fst (_make_tmp_workdir_for_app mkdtemp st_mtime app s)) = trace s
    /\ apps (mach (fst (_make_tmp_workdir_for_app mkdtemp st_mtime app s))) = apps (mach s)
    /\ perms (mach (fst (_make_tmp_workdir_for_app mkdtemp st_mtime app s)))
       = perms (mach s)
    /\ host (mach (fst (_make_tmp_workdir_for_app mkdtemp st_mtime app s))) = host (mach s)
    /\ tmp_dirs (mach (fst (_make_tmp_workdir_for_app mkdtemp st_mtime app s))) !! tmpdir
       = Some (if truthy app
               then match apps (mach s) !! default EmptyString app with
                    | Some d => dir_files d
                    | None => empty_package
                    end
               else empty_package)
    /\ forall dir_, dir_ <> tmpdir ->
         tmp_dirs (mach (fst (_make_tmp_workdir_for_app mkdtemp st_mtime app s))) !! dir_
         = if bool_decide (st_mtime (mach s) dir_ < clock (host (mach s)) - 12 * 3600)
           then None else tmp_dirs (mach s) !! dir_.
Proof.
  destruct s as [m t].
  unfold _make_tmp_workdir_for_app, now, bind, get_mach, modify_mach, ret.
  cbn [mach trace fst snd apps perms host tmp_dirs set_tmp_dirs].
  set (kept := filter (fun kv : string * package =>
                         ~ st_mtime m (fst kv) < clock (host m) - 12 * 3600) (tmp_dirs m)).
  set (m1 := {| apps := apps m; perms := perms m; tmp_dirs := kept; host := host m |}).
  assert (Hkept : forall dir_,
            kept !! dir_
            = if bool_decide (st_mtime m dir_ < clock (host m) - 12 * 3600)
              then None else tmp_dirs m !! dir_).
  { intros dir_. unfold kept. case_bool_decide as Hold.
    - apply map_lookup_filter_None. right. intros x _ Hk. apply Hk. exact Hold.
    - destruct (tmp_dirs m !! dir_) as [x|] eqn:Hx.
      + apply map_lookup_filter_Some. split; [exact Hx|exact Hold].
      + apply map_lookup_filter_None. left. exact Hx. }
  exists (mkdtemp m1).
  destruct (truthy app); [destruct (apps m !! default EmptyString app) as [d|]|];
    cbn [mach trace fst snd apps perms host tmp_dirs set_tmp_dirs];
    do 5 (split; [reflexivity|]);
    (split; [rewrite ?insert_insert_eq; apply lookup_insert_eq|]);
    intros dir_ Hne; rewrite ?insert_insert_eq;
    rewrite lookup_insert_ne by (intros Heq; apply Hne; symmetry; exact Heq);
    apply Hkept.
Qed.




End misc_facts.


(** The check of the location made for an unknown name has rewritten the
    stored path of [blog]. *)
Lemma register_url_of_unknown_app_rewrites_paths :
  MoreExamples.stored_path (mach (Examples.blog_state "blog/")) "blog"
  = Some (VStr "blog/")
  /\ MoreExamples.stored_path
       (mach (fst (Operations.app_register_url Examples.quiet_externals "ghost" "d.tld"
                     "/ghost" (Examples.blog_state "blog/")))) "blog"
     = Some (VStr "/blog").
Proof. split; vm_compute; reflexivity. Qed.

(** ** The checks of an install come before its writes *)

Section install_check_facts.
Import Phases.
Variable E : externals.

Lemma before_start_refl s : before_start s s.
Proof.
  exists nil. rewrite app_nil_r. split; [reflexivity|]. right.
  split; [apply records_repaired_refl|reflexivity].
Qed.

Lemma before_start_trans s1 s2 s3 :
  before_start s1 s2 -> before_start s2 s3 -> before_start s1 s3.
Proof.
  intros (n1 & H1 & C1) (n2 & H2 & C2). exists (n1 ++ n2)%list.
  split; [rewrite H2, H1, app_assoc; reflexivity|].
  destruct C1 as [C1|[A1 P1]]; [left; apply Exists_app; auto|].
  destruct C2 as [C2|[A2 P2]]; [left; apply Exists_app; auto|].
  right. split; [eapply records_repaired_trans; eassumption|congruence].
Qed.

Lemma keeps_silent {A : Type} (m : M A) :
  (forall s, trace (fst (m s)) = trace s
             /\ apps (mach (fst (m s))) = apps (mach s)
             /\ perms (mach (fst (m s))) = perms (mach s)) ->
  keeps before_start m.
Proof.
  intros H s. destruct (H s) as (Ht & Ha & Hp). exists nil. rewrite app_nil_r.
  split; [exact Ht|]. right. split; [|exact Hp]. intros b. left. rewrite Ha. reflexivity.
Qed.

(** What only rewrites stored paths and adds events keeps the relation. *)
Lemma keeps_repairs {A : Type} (m : M A) :
  frames only_repaired m -> emits any_event m -> keeps before_start m.
Proof.
  intros Hf He s. destruct (He s) as (new & Ht & _). destruct (Hf s) as (Hr & Hp & _).
  exists new. split; [exact Ht|]. right. split; assumption.
Qed.

Lemma keeps_ret {A : Type} (a : A) : keeps before_start (ret a).
Proof. apply keeps_silent. auto. Qed.
Lemma keeps_raise {A : Type} (e : exn) : keeps before_start (@raise A e).
Proof. apply keeps_silent. auto. Qed.
Lemma keeps_of_result {A : Type} (r : result A) : keeps before_start (of_result r).
Proof. apply keeps_silent. auto. Qed.
Lemma keeps_get_mach : keeps before_start get_mach.
Proof. apply keeps_silent. auto. Qed.
Lemma keeps_emit e : keeps before_start (emit e).
Proof.
  intros s. exists (e :: nil). split; [reflexivity|]. right.
  split; [apply records_repaired_refl|reflexivity].
Qed.

Lemma keeps_modify (f : machine -> machine) :
  (forall m, apps (f m) = apps m /\ perms (f m) = perms m) ->
  keeps before_start (modify_mach f).
Proof. intros Hf. apply keeps_silent. intros s. split; [reflexivity|apply Hf]. Qed.

Lemma keeps_call {A : Type} (f : machine -> machine * result A) :
  (forall m, apps (fst (f m)) = apps m /\ perms (fst (f m)) = perms m) ->
  keeps before_start (call f).
Proof.
  intros Hf. apply keeps_silent. intros s. unfold call. specialize (Hf (mach s)).
  destruct (f (mach s)). cbn [fst mach trace] in *. auto.
Qed.

Lemma keeps_bind {A B : Type} (m : M A) (k : A -> M B) :
  keeps before_start m -> (forall a, keeps before_start (k a)) ->
  keeps before_start (bind m k).
Proof.
  intros Hm Hk s. unfold bind. specialize (Hm s).
  destruct (m s) as [s' [a|e]]; cbn [fst] in *; [|exact Hm].
  eapply before_start_trans; [exact Hm|apply Hk].
Qed.

(** Once the start is logged, whatever only adds events keeps the
    relation. *)
Lemma keeps_start {A : Type} (args : list string) (k : unit -> M A) :
  emits any_event (k tt) ->
  keeps before_start (bind (emit (EvLog "info" "app_start_install" args)) k).
Proof.
  intros Hk s. unfold bind, emit.
  destruct (Hk {| mach := mach s;
                  trace := (trace s ++ EvLog "info" "app_start_install" args :: nil)%list |})
    as (new & Ht & _).
  exists (EvLog "info" "app_start_install" args :: new)%list. rewrite Ht. cbn [trace].
  rewrite <- app_assoc. split; [reflexivity|]. left. constructor. exists args. reflexivity.
Qed.

Lemma keeps_after {A B : Type} (m : M A) (k : A -> M B) s0 :
  (exists new, trace (fst (m s0)) = (trace s0 ++ new)%list /\ Exists install_start new) ->
  (forall a, emits any_event (k a)) ->
  exists new, trace (fst (bind m k s0)) = (trace s0 ++ new)%list
              /\ Exists install_start new.
Proof.
  intros (n1 & H1 & C1) Hk. unfold bind.
  destruct (m s0) as [s1 [a|e]]; cbn [fst] in *; [|eauto].
  destruct (Hk a s1) as (n2 & H2 & _). exists (n1 ++ n2)%list.
  rewrite H2, H1, app_assoc. split; [reflexivity|]. apply Exists_app. auto.
Qed.

Lemma frames_confirm_install (force : bool) (app : string) :
  frames only_repaired
    (Sources.confirm_install E (os_path_exists E) (Moulinette_interface_is_api E)
       (Moulinette_prompt E) force app).
Proof.
  pose proof only_repaired_refl. pose proof only_repaired_trans.
  unfold Sources.confirm_install, Sources._app_quality. frames_auto.
Qed.

Lemma emits_confirm_install (force : bool) (app : string) :
  emits any_event
    (Sources.confirm_install E (os_path_exists E) (Moulinette_interface_is_api E)
       (Moulinette_prompt E) force app).
Proof. unfold Sources.confirm_install, Sources._app_quality. emits_auto. Qed.

Ltac keeps_step :=
  match goal with
  | |- keeps _ (Sources.confirm_install _ _ _ _ _ _) =>
      apply keeps_repairs; [apply frames_confirm_install|apply emits_confirm_install]
  | |- keeps _ (_validate_webpath_requirement _ _ _ _) =>
      apply keeps_repairs;
      [apply frames_validate_webpath_requirement|apply emits_validate_webpath_requirement]
  | |- keeps _ (bind (emit (EvLog "info" "app_start_install" _)) _) => apply keeps_start
  | |- keeps _ (ret _) => apply keeps_ret
  | |- keeps _ (raise _) => apply keeps_raise
  | |- keeps _ (of_result _) => apply keeps_of_result
  | |- keeps _ get_mach => apply keeps_get_mach
  | |- keeps _ (emit _) => apply keeps_emit
  | |- keeps _ (modify_mach _) => apply keeps_modify; intros; split; reflexivity
  | |- keeps _ (call (health_check _ _ _)) =>
      apply keeps_call; intros; split; reflexivity
  | |- keeps _ (bind _ _) => apply keeps_bind; [|intros]
  | |- keeps _ (if ?b then _ else _) => destruct b
  | |- keeps _ (match ?x with _ => _ end) => destruct x
  | |- keeps _ (let (_, _) := ?x in _) => destruct x
  end.

Lemma emits_set_app_settings P app st : emits P (_set_app_settings app st).
Proof. unfold _set_app_settings. emits_auto. Qed.

Lemma emits_permission_create P name p : emits P (permission_create name p).
Proof. unfold permission_create. emits_auto. Qed.

Lemma keeps_install_prepare (app : string) (label args : option string) (force : bool) :
  keeps before_start (install_prepare E app label args force).
Proof.
  unfold install_prepare, _extract_app, _assert_system_is_sane_for_app, _installed_apps.
  repeat first
    [ keeps_step
    | match goal with
      | |- emits any_event _ =>
          pose proof (emits_set_app_settings any_event);
          pose proof (emits_permission_create any_event);
          pose proof (emits_make_environment E any_event);
          repeat first [ solve [eauto] | emits_step | exact I ]
      end ].
Qed.

Lemma emits_install_execute (c : install_context) (no_remove_on_failure : bool) :
  emits any_event (install_execute E c no_remove_on_failure).
Proof.
  pose proof (emits_remove_after_failed_install E c).
  unfold install_execute, _assert_system_is_sane_for_app, report_manually_modified_files,
    rmtree_tmp.
  repeat first [ solve [eauto] | emits_step | exact I ].
Qed.

Lemma starts_raise {A : Type} (e : exn) : starts (@raise A e).
Proof. intros s a [=]. Qed.

Lemma starts_bind {A B : Type} (m : M A) (k : A -> M B) :
  emits any_event m -> (forall a, starts (k a)) -> starts (bind m k).
Proof.
  intros Hm Hk s b. unfold bind. destruct (Hm s) as (n1 & H1 & _).
  destruct (m s) as [s1 [a|e]]; cbn [fst snd] in *; [|intros [=]].
  intros Hb. destruct (Hk a s1 b Hb) as (n2 & H2 & C2).
  exists (n1 ++ n2)%list. rewrite H2, H1, app_assoc. split; [reflexivity|].
  apply Exists_app. auto.
Qed.

Lemma starts_begin {A : Type} (args : list string) (k : unit -> M A) :
  emits any_event (k tt) ->
  starts (bind (emit (EvLog "info" "app_start_install" args)) k).
Proof.
  intros Hk s a _. unfold bind, emit.
  destruct (Hk {| mach := mach s;
                  trace := (trace s ++ EvLog "info" "app_start_install" args :: nil)%list |})
    as (new & Ht & _).
  exists (EvLog "info" "app_start_install" args :: new)%list. rewrite Ht. cbn [trace].
  rewrite <- app_assoc. split; [reflexivity|]. constructor. exists args. reflexivity.
Qed.

Ltac starts_step :=
  match goal with
  | |- starts (bind (emit (EvLog "info" "app_start_install" _)) _) => apply starts_begin
  | |- starts (raise _) => apply starts_raise
  | |- starts (bind _ _) => apply starts_bind; [|intros]
  | |- starts (if ?b then _ else _) => destruct b
  | |- starts (match ?x with _ => _ end) => destruct x
  | |- starts (let (_, _) := ?x in _) => destruct x
  end.

Lemma starts_install_prepare (app : string) (label args : option string) (force : bool) :
  starts (install_prepare E app label args force).
Proof.
  unfold install_prepare, _extract_app, _assert_system_is_sane_for_app, _installed_apps.
  pose proof emits_confirm_install.
  pose proof (emits_validate_webpath_requirement E).
  pose proof (emits_set_app_settings any_event).
  pose proof (emits_permission_create any_event).
  pose proof (emits_make_environment E any_event).
  repeat first [ starts_step | solve [eauto] | emits_step | exact I ].
Qed.

(** X25 (install).  Every check of [app_install] comes before its first
    write of its own: unless the start of the install was logged, a call
    of [app_install] makes no record and deletes none, changes no
    permission, and leaves every record as it was but for a stored path
    in old form, which the check of the location rewrites when it reads
    the settings of the applications installed; this holds however the
    call ends.  So an install refused for lack of room, by the operator,
    for its id, its requirements, the state of the services, an instance
    that exists already, its answers or its location creates no record
    and no permission; and an install that ends normally has logged its
    start. *)
Theorem install_checks_before_writes (app : string) (label args : option string)
    (no_remove_on_failure force : bool) (s : state) :
  before_start s (fst (app_install E app label args no_remove_on_failure force s))
  /\ (snd (app_install E app label args no_remove_on_failure force s) = Ok tt ->
      logged_start s (fst (app_install E app label args no_remove_on_failure force s))).
Proof.
  pose proof (keeps_install_prepare app label args force s) as Hkeep.
  pose proof (starts_install_prepare app label args force s) as Hstart.
  unfold app_install, bind.
  destruct (install_prepare E app label args force s) as [s1 [c|e]]; cbn [fst snd] in *.
  - destruct (Hstart c eq_refl) as (n1 & H1 & C1).
    destruct (emits_install_execute c no_remove_on_failure s1) as (n2 & H2 & _).
    assert (Hlog : logged_start s (fst (install_execute E c no_remove_on_failure s1))).
    { exists (n1 ++ n2)%list. rewrite H2, H1, app_assoc. split; [reflexivity|].
      apply Exists_app. auto. }
    split; [|intros _; exact Hlog].
    destruct Hlog as (new & Ht & Hex). exists new. auto.
  - split; [exact Hkeep|intros [=]].
Qed.

End install_check_facts.

(** An install refused for its location, before its start is logged:
    nothing is made, and the check has rewritten the stored path of
    [blog]. *)
Lemma refused_install_rewrites_paths :
  snd (app_install MoreExamples.shop_externals "shop" None None false false
         {| mach := MoreExamples.old_blog_machine; trace := nil |})
  = Raise (YunohostValidationError "app_location_unavailable")
  /\ ~ Exists Phases.install_start
        (trace (fst (app_install MoreExamples.shop_externals "shop" None None false false
                       {| mach := MoreExamples.old_blog_machine; trace := nil |})))
  /\ apps (mach (fst (app_install MoreExamples.shop_externals "shop" None None false false
                        {| mach := MoreExamples.old_blog_machine; trace := nil |})))
       !! "shop" = None
  /\ MoreExamples.stored_path MoreExamples.old_blog_machine "blog" = Some (VStr "blog/")
  /\ MoreExamples.stored_path
       (mach (fst (app_install MoreExamples.shop_externals "shop" None None false false
                     {| mach := MoreExamples.old_blog_machine; trace := nil |}))) "blog"
     = Some (VStr "/blog").
Proof.
  split; [vm_compute; reflexivity|]. split.
  - vm_compute. intros H. repeat (inversion H as [? ? [args Hev]|? ? H']; subst;
      [discriminate Hev|clear H; rename H' into H]). inversion H.
  - repeat split; vm_compute; reflexivity.
Qed.
